(** * The yabridge group host: [src/wine-host/bridges/group.cpp]

    A shallow embedding of the group host process and the properties its
    specification states about it: the endpoint acceptor with its stale
    socket recovery, the registry of active plugins, the accept handler, the
    merged event loop, the deferred shutdown timer and the logger prefix;
    and, beyond the specification, the capture of the standard streams
    with the relays that log them, and the construction of the host. *)

From Stdlib Require Import ZArith String Ascii List Bool Lia.
From stdpp Require Import base gmap strings list.

Local Open Scope Z_scope.

(** * Part I: the program *)

(** ** Outcomes of fallible calls

    A C++ call either returns a value or throws. *)

Inductive result (E A : Type) : Type :=
| Ok (a : A)
| Throw (e : E).
Arguments Ok {E A} a.
Arguments Throw {E A} e.

(** ** [std::string] and [std::getline] *)

Definition newline : ascii := Ascii.ascii_of_nat 10.
Definition carriage_return : ascii := Ascii.ascii_of_nat 13.

(** [s.substr(pos)], for [pos <= s.size()], where [s.size()] is
    [String.length s]: the characters from [pos] on. *)
Definition substr (s : string) (pos : nat) : string :=
  String.substring pos (String.length s - pos) s.

(** The lines that [for (std::string line; std::getline(stream, line);)]
    iterates over when the stream holds [contents]: every newline ends a
    line, a last line need not be terminated, and the loop stops when
    nothing is left to extract. *)
Fixpoint getlines (contents : string) : list string :=
  match contents with
  | EmptyString => []
  | String c rest =>
      if Ascii.eqb c newline then EmptyString :: getlines rest
      else match getlines rest with
           | [] => [String c EmptyString]
           | line :: lines => String c line :: lines
           end
  end.

(** ** The endpoint acceptor *)

(** [boost::system::system_error], as thrown by the acceptor's constructor. *)
Record system_error := { error_value : Z; error_what : string }.

(** [boost::filesystem::filesystem_error], as thrown by [fs::remove]. *)
Record filesystem_error := { fs_error_what : string }.

Inductive exception :=
| exn_system (e : system_error)
| exn_filesystem (e : filesystem_error).

(** [boost::asio::local::stream_protocol::acceptor], bound and listening. *)
Record acceptor := { local_endpoint : string }.

(** The three things [create_acceptor_if_inactive] asks of the operating
    system. The world they act on is whatever the host looks like. *)
Class LocalSockets (World : Type) := {
  (** [acceptor(io_context, endpoint)]: open, bind and listen *)
  acceptor_new : string -> World -> World * result system_error acceptor;
  (** what [std::ifstream("/proc/net/unix")] yields; nothing when the file
      cannot be opened *)
  proc_net_unix : World -> string;
  (** [fs::remove(path)]: whether a file was removed *)
  fs_remove : string -> World -> World * result filesystem_error bool
}.

(** The calls made to the operating system, oldest first. *)
Inductive syscall :=
| sys_acceptor_new (endpoint : string)
| sys_read_open_sockets
| sys_remove (path : string).

(** The scan of the open sockets: [continue] on a line shorter than the
    path, [throw error] when the tail of a line is the path. [true] stands
    for the throw. *)
Fixpoint another_process_listening (endpoint_path : string)
    (lines : list string) : bool :=
  match lines with
  | [] => false
  | line :: lines' =>
      if (String.length line <? String.length endpoint_path)%nat
      then another_process_listening endpoint_path lines'
      else
        let file := substr line (String.length line - String.length endpoint_path) in
        if String.eqb file endpoint_path then true
        else another_process_listening endpoint_path lines'
  end.

Section EndpointAcceptor.
Context {World : Type} `{LocalSockets World}.

(** The host: the world and the log of calls made to it. *)
Definition host : Type := World * list syscall.

Definition call_acceptor_new (endpoint : string) (h : host)
    : host * result system_error acceptor :=
  let (w', r) := acceptor_new endpoint h.1 in
  ((w', h.2 ++ [sys_acceptor_new endpoint]), r).

Definition call_read_open_sockets (h : host) : host * string :=
  ((h.1, h.2 ++ [sys_read_open_sockets]), proc_net_unix h.1).

Definition call_remove (path : string) (h : host)
    : host * result filesystem_error bool :=
  let (w', r) := fs_remove path h.1 in
  ((w', h.2 ++ [sys_remove path]), r).

Definition create_acceptor_if_inactive (endpoint : string) (h : host)
    : host * result exception acceptor :=
  (* First try to listen on the endpoint normally *)
  match call_acceptor_new endpoint h with
  | (h1, Ok a) => (h1, Ok a)
  | (h1, Throw error) =>
      let (h2, open_sockets) := call_read_open_sockets h1 in
      let endpoint_path := endpoint in
      if another_process_listening endpoint_path (getlines open_sockets)
      then (h2, Throw (exn_system error))
      else
        (* At this point we can remove the stale socket and start
           listening *)
        match call_remove endpoint_path h2 with
        | (h3, Throw e) => (h3, Throw (exn_filesystem e))
        | (h3, Ok _) =>
            match call_acceptor_new endpoint h3 with
            | (h4, Ok a) => (h4, Ok a)
            | (h4, Throw e) => (h4, Throw (exn_system e))
            end
        end
  end.
End EndpointAcceptor.

(** A small host to run the acceptor on: the socket files that exist, and
    the endpoints that some process listens on, in the order
    [/proc/net/unix] lists them. Binding fails with [EADDRINUSE] when the
    file exists, and with [EACCES] below a directory that is not writable,
    where removing fails too. *)
Module SimHost.
Record t := {
  files : list string;
  listening : list string;
  read_only : list string
}.

Definition EADDRINUSE : Z := 98.
Definition EACCES : Z := 13.

Definition exists_file (p : string) (w : t) : bool :=
  existsb (String.eqb p) (files w).

Definition is_read_only (p : string) (w : t) : bool :=
  existsb (String.eqb p) (read_only w).

Definition bind (p : string) (w : t) : t * result system_error acceptor :=
  if is_read_only p w
  then (w, Throw {| error_value := EACCES; error_what := "bind: Permission denied" |})
  else if exists_file p w
  then (w, Throw {| error_value := EADDRINUSE; error_what := "bind: Address already in use" |})
  else ({| files := p :: files w; listening := listening w ++ [p];
           read_only := read_only w |}, Ok {| local_endpoint := p |}).

Definition header : string :=
  "Num       RefCount Protocol Flags    Type St Inode Path".

Definition entry (p : string) : string :=
  "0000000000000000: 00000002 00000000 00010000 0001 01 25417 " +:+ p.

Fixpoint unlines (ls : list string) : string :=
  match ls with
  | [] => ""
  | l :: ls' => l +:+ String newline (unlines ls')
  end.

Definition listing (w : t) : string :=
  unlines (header :: List.map entry (listening w)).

Definition remove (p : string) (w : t) : t * result filesystem_error bool :=
  if is_read_only p w
  then (w, Throw {| fs_error_what := "boost::filesystem::remove: Permission denied" |})
  else ({| files := List.filter (fun q => negb (String.eqb p q)) (files w);
           listening := listening w; read_only := read_only w |},
        Ok (exists_file p w)).

#[export] Instance sockets : LocalSockets t :=
  {| acceptor_new := bind; proc_net_unix := listing; fs_remove := remove |}.

(** The socket of a group, and hosts to bind it on: one without the socket,
    one on which a group host listens on it, one on which only the file is
    left. *)
Definition group_socket : string := "/tmp/yabridge-group-synths-1337-x64.sock".

Definition fresh : t :=
  {| files := []; listening := []; read_only := [] |}.

Definition live : t :=
  {| files := [group_socket]; listening := [group_socket]; read_only := [] |}.

Definition stale : t :=
  {| files := [group_socket]; listening := []; read_only := [] |}.

(** A stale file, while an unrelated socket whose path ends with the
    group's path is open. *)
Definition shadowed : t :=
  {| files := [group_socket]; listening := ["/srv/chroot" +:+ group_socket];
     read_only := [] |}.

Definition in_use : system_error :=
  {| error_value := EADDRINUSE; error_what := "bind: Address already in use" |}.

(** A stale file below a directory that is not writable: no process
    listens on the socket, and its file can neither be bound nor removed. *)
Definition locked : t :=
  {| files := [group_socket]; listening := []; read_only := [group_socket] |}.

Definition denied : system_error :=
  {| error_value := EACCES; error_what := "bind: Permission denied" |}.

Definition not_removed : filesystem_error :=
  {| fs_error_what := "boost::filesystem::remove: Permission denied" |}.
End SimHost.

(** The same host seen from where [/proc] is not mounted, as in a chroot:
    the list of open sockets cannot be opened, and reading it gives
    nothing. *)
Module Chroot.
Definition sockets : LocalSockets SimHost.t :=
  {| acceptor_new := SimHost.bind; proc_net_unix := fun _ => EmptyString;
     fs_remove := SimHost.remove |}.
End Chroot.

(** ** Time

    [std::chrono::steady_clock] counts nanoseconds in a signed 64 bit
    integer; time points and durations are such counts. Sums are taken in
    that representation. *)

Definition rep_min : Z := - 2 ^ 63.
Definition rep_max : Z := 2 ^ 63 - 1.

Definition wrap64 (z : Z) : Z := (z + 2 ^ 63) mod 2 ^ 64 - 2 ^ 63.

(** [n ms], converted to the clock's nanoseconds *)
Definition milliseconds (n : Z) : Z := n * 1000000.
(** [n s] *)
Definition seconds (n : Z) : Z := n * 1000000000.

(** [time_point + duration], in two's complement *)
Definition time_plus (t d : Z) : Z := wrap64 (t + d).

(** The sum by which [expires_after] sets a timer, asio's
    [chrono_time_traits::add]: it stops at the ends of the representation. *)
Definition time_add (t d : Z) : Z :=
  if 0 <=? t then (if rep_max - t <? d then rep_max else t + d)
  else (if d <? - (t - rep_min) then rep_min else t + d).

(** The delay between calls to the event loop: [1000ms / 30], a division of
    the count of milliseconds. *)
Definition event_loop_interval : Z := milliseconds (1000 / 30).

(** The least delay left for other handlers: the [5ms] of
    [async_handle_events]. *)
Definition event_loop_slack : Z := milliseconds 5.

(** The deadline [async_handle_events] passes to [events_timer.expires_at]:
    [std::max(events_timer.expiry() + event_loop_interval,
              std::chrono::steady_clock::now() + 5ms)]. *)
Definition next_events_deadline (expiry now : Z) : Z :=
  Z.max (time_plus expiry event_loop_interval) (time_plus now event_loop_slack).

(** The deadlines of successive calls of [async_handle_events], the first
    one made with the timer expiring at [expiry], when the clock reads
    [clock] at those calls. *)
Fixpoint deadlines (expiry : Z) (clock : list Z) : list Z :=
  match clock with
  | [] => []
  | now :: clock' =>
      let deadline := next_events_deadline expiry now in
      deadline :: deadlines deadline clock'
  end.

(** Every sum taken by those calls is representable. *)
Fixpoint representable (expiry : Z) (clock : list Z) : Prop :=
  match clock with
  | [] => True
  | now :: clock' =>
      rep_min <= expiry /\ expiry + event_loop_interval <= rep_max
      /\ rep_min <= now /\ now + event_loop_slack <= rep_max
      /\ representable (next_events_deadline expiry now) clock'
  end.

(** ** The logger prefix *)

(** *** Paths

    [boost::filesystem::path], for the absolute POSIX paths that group
    sockets have. *)

Definition slash : ascii := Ascii.ascii_of_nat 47.
Definition dot : ascii := Ascii.ascii_of_nat 46.
Definition dash : ascii := Ascii.ascii_of_nat 45.

Fixpoint contains (c : ascii) (s : string) : bool :=
  match s with
  | EmptyString => false
  | String d s' => Ascii.eqb d c || contains c s'
  end.

Fixpoint consists_of (c : ascii) (s : string) : bool :=
  match s with
  | EmptyString => true
  | String d s' => Ascii.eqb d c && consists_of c s'
  end.

Fixpoint ends_with_char (c : ascii) (s : string) : bool :=
  match s with
  | EmptyString => false
  | String d EmptyString => Ascii.eqb d c
  | String _ s' => ends_with_char c s'
  end.

(** The characters after the last [sep], all of [s] when it has none. *)
Fixpoint after_last (sep : ascii) (s : string) : string :=
  match s with
  | EmptyString => EmptyString
  | String c s' =>
      if contains sep s' then after_last sep s'
      else if Ascii.eqb c sep then s' else s
  end.

(** The characters before the last [sep], all of [s] when it has none. *)
Fixpoint before_last (sep : ascii) (s : string) : string :=
  match s with
  | EmptyString => EmptyString
  | String c s' =>
      if contains sep s' then String c (before_last sep s')
      else if Ascii.eqb c sep then EmptyString else s
  end.

(** [path::filename()]: the last element of the path, which is a single dot
    when the path ends with a separator and is not a root. *)
Definition filename (p : string) : string :=
  if String.eqb p "" then ""
  else if consists_of slash p then (if String.eqb p "//" then "//" else "/")
  else if ends_with_char slash p then "."
  else after_last slash p.

(** [path::replace_extension()] without a new extension: what starts at the
    last dot of the file name is dropped; the names of one and of two dots
    have no extension. *)
Definition replace_extension (name : string) : string :=
  if String.eqb name "." || String.eqb name ".." then name
  else before_last dot name.

(** *** Regular expressions

    As much of [std::regex]'s ECMAScript grammar as [group_regexp] uses,
    matched by backtracking, greedy quantifiers trying the longest
    repetition first. *)

Inductive char_class :=
| any_char                 (* [.]: every character but a line terminator *)
| none_of (c : ascii).     (* [[^c]] *)

Definition class_matches (cl : char_class) (c : ascii) : bool :=
  match cl with
  | any_char => negb (Ascii.eqb c newline || Ascii.eqb c carriage_return)
  | none_of d => negb (Ascii.eqb c d)
  end.

Inductive regex :=
| r_bol                          (* [^] *)
| r_eol                          (* [$] *)
| r_lit (s : list ascii)         (* literal characters *)
| r_star (cl : char_class)       (* [cl*] *)
| r_plus (cl : char_class)       (* [cl+] *)
| r_group (r : regex)            (* [(r)] *)
| r_seq (r1 r2 : regex).

Fixpoint strip_prefix (lit after : list ascii) : option (list ascii) :=
  match lit with
  | [] => Some after
  | c :: lit' =>
      match after with
      | d :: after' => if Ascii.eqb c d then strip_prefix lit' after' else None
      | [] => None
      end
  end.

(** [cl*] at offset [pos] with [after] left to read: take one more
    character when that leads to a match, and stop here otherwise. *)
Fixpoint greedy {R : Type} (cl : char_class) (pos : nat) (after : list ascii)
    (k : nat -> list ascii -> option R) : option R :=
  match after with
  | c :: after' =>
      if class_matches cl c then
        match greedy cl (S pos) after' k with
        | Some r => Some r
        | None => k pos after
        end
      else k pos after
  | [] => k pos after
  end.

(** The captures are listed in the order in which their groups close. *)
Fixpoint rmatch {R : Type} (r : regex) (pos : nat) (after : list ascii)
    (captures : list (list ascii))
    (k : nat -> list ascii -> list (list ascii) -> option R) : option R :=
  match r with
  | r_bol => match pos with O => k pos after captures | S _ => None end
  | r_eol => match after with [] => k pos after captures | _ :: _ => None end
  | r_lit lit =>
      match strip_prefix lit after with
      | Some after' => k (pos + length lit)%nat after' captures
      | None => None
      end
  | r_star cl => greedy cl pos after (fun pos' after' => k pos' after' captures)
  | r_plus cl =>
      match after with
      | c :: after' =>
          if class_matches cl c
          then greedy cl (S pos) after' (fun pos' after' => k pos' after' captures)
          else None
      | [] => None
      end
  | r_group r' =>
      rmatch r' pos after captures
        (fun pos' after' captures' =>
           k pos' after' (captures' ++ [firstn (pos' - pos) after]))
  | r_seq r1 r2 =>
      rmatch r1 pos after captures
        (fun pos' after' captures' => rmatch r2 pos' after' captures' k)
  end.

(** [std::regex_match]: the whole of [s] has to match; the captures of the
    match are returned. *)
Definition regex_match (s : string) (r : regex) : option (list (list ascii)) :=
  rmatch r 0%nat (list_ascii_of_string s) []
    (fun _ after captures =>
       match after with [] => Some captures | _ :: _ => None end).

(** The pattern of [group_regexp]: from the start, the characters
    yabridge-group-, a group of any characters, and then twice a dash
    followed by one or more characters that are no dash, up to the end. *)
Definition group_regexp : regex :=
  r_seq r_bol
    (r_seq (r_lit (list_ascii_of_string "yabridge-group-"))
       (r_seq (r_group (r_star any_char))
          (r_seq (r_lit [dash])
             (r_seq (r_plus (none_of dash))
                (r_seq (r_lit [dash])
                   (r_seq (r_plus (none_of dash)) r_eol)))))).

(** [i386] tells whether [__i386__] is defined, as it is in the 32 bit
    build. *)
Definition create_logger_prefix (i386 : bool) (socket_path : string) : string :=
  let socket_name := replace_extension (filename socket_path) in
  let socket_name :=
    match regex_match socket_name group_regexp with
    | Some group_match =>
        let socket_name := string_of_list_ascii (nth 0 group_match []) in
        if i386 then socket_name +:+ "-x32" else socket_name
    | None => socket_name
    end in
  "[" +:+ socket_name +:+ "] ".

(** *** The names of group sockets *)

(** No character of [l] is a dash. *)
Definition dash_free (l : list ascii) : Prop :=
  Forall (fun d => Ascii.eqb d dash = false) l.

(** No character of [l] is a line terminator. *)
Definition on_one_line (l : list ascii) : Prop :=
  Forall (fun c => class_matches any_char c = true) l.

Definition group_prefix : list ascii := list_ascii_of_string "yabridge-group-".

(** The names that [group_regexp] matches, with the group it captures. *)
Definition group_socket_name (name g id arch : list ascii) : Prop :=
  name = group_prefix ++ g ++ dash :: id ++ dash :: arch
  /\ on_one_line g
  /\ id <> [] /\ dash_free id
  /\ arch <> [] /\ dash_free arch.

(** The same names, as strings: the prefix, a group name on one line, and
    two more fields without a dash, none of them empty. *)
Definition names_group (socket_name g id arch : string) : Prop :=
  socket_name = "yabridge-group-" +:+ g +:+ "-" +:+ id +:+ "-" +:+ arch
  /\ contains newline g = false /\ contains carriage_return g = false
  /\ id <> "" /\ contains dash id = false
  /\ arch <> "" /\ contains dash arch = false.

(** ** The group host *)

(** Modelled from the spec: the Connection Request of the handshake, the
    identity under which a plugin is registered; [group.cpp] reads its
    [plugin_path] and [endpoint_base_dir]. *)
Record GroupRequest := { plugin_path : string; endpoint_base_dir : string }.

(** Modelled from the spec: the Connection Response, which holds the
    process id of the group host. *)
Record GroupResponse := { pid : Z }.

#[export] Instance GroupRequest_eq_dec : EqDecision GroupRequest.
Proof. solve_decision. Defined.

#[export] Instance GroupRequest_countable : Countable GroupRequest.
Proof.
  apply (inj_countable'
           (fun r => (plugin_path r, endpoint_base_dir r))
           (fun p => {| plugin_path := p.1; endpoint_base_dir := p.2 |})).
  intros []. reflexivity.
Defined.

(** [boost::system::error_code] *)
Record error_code := { ec_value : Z; ec_message : string }.

(** [error.failed()] *)
Definition failed (error : error_code) : bool := negb (ec_value error =? 0).

Definition success : error_code :=
  {| ec_value := 0; ec_message := "Success" |}.

(** [boost::asio::error::operation_aborted], with which the handler of a
    canceled wait is invoked *)
Definition operation_aborted : error_code :=
  {| ec_value := 125; ec_message := "Operation canceled" |}.

(** What the constructor of the plugin bridge throws: a
    [std::runtime_error], or anything else. *)
Inductive construct_exception :=
| runtime_error (what : string)
| other_exception (what : string).

(** How a handler ends when it does not return: a failed [assert], which
    aborts the process, or an exception that nothing catches. *)
Inductive failure :=
| assertion_failed (expression : string)
| uncaught (what : string).

(** Modelled from the spec: the accepted socket as the handshake uses it
    through [read_object] and [write_object] of the common sockets code: the
    request that the peer has sent, if reading gives one, and the error that
    writing runs into, if any. *)
Record socket := {
  incoming : result system_error GroupRequest;
  send_error : option system_error
}.

(** Modelled from the spec: the plugin bridge [Vst2Bridge] that [group.cpp]
    constructs and polls, the Win32 message queue of the thread, the cap
    [max_win32_messages] of [group.h], and the id of this process. *)
Class Platform (Vst2Bridge MSG Queue : Type) := {
  Vst2Bridge_new : string -> string -> result construct_exception Vst2Bridge;
  Vst2Bridge_handle_x11_events : Vst2Bridge -> Vst2Bridge;
  Vst2Bridge_should_skip_message_loop : Vst2Bridge -> bool;
  (** [PeekMessage(&msg, nullptr, 0, 0, PM_REMOVE)] *)
  PeekMessage : Queue -> option (MSG * Queue);
  TranslateMessage : MSG -> Queue -> Queue;
  DispatchMessage : MSG -> Queue -> Queue;
  max_win32_messages : Z;
  get_id : Z
}.

(** The completion handlers that [plugin_context] invokes. *)
Inductive handler :=
| on_accept (error : error_code) (sock : socket)
| on_events_timer (error : error_code)
| on_shutdown_timer (error : error_code)
| erase_plugin (request : GroupRequest).

(** What the process does that can be seen from outside a handler, in the
    order in which it does it. *)
Inductive effect (MSG : Type) :=
| log (line : string)
| context_stop
| read_request
| write_response (response : GroupResponse)
| construct (path base_dir : string)
| spawn (request : GroupRequest)
| join (request : GroupRequest)
| async_accept
| x11_events (request : GroupRequest)
| skip_asked (request : GroupRequest)
| translate (msg : MSG)
| dispatch (msg : MSG).
Arguments log {MSG} line.
Arguments context_stop {MSG}.
Arguments read_request {MSG}.
Arguments write_response {MSG} response.
Arguments construct {MSG} path base_dir.
Arguments spawn {MSG} request.
Arguments join {MSG} request.
Arguments async_accept {MSG}.
Arguments x11_events {MSG} request.
Arguments skip_asked {MSG} request.
Arguments translate {MSG} msg.
Arguments dispatch {MSG} msg.

(** [boost::asio::steady_timer]: when it expires, and how many
    [async_wait]s are outstanding. *)
Record steady_timer := { expiry : Z; waiting : nat }.

(** [boost::asio::io_context]: the handlers that are ready to be invoked,
    oldest first, and whether [stop()] was called. *)
Record io_context := { ready : list handler; stopped : bool }.

(** The thread of a plugin: inside [handle_dispatch], or past it. *)
Inductive jthread := dispatching | finished.

Record GroupBridge (Vst2Bridge MSG Queue : Type) := {
  active_plugins : gmap GroupRequest (jthread * Vst2Bridge);
  plugin_context : io_context;
  (** an [async_accept] is outstanding on [group_socket_acceptor] *)
  accepting : bool;
  events_timer : steady_timer;
  shutdown_timer : steady_timer;
  (** [std::chrono::steady_clock::now()] *)
  now : Z;
  (** the Win32 message queue of the thread *)
  messages : Queue;
  (** the effects so far, oldest first *)
  trace : list (effect MSG);
  (** the handlers invoked so far, oldest first *)
  handled : list handler;
  (** set when a handler did not return *)
  crashed : option failure
}.
Arguments active_plugins {Vst2Bridge MSG Queue} _.
Arguments plugin_context {Vst2Bridge MSG Queue} _.
Arguments accepting {Vst2Bridge MSG Queue} _.
Arguments events_timer {Vst2Bridge MSG Queue} _.
Arguments shutdown_timer {Vst2Bridge MSG Queue} _.
Arguments now {Vst2Bridge MSG Queue} _.
Arguments messages {Vst2Bridge MSG Queue} _.
Arguments trace {Vst2Bridge MSG Queue} _.
Arguments handled {Vst2Bridge MSG Queue} _.
Arguments crashed {Vst2Bridge MSG Queue} _.

Section GroupBridgeState.
Context {Vst2Bridge MSG Queue : Type}.

Abbreviation state := (GroupBridge Vst2Bridge MSG Queue).

Definition set_active_plugins
    (f : gmap GroupRequest (jthread * Vst2Bridge)
         -> gmap GroupRequest (jthread * Vst2Bridge)) (s : state) : state :=
  {| active_plugins := f (active_plugins s);
     plugin_context := plugin_context s; accepting := accepting s;
     events_timer := events_timer s; shutdown_timer := shutdown_timer s;
     now := now s; messages := messages s; trace := trace s;
     handled := handled s; crashed := crashed s |}.

Definition set_plugin_context (f : io_context -> io_context) (s : state) : state :=
  {| active_plugins := active_plugins s;
     plugin_context := f (plugin_context s); accepting := accepting s;
     events_timer := events_timer s; shutdown_timer := shutdown_timer s;
     now := now s; messages := messages s; trace := trace s;
     handled := handled s; crashed := crashed s |}.

Definition set_accepting (b : bool) (s : state) : state :=
  {| active_plugins := active_plugins s;
     plugin_context := plugin_context s; accepting := b;
     events_timer := events_timer s; shutdown_timer := shutdown_timer s;
     now := now s; messages := messages s; trace := trace s;
     handled := handled s; crashed := crashed s |}.

Definition set_events_timer (t : steady_timer) (s : state) : state :=
  {| active_plugins := active_plugins s;
     plugin_context := plugin_context s; accepting := accepting s;
     events_timer := t; shutdown_timer := shutdown_timer s;
     now := now s; messages := messages s; trace := trace s;
     handled := handled s; crashed := crashed s |}.

Definition set_shutdown_timer (t : steady_timer) (s : state) : state :=
  {| active_plugins := active_plugins s;
     plugin_context := plugin_context s; accepting := accepting s;
     events_timer := events_timer s; shutdown_timer := t;
     now := now s; messages := messages s; trace := trace s;
     handled := handled s; crashed := crashed s |}.

Definition set_now (t : Z) (s : state) : state :=
  {| active_plugins := active_plugins s;
     plugin_context := plugin_context s; accepting := accepting s;
     events_timer := events_timer s; shutdown_timer := shutdown_timer s;
     now := t; messages := messages s; trace := trace s;
     handled := handled s; crashed := crashed s |}.

Definition set_messages (f : Queue -> Queue) (s : state) : state :=
  {| active_plugins := active_plugins s;
     plugin_context := plugin_context s; accepting := accepting s;
     events_timer := events_timer s; shutdown_timer := shutdown_timer s;
     now := now s; messages := f (messages s); trace := trace s;
     handled := handled s; crashed := crashed s |}.

Definition set_trace (f : list (effect MSG) -> list (effect MSG)) (s : state)
    : state :=
  {| active_plugins := active_plugins s;
     plugin_context := plugin_context s; accepting := accepting s;
     events_timer := events_timer s; shutdown_timer := shutdown_timer s;
     now := now s; messages := messages s; trace := f (trace s);
     handled := handled s; crashed := crashed s |}.

Definition set_handled (f : list handler -> list handler) (s : state) : state :=
  {| active_plugins := active_plugins s;
     plugin_context := plugin_context s; accepting := accepting s;
     events_timer := events_timer s; shutdown_timer := shutdown_timer s;
     now := now s; messages := messages s; trace := trace s;
     handled := f (handled s); crashed := crashed s |}.

Definition set_crashed (c : option failure) (s : state) : state :=
  {| active_plugins := active_plugins s;
     plugin_context := plugin_context s; accepting := accepting s;
     events_timer := events_timer s; shutdown_timer := shutdown_timer s;
     now := now s; messages := messages s; trace := trace s;
     handled := handled s; crashed := c |}.

(** *** Code that runs on the state of the group host

    A piece of code takes the state to a new state, and returns a value or
    fails. *)
Definition M (A : Type) : Type := state -> state * result failure A.

Definition ret {A : Type} (a : A) : M A := fun s => (s, Ok a).

Definition bind {A B : Type} (m : M A) (k : A -> M B) : M B :=
  fun s => match m s with
           | (s', Ok a) => k a s'
           | (s', Throw f) => (s', Throw f)
           end.

Definition throw {A : Type} (f : failure) : M A := fun s => (s, Throw f).

Definition gets {A : Type} (f : state -> A) : M A := fun s => (s, Ok (f s)).

Definition modify (f : state -> state) : M unit := fun s => (f s, Ok tt).

Definition emit (e : effect MSG) : M unit :=
  modify (set_trace (fun t => t ++ [e])).

(** [logger.log(line)] *)
Definition logger_log (line : string) : M unit := emit (log line).

(** [assert(condition)] *)
Definition assert (condition : bool) (expression : string) : M unit :=
  if condition then ret tt else throw (assertion_failed expression).

(** [plugin_context.stop()] *)
Definition stop : M unit :=
  bind (emit context_stop)
    (fun _ => modify (set_plugin_context
                        (fun c => {| ready := ready c; stopped := true |}))).

(** [boost::asio::post(plugin_context, h)], and the queueing of the handler
    of a wait that is over *)
Definition post (h : handler) : M unit :=
  modify (set_plugin_context
            (fun c => {| ready := ready c ++ [h]; stopped := stopped c |})).

Fixpoint post_all (hs : list handler) : M unit :=
  match hs with
  | [] => ret tt
  | h :: hs' => bind (post h) (fun _ => post_all hs')
  end.
End GroupBridgeState.

Declare Scope group_scope.
Delimit Scope group_scope with group.
Notation "'let*' x := m 'in' k" := (bind m (fun x => k))
  (at level 10, x name, m at level 100, k at level 200) : group_scope.
Notation "m ;; k" := (bind m (fun _ => k))
  (at level 100, k at level 200, right associativity) : group_scope.


Section GroupBridgeCode.
Context {Vst2Bridge MSG Queue : Type} `{Platform Vst2Bridge MSG Queue}.

Abbreviation state := (GroupBridge Vst2Bridge MSG Queue).
Abbreviation code := (@M Vst2Bridge MSG Queue).

Local Open Scope group_scope.

(** *** The timers *)

(** [timer.expires_at(deadline)] and the [expires_after] that comes down to
    it: the outstanding waits are canceled, which makes their handlers ready
    with [operation_aborted], and the expiry time is set. *)
Definition shutdown_timer_expires_at (deadline : Z) : code unit :=
  let* t := gets shutdown_timer in
  post_all (replicate (waiting t) (on_shutdown_timer operation_aborted));;
  modify (set_shutdown_timer {| expiry := deadline; waiting := 0 |}).

Definition events_timer_expires_at (deadline : Z) : code unit :=
  let* t := gets events_timer in
  post_all (replicate (waiting t) (on_events_timer operation_aborted));;
  modify (set_events_timer {| expiry := deadline; waiting := 0 |}).

(** [timer.async_wait(handler)] *)
Definition shutdown_timer_async_wait : code unit :=
  let* t := gets shutdown_timer in
  modify (set_shutdown_timer {| expiry := expiry t; waiting := S (waiting t) |}).

Definition events_timer_async_wait : code unit :=
  let* t := gets events_timer in
  modify (set_events_timer {| expiry := expiry t; waiting := S (waiting t) |}).

(** *** The handshake *)

(** [read_object<GroupRequest>(socket)] *)
Definition read_object (sock : socket) : code GroupRequest :=
  emit read_request;;
  match incoming sock with
  | Ok request => ret request
  | Throw e => throw (uncaught (error_what e))
  end.

(** [write_object(socket, response)] *)
Definition write_object (sock : socket) (response : GroupResponse) : code unit :=
  match send_error sock with
  | None => emit (write_response response)
  | Some e => throw (uncaught (error_what e))
  end.

(** *** [GroupBridge::handle_plugin_dispatch], from the return of
    [bridge->handle_dispatch()] on *)
Definition handle_plugin_dispatch (request : GroupRequest) : code unit :=
  logger_log ("'" +:+ plugin_path request +:+ "' has exited");;
  (* the plugin is removed from within the IO context *)
  post (erase_plugin request);;
  (* Defer actually shutting down the process *)
  let* t := gets now in
  shutdown_timer_expires_at (time_add t (seconds 2));;
  shutdown_timer_async_wait;;
  modify (set_active_plugins
            (alter (fun slot => (finished, slot.2)) request)).

(** The lambda posted by [handle_plugin_dispatch]:
    [active_plugins.erase(request)], which joins the thread. *)
Definition erase (request : GroupRequest) : code unit :=
  let* plugins := gets active_plugins in
  match plugins !! request with
  | Some _ =>
      emit (join request);;
      modify (set_active_plugins (delete request))
  | None => ret tt
  end.

(** The handler of [shutdown_timer.async_wait]. *)
Definition shutdown_timer_handler (error : error_code) : code unit :=
  (* A previous timer gets canceled automatically when another plugin
     exits *)
  if failed error then ret tt
  else
    let* plugins := gets active_plugins in
    if (size plugins =? 0)%nat then
      logger_log "All plugins have exited, shutting down the group process";;
      stop
    else ret tt.

(** *** [GroupBridge::should_skip_message_loop] *)
Fixpoint should_skip_any
    (plugins : list (GroupRequest * (jthread * Vst2Bridge))) : code bool :=
  match plugins with
  | [] => ret false
  | (parameters, (thread, bridge)) :: plugins' =>
      emit (skip_asked parameters);;
      if Vst2Bridge_should_skip_message_loop bridge then ret true
      else should_skip_any plugins'
  end.

Definition should_skip_message_loop : code bool :=
  let* plugins := gets active_plugins in
  should_skip_any (map_to_list plugins).

(** *** [GroupBridge::accept_requests] *)

(** [group_socket_acceptor.async_accept(handler)] *)
Definition accept_requests : code unit :=
  emit async_accept;;
  modify (set_accepting true).

(** The handler of [async_accept]. *)
Definition accept_handler (error : error_code) (sock : socket) : code unit :=
  (* Stop the whole process when the socket gets closed unexpectedly *)
  (if failed error then
     logger_log "Error while listening for incoming connections:";;
     logger_log (ec_message error);;
     stop
   else ret tt);;
  let* request := read_object sock in
  write_object sock {| pid := get_id |};;
  (* Collisions in the generated socket names should be very rare, but it
     could in theory happen *)
  let* plugins := gets active_plugins in
  assert (negb (bool_decide (is_Some (plugins !! request))))
    "!active_plugins.contains(request)";;
  logger_log ("Received request to host '" +:+ plugin_path request
              +:+ "' using socket endpoint base directory '"
              +:+ endpoint_base_dir request +:+ "'");;
  emit (construct (plugin_path request) (endpoint_base_dir request));;
  match Vst2Bridge_new (plugin_path request) (endpoint_base_dir request) with
  | Ok bridge =>
      logger_log ("Finished initializing '" +:+ plugin_path request +:+ "'");;
      emit (spawn request);;
      modify (set_active_plugins (insert request (dispatching, bridge)))
  | Throw (runtime_error what) =>
      logger_log ("Error while initializing '" +:+ plugin_path request +:+ "':");;
      logger_log what
  | Throw (other_exception what) => throw (uncaught what)
  end;;
  accept_requests.

(** *** [GroupBridge::async_handle_events] *)

(** [bridge->handle_x11_events()] on every active plugin *)
Fixpoint handle_x11_events_all
    (plugins : list (GroupRequest * (jthread * Vst2Bridge))) : code unit :=
  match plugins with
  | [] => ret tt
  | (parameters, (thread, bridge)) :: plugins' =>
      emit (x11_events parameters);;
      modify (set_active_plugins
                (insert parameters
                   (thread, Vst2Bridge_handle_x11_events bridge)));;
      handle_x11_events_all plugins'
  end.

(** The loop over the Win32 messages, with [left] iterations left before
    [i] reaches [max_win32_messages]. *)
Fixpoint message_loop (left : nat) : code unit :=
  match left with
  | O => ret tt
  | S left' =>
      let* queue := gets messages in
      match PeekMessage queue with
      | None => ret tt
      | Some (msg, queue') =>
          modify (set_messages (fun _ => queue'));;
          emit (translate msg);;
          modify (set_messages (TranslateMessage msg));;
          emit (dispatch msg);;
          modify (set_messages (DispatchMessage msg));;
          message_loop left'
      end
  end.

Definition async_handle_events : code unit :=
  (* Try to keep a steady framerate, but add in delays to let other events
     get handled if the GUI message handling somehow takes very long. *)
  let* t := gets events_timer in
  let* clock := gets now in
  events_timer_expires_at (next_events_deadline (expiry t) clock);;
  events_timer_async_wait.

(** The handler of [events_timer.async_wait]. *)
Definition events_timer_handler (error : error_code) : code unit :=
  if failed error then ret tt
  else
    (* Always handle X11 events *)
    let* plugins := gets active_plugins in
    handle_x11_events_all (map_to_list plugins);;
    (* Handle Win32 messages unless plugins are in the middle of opening
       their editor *)
    let* skip := should_skip_message_loop in
    (if negb skip then message_loop (Z.to_nat max_win32_messages)
     else ret tt);;
    async_handle_events.

(** *** The event loop *)

Definition invoke (h : handler) : code unit :=
  match h with
  | on_accept error sock => accept_handler error sock
  | on_events_timer error => events_timer_handler error
  | on_shutdown_timer error => shutdown_timer_handler error
  | erase_plugin request => erase request
  end.

(** The state that a piece of code leaves; a failure is recorded in it. *)
Definition run_code (c : code unit) (s : state) : state :=
  match c s with
  | (s', Ok _) => s'
  | (s', Throw f) => set_crashed (Some f) s'
  end.

(** The waits of a timer that has expired are over: their handlers become
    ready, with success. *)
Definition expire_events_timer : code unit :=
  let* t := gets events_timer in
  let* clock := gets now in
  if expiry t <=? clock then
    post_all (replicate (waiting t) (on_events_timer success));;
    modify (set_events_timer {| expiry := expiry t; waiting := 0 |})
  else ret tt.

Definition expire_shutdown_timer : code unit :=
  let* t := gets shutdown_timer in
  let* clock := gets now in
  if expiry t <=? clock then
    post_all (replicate (waiting t) (on_shutdown_timer success));;
    modify (set_shutdown_timer {| expiry := expiry t; waiting := 0 |})
  else ret tt.

(** The timer that expires first has its handlers queued first. *)
Definition expire_timers : code unit :=
  let* e := gets events_timer in
  let* s := gets shutdown_timer in
  if expiry s <? expiry e
  then expire_shutdown_timer;; expire_events_timer
  else expire_events_timer;; expire_shutdown_timer.

(** What happens to the group host from outside the code of a handler. *)
Inductive event :=
(** the steady clock reaches [t] *)
| clock_reaches (t : Z)
(** the outstanding [async_accept] completes *)
| connects (error : error_code) (sock : socket)
(** [bridge->handle_dispatch()] returns on the thread of [request] *)
| plugin_exits (request : GroupRequest)
(** the plugin of [request] does something that leaves its bridge in
    another state *)
| plugin_works (request : GroupRequest) (bridge : Vst2Bridge)
(** [plugin_context.run()] invokes the handler that is ready first *)
| runs_handler.

(** Nothing happens any more once the context is stopped, after which
    [run()] returns and the process ends, or once a handler did not return. *)
Definition halted (s : state) : bool :=
  stopped (plugin_context s) || bool_decide (is_Some (crashed s)).

Definition step (s : state) (ev : event) : state :=
  if halted s then s
  else
    match ev with
    | clock_reaches t =>
        run_code expire_timers (set_now (Z.max (now s) t) s)
    | connects error sock =>
        if accepting s
        then run_code (post (on_accept error sock)) (set_accepting false s)
        else s
    | plugin_exits request =>
        match active_plugins s !! request with
        | Some (dispatching, _) => run_code (handle_plugin_dispatch request) s
        | _ => s
        end
    | plugin_works request bridge =>
        set_active_plugins (alter (fun slot => (slot.1, bridge)) request) s
    | runs_handler =>
        match ready (plugin_context s) with
        | [] => s
        | h :: hs =>
            run_code (invoke h)
              (set_handled (fun l => l ++ [h])
                 (set_plugin_context
                    (fun c => {| ready := hs; stopped := stopped c |}) s))
        end
    end.

Definition run (s : state) (evs : list event) : state := foldl step s evs.

(** The group host as its constructor leaves it, on a clock that reads
    [clock] and with [queue] as the message queue of the thread. *)
Definition GroupBridge_new (clock : Z) (queue : Queue) : state :=
  {| active_plugins := ∅;
     plugin_context := {| ready := []; stopped := false |};
     accepting := false;
     events_timer := {| expiry := 0; waiting := 0 |};
     shutdown_timer := {| expiry := 0; waiting := 0 |};
     now := clock; messages := queue; trace := []; handled := [];
     crashed := None |}.

(** [GroupBridge::handle_incoming_connections], up to the call of
    [plugin_context.run()], which the events above drive. *)
Definition handle_incoming_connections : code unit :=
  accept_requests;;
  async_handle_events;;
  logger_log "Group host is up and running, now accepting incoming connections".

Definition started (clock : Z) (queue : Queue) : state :=
  run_code handle_incoming_connections (GroupBridge_new clock queue).
End GroupBridgeCode.

(** ** What the handlers come down to

    The notions in which the properties of the group host are stated. *)

Section GroupBridgeNotions.
Context {Vst2Bridge MSG Queue : Type} `{Platform Vst2Bridge MSG Queue}.

Abbreviation state := (GroupBridge Vst2Bridge MSG Queue).
Abbreviation slot := (jthread * Vst2Bridge)%type.

(** The registry after [handle_x11_events_all]. *)
Definition x11_handled (plugins : list (GroupRequest * slot))
    (m : gmap GroupRequest slot) : gmap GroupRequest slot :=
  foldl (fun acc p => <[p.1 := (p.2.1, Vst2Bridge_handle_x11_events p.2.2)]> acc)
    m plugins.

(** The plugins that [should_skip_any] asks, and its answer. *)
Fixpoint asked (plugins : list (GroupRequest * slot)) : list GroupRequest :=
  match plugins with
  | [] => []
  | (parameters, (_, bridge)) :: plugins' =>
      parameters ::
      (if Vst2Bridge_should_skip_message_loop bridge then [] else asked plugins')
  end.

Definition any_skips (plugins : list (GroupRequest * slot)) : bool :=
  existsb (fun p => Vst2Bridge_should_skip_message_loop p.2.2) plugins.

(** The messages that [message_loop] handles, and the queue it leaves. *)
Fixpoint drained (left : nat) (queue : Queue) : list MSG * Queue :=
  match left with
  | O => ([], queue)
  | S left' =>
      match PeekMessage queue with
      | None => ([], queue)
      | Some (msg, queue') =>
          let (msgs, final) :=
            drained left' (DispatchMessage msg (TranslateMessage msg queue')) in
          (msg :: msgs, final)
      end
  end.

Definition message_effects (msgs : list MSG) : list (effect MSG) :=
  flat_map (fun msg => [translate msg; dispatch msg]) msgs.

(** Handling the X11 events of all plugins leaves every slot in place, with
    its bridge past [handle_x11_events]. *)
Definition after_x11 (m : gmap GroupRequest slot) : gmap GroupRequest slot :=
  (fun sl => (sl.1, Vst2Bridge_handle_x11_events sl.2)) <$> m.

(** The state that the handler of the events timer leaves when it is invoked
    without an error. *)
Definition events_round (s : state) : state :=
  let plugins := after_x11 (active_plugins s) in
  let skip := any_skips (map_to_list plugins) in
  let d := drained (Z.to_nat max_win32_messages) (messages s) in
  {| active_plugins := plugins;
     plugin_context :=
       {| ready := ready (plugin_context s)
                   ++ replicate (waiting (events_timer s))
                        (on_events_timer operation_aborted);
          stopped := stopped (plugin_context s) |};
     accepting := accepting s;
     events_timer :=
       {| expiry := next_events_deadline (expiry (events_timer s)) (now s);
          waiting := 1 |};
     shutdown_timer := shutdown_timer s;
     now := now s;
     messages := if skip then messages s else d.2;
     trace := trace s
              ++ map (fun p => x11_events p.1) (map_to_list (active_plugins s))
              ++ map skip_asked (asked (map_to_list plugins))
              ++ (if skip then [] else message_effects d.1);
     handled := handled s;
     crashed := crashed s |}.

(** The messages dispatched, and those translated, in a trace. *)
Fixpoint dispatched (t : list (effect MSG)) : nat :=
  match t with
  | [] => 0
  | dispatch _ :: t' => S (dispatched t')
  | _ :: t' => dispatched t'
  end.

Fixpoint translated (t : list (effect MSG)) : nat :=
  match t with
  | [] => 0
  | translate _ :: t' => S (translated t')
  | _ :: t' => translated t'
  end.

(** What the accept handler logs and does first when the accept failed. *)
Definition accept_failure (error : error_code) : list (effect MSG) :=
  if failed error
  then [log "Error while listening for incoming connections:";
        log (ec_message error); context_stop]
  else [].

Definition received (request : GroupRequest) : effect MSG :=
  log ("Received request to host '" +:+ plugin_path request
       +:+ "' using socket endpoint base directory '"
       +:+ endpoint_base_dir request +:+ "'").

(** The state in which the accept handler reads the request. *)
Definition accept_prologue (error : error_code) (s : state) : state :=
  set_plugin_context
    (fun c => {| ready := ready c; stopped := stopped c || failed error |})
    (set_trace (fun t => t ++ accept_failure error) s).

(** The state in which the shutdown timer leaves the group host when it
    finds no plugin. *)
Definition shut_down (s : state) : state :=
  set_plugin_context (fun c => {| ready := ready c; stopped := true |})
    (set_trace
       (fun t => t ++ [log "All plugins have exited, shutting down the group process";
                       context_stop]) s).

(** The state that [handle_plugin_dispatch] leaves once the plugin has
    exited. *)
Definition plugin_gone (request : GroupRequest) (s : state) : state :=
  set_active_plugins (alter (fun sl => (finished, sl.2)) request)
    (set_shutdown_timer
       {| expiry := time_add (now s) (seconds 2); waiting := 1 |}
       (set_plugin_context
          (fun c => {| ready := ready c ++ [erase_plugin request]
                                ++ replicate (waiting (shutdown_timer s))
                                     (on_shutdown_timer operation_aborted);
                       stopped := stopped c |})
          (set_trace
             (fun t => t ++ [log ("'" +:+ plugin_path request +:+ "' has exited")])
             s))).

Definition events_timer_expired (s : state) : state :=
  if expiry (events_timer s) <=? now s then
    set_events_timer {| expiry := expiry (events_timer s); waiting := 0 |}
      (set_plugin_context
         (fun c => {| ready := ready c
                               ++ replicate (waiting (events_timer s))
                                    (on_events_timer success);
                      stopped := stopped c |}) s)
  else s.

Definition shutdown_timer_expired (s : state) : state :=
  if expiry (shutdown_timer s) <=? now s then
    set_shutdown_timer {| expiry := expiry (shutdown_timer s); waiting := 0 |}
      (set_plugin_context
         (fun c => {| ready := ready c
                               ++ replicate (waiting (shutdown_timer s))
                                    (on_shutdown_timer success);
                      stopped := stopped c |}) s)
  else s.

(** The state in which the handler that was ready first is invoked. *)
Definition dequeued (h : handler) (hs : list handler) (s : state) : state :=
  set_handled (fun l => l ++ [h])
    (set_plugin_context (fun c => {| ready := hs; stopped := stopped c |}) s).

(** The threads started for [request] and not joined yet, counted from the
    trace. *)
Fixpoint alive (request : GroupRequest) (t : list (effect MSG)) : Z :=
  match t with
  | [] => 0
  | spawn r :: t' => (if decide (r = request) then 1 else 0) + alive request t'
  | join r :: t' => (if decide (r = request) then -1 else 0) + alive request t'
  | _ :: t' => alive request t'
  end.

(** Whether [request] is registered, as a number. *)
Definition registered (s : state) (request : GroupRequest) : Z :=
  if decide (is_Some (active_plugins s !! request)) then 1 else 0.

(** From [s] to [s'] the trace has grown, by as many threads started and
    joined as the registry has gained and lost entries. *)
Definition grows (s s' : state) : Prop :=
  exists added,
    trace s' = trace s ++ added
    /\ forall r, alive r added = registered s' r - registered s r.

(** Along every run a request has one thread when it is registered and none
    when it is not. *)
Definition threads_match (s : state) : Prop :=
  forall r, alive r (trace s) = registered s r.


(** A handler of the shutdown timer that finds the wait over and not
    canceled. *)
Definition fires (h : handler) : bool :=
  match h with
  | on_shutdown_timer error => negb (failed error)
  | _ => false
  end.

Fixpoint fired (hs : list handler) : nat :=
  match hs with
  | [] => 0
  | h :: hs' => (if fires h then 1 else 0) + fired hs'
  end.


End GroupBridgeNotions.

(** A small platform to run the group host on. A bridge records whether its
    plugin is opening its editor and how often its X11 events were handled;
    plugins whose path ends with [.broken.dll] do not initialize. Messages
    are numbers, message [0] being a timer message whose dispatch posts it
    again, and the cap on the messages of one round is 20. *)
Module SimPlatform.
Record bridge := { opening_editor : bool; x11_rounds : nat }.

Definition initializes (path : string) : bool :=
  negb (String.eqb (substr path (String.length path - 11)) ".broken.dll").

Definition new (path base_dir : string) : result construct_exception bridge :=
  if initializes path
  then Ok {| opening_editor := false; x11_rounds := 0 |}
  else Throw (runtime_error ("Could not load the Windows .dll file at '"
                             +:+ path +:+ "'")).

Definition peek (queue : list nat) : option (nat * list nat) :=
  match queue with
  | [] => None
  | msg :: queue' => Some (msg, queue')
  end.

Definition dispatch_message (msg : nat) (queue : list nat) : list nat :=
  match msg with
  | O => queue ++ [O]
  | S _ => queue
  end.

#[export] Instance platform : Platform bridge nat (list nat) :=
  {| Vst2Bridge_new := new;
     Vst2Bridge_handle_x11_events :=
       fun b => {| opening_editor := opening_editor b;
                   x11_rounds := S (x11_rounds b) |};
     Vst2Bridge_should_skip_message_loop := opening_editor;
     PeekMessage := peek;
     TranslateMessage := fun _ queue => queue;
     DispatchMessage := dispatch_message;
     max_win32_messages := 20;
     get_id := 4242 |}.

Definition client (path : string) : socket :=
  {| incoming := Ok {| plugin_path := path;
                       endpoint_base_dir := "/tmp/yabridge-" +:+ path |};
     send_error := None |}.

Definition request_of (path : string) : GroupRequest :=
  {| plugin_path := path; endpoint_base_dir := "/tmp/yabridge-" +:+ path |}.

(** A socket on which nothing can be read or written. *)
Definition closed_socket : socket :=
  {| incoming := Throw {| error_value := 9; error_what := "read: Bad file descriptor" |};
     send_error := Some {| error_value := 9; error_what := "write: Bad file descriptor" |} |}.

Abbreviation sim := (GroupBridge bridge nat (list nat)).

Definition synth : GroupRequest := request_of "synth.dll".

Definition fresh_bridge : bridge := {| opening_editor := false; x11_rounds := 0 |}.

(** The group host one second after boot, with two messages queued, the
    first of which keeps posting itself. *)
Definition booted : sim := started 1000000000 [0%nat; 7%nat].

(** ... and with one plugin hosted. *)
Definition hosting : sim :=
  run booted [connects success (client "synth.dll"); runs_handler].

(** ... whose editor is being opened. *)
Definition opening : sim :=
  run hosting [plugin_works synth {| opening_editor := true; x11_rounds := 0 |}].

(** A connection for a plugin that does not initialize is waiting to be
    handled. *)
Definition knocking : sim :=
  run booted [connects success (client "old.broken.dll")].
End SimPlatform.

(** ** What stays the same along the runs of the group host *)

Section GroupBridgeInvariants.
Context {Vst2Bridge MSG Queue : Type}.

(** The handlers of the events timer among [hs]. *)
Fixpoint rounds (hs : list handler) : nat :=
  match hs with
  | [] => 0
  | on_events_timer _ :: hs' => S (rounds hs')
  | _ :: hs' => rounds hs'
  end.

(** None of the handlers of the events timer among [hs] is the handler of
    a wait that was canceled. *)
Definition uncanceled (hs : list handler) : Prop :=
  forall error, In (on_events_timer error) hs -> failed error = false.

(** The handlers of [async_accept] among [hs]. *)
Fixpoint accepts (hs : list handler) : nat :=
  match hs with
  | [] => 0
  | on_accept _ _ :: hs' => S (accepts hs')
  | _ :: hs' => accepts hs'
  end.

(** The plugin bridges constructed in a trace. *)
Fixpoint constructed (t : list (effect MSG)) : nat :=
  match t with
  | [] => 0
  | construct _ _ :: t' => S (constructed t')
  | _ :: t' => constructed t'
  end.

(** The removals of [request] that were posted and are still to be
    handled. *)
Fixpoint removals (request : GroupRequest) (hs : list handler) : nat :=
  match hs with
  | [] => 0
  | erase_plugin r :: hs' =>
      (if decide (r = request) then 1 else 0) + removals request hs'
  | _ :: hs' => removals request hs'
  end.

(** Whether the plugin of [request] is registered and has exited, as a
    number. *)
Definition exited (s : GroupBridge Vst2Bridge MSG Queue)
    (request : GroupRequest) : nat :=
  match active_plugins s !! request with
  | Some (finished, _) => 1
  | _ => 0
  end.

(** The accepts that are outstanding, and those that are over with their
    handler still to be invoked. *)
Definition listening (s : GroupBridge Vst2Bridge MSG Queue) : nat :=
  (if accepting s then 1 else 0) + accepts (ready (plugin_context s)).

(** One activation of the event loop is to come, as a wait on the events
    timer or as a handler to invoke, and no handler of the events timer was
    or will be invoked for a canceled wait. *)
Definition event_loop_is_on (s : GroupBridge Vst2Bridge MSG Queue) : Prop :=
  (waiting (events_timer s) + rounds (ready (plugin_context s)) = 1)%nat
  /\ uncanceled (ready (plugin_context s))
  /\ uncanceled (handled s).
End GroupBridgeInvariants.

(** ** The rounds of the event loop in a run *)

Section EventLoopRounds.
Context {Vst2Bridge MSG Queue : Type} `{Platform Vst2Bridge MSG Queue}.

(** Whether a step of the group host is a round of the event loop: the
    handler that is invoked is the one of the events timer, for a wait that
    was not canceled, which ends with the call of [async_handle_events]. *)
Definition pumps (s : GroupBridge Vst2Bridge MSG Queue)
    (ev : @event Vst2Bridge) : bool :=
  negb (halted s)
  && match ev, ready (plugin_context s) with
     | runs_handler, on_events_timer error :: _ => negb (failed error)
     | _, _ => false
     end.

(** The rounds of the event loop in a run, oldest first: for each round the
    time that the clock reads when it calls [async_handle_events], and the
    expiry time that the events timer has when the round is over. *)
Fixpoint pumped (s : GroupBridge Vst2Bridge MSG Queue)
    (evs : list (@event Vst2Bridge)) : list (Z * Z) :=
  match evs with
  | [] => []
  | ev :: evs' =>
      (if pumps s ev then [(now s, expiry (events_timer (step s ev)))] else [])
      ++ pumped (step s ev) evs'
  end.
End EventLoopRounds.

(** The rounds of the event loop are in time when each call of
    [async_handle_events] is made while the deadline that is one interval
    after the last one is still the slack away. *)
Fixpoint timely (expiry : Z) (clock : list Z) : Prop :=
  match clock with
  | [] => True
  | now :: clock' =>
      now + event_loop_slack <= expiry + event_loop_interval
      /\ timely (expiry + event_loop_interval) clock'
  end.

(** ** The captured standard streams: [StdIoCapture] *)

(** What a file descriptor refers to: something the process was started
    with, such as its terminal, or an end of a pipe that it has made. *)
Inductive description :=
| inherited (n : nat)
| pipe_read_end (p : nat)
| pipe_write_end (p : nat).

(** The file descriptors of the process: the open ones with what they refer
    to, the number of pipes made so far, the limit on the descriptors of a
    process ([RLIMIT_NOFILE]), and [errno]. *)
Record descriptors := {
  open_files : gmap Z description;
  pipes_made : nat;
  descriptor_limit : nat;
  errno : Z
}.

(** The calls of [<unistd.h>] that the capture makes. *)
Module unistd.
Definition EBADF : Z := 9.
Definition EMFILE : Z := 24.

Definition set_open_files (f : gmap Z description -> gmap Z description)
    (w : descriptors) : descriptors :=
  {| open_files := f (open_files w); pipes_made := pipes_made w;
     descriptor_limit := descriptor_limit w; errno := errno w |}.

Definition set_errno (e : Z) (w : descriptors) : descriptors :=
  {| open_files := open_files w; pipes_made := pipes_made w;
     descriptor_limit := descriptor_limit w; errno := e |}.

Definition is_free (t : gmap Z description) (fd : Z) : bool :=
  match t !! fd with
  | None => true
  | Some _ => false
  end.

(** A new descriptor is the lowest one that is not open; there is none when
    all descriptors below the limit are open. *)
Definition lowest_free (t : gmap Z description) (limit : nat) : option Z :=
  List.find (is_free t) (List.map Z.of_nat (seq 0 limit)).

(** [dup(fd)]: the new descriptor, or [-1] *)
Definition dup (fd : Z) (w : descriptors) : descriptors * Z :=
  match open_files w !! fd with
  | None => (set_errno EBADF w, -1)
  | Some d =>
      match lowest_free (open_files w) (descriptor_limit w) with
      | None => (set_errno EMFILE w, -1)
      | Some fd' => (set_open_files (insert fd' d) w, fd')
      end
  end.

(** [pipe(pipe_fd)]: the read end and the write end of a new pipe; nothing
    when it returns [-1]. *)
Definition pipe (w : descriptors) : descriptors * option (Z * Z) :=
  let p := pipes_made w in
  match lowest_free (open_files w) (descriptor_limit w) with
  | None => (set_errno EMFILE w, None)
  | Some rd =>
      let t := <[rd := pipe_read_end p]> (open_files w) in
      match lowest_free t (descriptor_limit w) with
      | None => (set_errno EMFILE w, None)
      | Some wr =>
          ({| open_files := <[wr := pipe_write_end p]> t; pipes_made := S p;
              descriptor_limit := descriptor_limit w; errno := errno w |},
           Some (rd, wr))
      end
  end.

(** [dup2(oldfd, newfd)]: [newfd] is made to refer to what [oldfd] refers
    to, what it referred to being closed. *)
Definition dup2 (oldfd newfd : Z) (w : descriptors) : descriptors * Z :=
  match open_files w !! oldfd with
  | None => (set_errno EBADF w, -1)
  | Some d =>
      if (newfd <? 0) || (Z.of_nat (descriptor_limit w) <=? newfd)
      then (set_errno EBADF w, -1)
      else if oldfd =? newfd then (w, newfd)
      else (set_open_files (insert newfd d) w, newfd)
  end.

(** [close(fd)] *)
Definition close (fd : Z) (w : descriptors) : descriptors * Z :=
  match open_files w !! fd with
  | None => (set_errno EBADF w, -1)
  | Some _ => (set_open_files (delete fd) w, 0)
  end.
End unistd.

Definition STDOUT_FILENO : Z := 1.
Definition STDERR_FILENO : Z := 2.

(** [std::system_error(errno, std::system_category())] *)
Record std_system_error := { code : Z }.

(** The members of a [StdIoCapture]. The member [pipe] is the stream
    descriptor of asio, which holds the native descriptor assigned to it
    and closes it when it is destroyed. *)
Record StdIoCapture := {
  pipe : option Z;
  target_fd : Z;
  original_fd_copy : Z;
  pipe_fd : Z * Z
}.

(** [StdIoCapture::StdIoCapture(io_context, file_descriptor)] *)
Definition StdIoCapture_new (file_descriptor : Z) (w : descriptors)
    : descriptors * result std_system_error StdIoCapture :=
  let (w1, copy) := unistd.dup file_descriptor w in
  (* We'll use the second element of these two file descriptors to reopen
     [file_descriptor], and the first one to read the captured contents
     from *)
  match unistd.pipe w1 with
  | (w2, None) => (w2, Throw {| code := errno w2 |})
  | (w2, Some fds) =>
      (* We've already created a copy of the original file descriptor, so
         we can reopen it using the newly created pipe *)
      let (w3, _) := unistd.dup2 fds.2 file_descriptor w2 in
      let (w4, _) := unistd.close fds.2 w3 in
      (w4, Ok {| pipe := Some fds.1; target_fd := file_descriptor;
                 original_fd_copy := copy; pipe_fd := fds |})
  end.

(** [StdIoCapture::~StdIoCapture()], and the destruction of the member
    [pipe] that follows the body of the destructor. *)
Definition StdIoCapture_delete (c : StdIoCapture) (w : descriptors) : descriptors :=
  (* Restore the original file descriptor and close the pipe. The other
     end was already closed in the constructor. *)
  let (w1, _) := unistd.dup2 (original_fd_copy c) (target_fd c) w in
  let (w2, _) := unistd.close (original_fd_copy c) w1 in
  let (w3, _) := unistd.close (pipe_fd c).1 w2 in
  match pipe c with
  | Some fd => (unistd.close fd w3).1
  | None => w3
  end.

(** ** The relay of the captured output: [async_log_pipe_lines] *)

(** What a read on the pipe gives: the characters read, or an error. A read
    that gives no character is the end of the file, which the stream
    descriptor reports as the error [eof]. *)
Inductive read_result :=
| read_some (chunk : string)
| read_error (error : error_code).

(** [boost::asio::error::eof], the error of a read on a pipe of which the
    other end is closed *)
Definition eof : error_code := {| ec_value := 2; ec_message := "End of file" |}.

(** [std::getline(std::istream(&buffer), line)]: the line, and what is left
    in the buffer, from which the newline is taken with the line. *)
Fixpoint getline (buffer : string) : string * string :=
  match buffer with
  | EmptyString => (EmptyString, EmptyString)
  | String c rest =>
      if Ascii.eqb c newline then (EmptyString, rest)
      else let (line, rest') := getline rest in (String c line, rest')
  end.

(** [boost::asio::async_read_until(pipe, buffer, '\n', handler)], up to the
    invocation of the handler. The operation is over at once when the
    buffer holds a newline; otherwise it reads from the pipe into the
    buffer until it does, or until a read fails. The result is the error
    that the handler is invoked with, if it is invoked: when the pipe gives
    nothing more, the operation stays outstanding. *)
Fixpoint async_read_until (pipe : list read_result) (buffer : string)
    : option error_code * string * list read_result :=
  if contains newline buffer then (Some success, buffer, pipe)
  else
    match pipe with
    | [] => (None, buffer, [])
    | read_some chunk :: pipe' =>
        if String.eqb chunk "" then (Some eof, buffer, pipe')
        else async_read_until pipe' (buffer +:+ chunk)
    | read_error error :: pipe' => (Some error, buffer, pipe')
    end.

(** A relay as [async_log_pipe_lines] leaves it: the lines given to the
    logger, oldest first, the contents of the buffer, what the pipe has not
    given yet, and whether a read is outstanding. *)
Record relay := {
  logged : list string;
  buffer : string;
  unread : list read_result;
  reading : bool
}.

(** [GroupBridge::async_log_pipe_lines(pipe, buffer, prefix)] with the
    handler it passes, which calls it again. [fuel] bounds the number of
    these calls. *)
Fixpoint async_log_pipe_lines (fuel : nat) (pipe : list read_result)
    (buffer : string) (prefix : string) (logged : list string) : option relay :=
  match fuel with
  | O => None
  | S fuel' =>
      match async_read_until pipe buffer with
      | (None, buffer', pipe') =>
          Some {| logged := logged; buffer := buffer'; unread := pipe';
                  reading := true |}
      | (Some error, buffer', pipe') =>
          (* When we get an error code then that likely means that the pipe
             has been closed and we have reached the end of the file *)
          if failed error
          then Some {| logged := logged; buffer := buffer'; unread := pipe';
                       reading := false |}
          else
            let (line, rest) := getline buffer' in
            async_log_pipe_lines fuel' pipe' rest prefix
              (logged ++ [prefix +:+ line])
      end
  end.

(** ** The construction of the group host: [GroupBridge::GroupBridge] *)

(** What the constructor throws: the error of a capture, the error of the
    endpoint, or what [create_acceptor_if_inactive] throws. *)
Inductive construction_failure :=
| capture_failed (e : std_system_error)
| endpoint_failed (e : system_error)
| acceptor_failed (e : exception).

(** [stdio_context], the context of the relays: the reads that are
    outstanding on it, each with the descriptor it reads from and the
    prefix its handler logs with, and whether [stop()] was called. *)
Record stdio_io_context := {
  outstanding : list (option Z * string);
  stdio_stopped : bool
}.

(** The members of a [GroupBridge] that its constructor names, and the two
    buffers of the relays. [stdio_handler] is whether the thread that runs
    [stdio_context] was started. *)
Module Members.
Record t (Logger : Type) := {
  logger : Logger;
  plugin_context : io_context;
  stdio_context : stdio_io_context;
  stdout_buffer : string;
  stderr_buffer : string;
  stdout_redirect : StdIoCapture;
  stderr_redirect : StdIoCapture;
  stdio_handler : bool;
  group_socket_endpoint : string;
  group_socket_acceptor : acceptor;
  events_timer : steady_timer;
  shutdown_timer : steady_timer
}.
Arguments logger {Logger} _.
Arguments plugin_context {Logger} _.
Arguments stdio_context {Logger} _.
Arguments stdout_buffer {Logger} _.
Arguments stderr_buffer {Logger} _.
Arguments stdout_redirect {Logger} _.
Arguments stderr_redirect {Logger} _.
Arguments stdio_handler {Logger} _.
Arguments group_socket_endpoint {Logger} _.
Arguments group_socket_acceptor {Logger} _.
Arguments events_timer {Logger} _.
Arguments shutdown_timer {Logger} _.
End Members.

Section GroupBridgeConstruction.
Context {World : Type} `{LocalSockets World} {Logger : Type}.

(** [Logger::create_from_environment], and the constructor of
    [boost::asio::local::stream_protocol::endpoint], which throws for a
    path that it cannot hold. *)
Variable Logger_create_from_environment : string -> Logger.
Variable endpoint_new : string -> result system_error string.

(** [GroupBridge::async_log_pipe_lines(pipe, buffer, prefix)] as the
    constructor calls it, before the context of the relays runs: the read
    on the pipe is started and stays outstanding. *)
Definition async_log_pipe_lines_started (pipe : option Z) (prefix : string)
    (context : stdio_io_context) : stdio_io_context :=
  {| outstanding := outstanding context ++ [(pipe, prefix)];
     stdio_stopped := stdio_stopped context |}.

(** [GroupBridge::GroupBridge(group_socket_path)]: the initializers in the
    order in which the constructor lists them, then its body. Members are
    initialized in the order in which the class declares them; the class is
    declared in group.h, and the order of the list is taken for it. When an
    initializer throws, the members that were initialized are destroyed,
    the last one first; of these the captures act on the descriptors of
    the process. *)
Definition GroupBridge_constructor (i386 : bool) (group_socket_path : string)
    (fds : descriptors) (h : host)
    : descriptors * host * result construction_failure (Members.t Logger) :=
  let logger :=
    Logger_create_from_environment
      (create_logger_prefix i386 group_socket_path) in
  let plugin_context := {| ready := []; stopped := false |} in
  let stdio_context := {| outstanding := []; stdio_stopped := false |} in
  match StdIoCapture_new STDOUT_FILENO fds with
  | (fds1, Throw e) => (fds1, h, Throw (capture_failed e))
  | (fds1, Ok stdout_redirect) =>
      match StdIoCapture_new STDERR_FILENO fds1 with
      | (fds2, Throw e) =>
          (StdIoCapture_delete stdout_redirect fds2, h, Throw (capture_failed e))
      | (fds2, Ok stderr_redirect) =>
          match endpoint_new group_socket_path with
          | Throw e =>
              (StdIoCapture_delete stdout_redirect
                 (StdIoCapture_delete stderr_redirect fds2),
               h, Throw (endpoint_failed e))
          | Ok group_socket_endpoint =>
              match create_acceptor_if_inactive group_socket_endpoint h with
              | (h1, Throw e) =>
                  (StdIoCapture_delete stdout_redirect
                     (StdIoCapture_delete stderr_redirect fds2),
                   h1, Throw (acceptor_failed e))
              | (h1, Ok group_socket_acceptor) =>
                  let events_timer := {| expiry := 0; waiting := 0 |} in
                  let shutdown_timer := {| expiry := 0; waiting := 0 |} in
                  (* Write this process's original STDOUT and STDERR streams
                     to the logger *)
                  let stdio_context :=
                    async_log_pipe_lines_started (pipe stdout_redirect)
                      "[STDOUT] " stdio_context in
                  let stdio_context :=
                    async_log_pipe_lines_started (pipe stderr_redirect)
                      "[STDERR] " stdio_context in
                  let stdio_handler := true in
                  (fds2, h1,
                   Ok {| Members.logger := logger;
                         Members.plugin_context := plugin_context;
                         Members.stdio_context := stdio_context;
                         Members.stdout_buffer := "";
                         Members.stderr_buffer := "";
                         Members.stdout_redirect := stdout_redirect;
                         Members.stderr_redirect := stderr_redirect;
                         Members.stdio_handler := stdio_handler;
                         Members.group_socket_endpoint := group_socket_endpoint;
                         Members.group_socket_acceptor := group_socket_acceptor;
                         Members.events_timer := events_timer;
                         Members.shutdown_timer := shutdown_timer |})
              end
          end
      end
  end.

(** [GroupBridge::~GroupBridge()]: the body stops the context of the
    relays, and the members are destroyed after it, the last one first, of
    which the captures act on the descriptors of the process. The result is
    that context and those descriptors. *)
Definition GroupBridge_destructor (members : Members.t Logger)
    (fds : descriptors) : stdio_io_context * descriptors :=
  ({| outstanding := outstanding (Members.stdio_context members);
      stdio_stopped := true |},
   StdIoCapture_delete (Members.stdout_redirect members)
     (StdIoCapture_delete (Members.stderr_redirect members) fds)).
End GroupBridgeConstruction.

(** *** The lines of a stream of characters *)

(** The lines of [s] that a newline ends, and what follows the last
    newline. *)
Fixpoint split_lines (s : string) : list string * string :=
  match s with
  | EmptyString => ([], EmptyString)
  | String c rest =>
      let (lines, tail) := split_lines rest in
      if Ascii.eqb c newline then (EmptyString :: lines, tail)
      else match lines with
           | [] => ([], String c tail)
           | line :: lines' => (String c line :: lines', tail)
           end
  end.

Definition complete_lines (s : string) : list string := (split_lines s).1.

Definition unfinished_line (s : string) : string := (split_lines s).2.

(** The characters of the chunks, one after the other. *)
Fixpoint joined (chunks : list string) : string :=
  match chunks with
  | [] => EmptyString
  | chunk :: chunks' => chunk +:+ joined chunks'
  end.

(** The calls of [async_log_pipe_lines] that suffice for a pipe and a
    buffer: one more than their characters and the reads to come. *)
Fixpoint pending_characters (pipe : list read_result) : nat :=
  match pipe with
  | [] => 0
  | read_some chunk :: pipe' => String.length chunk + pending_characters pipe'
  | read_error _ :: pipe' => pending_characters pipe'
  end.

Definition enough_calls (pipe : list read_result) (buffer : string) : nat :=
  S (String.length buffer + pending_characters pipe + length pipe).

(** What a plugin writes to its standard output, as the reads on the pipe
    give it: two lines and the start of a third, cut in the middle of the
    first line. *)
Definition written : list string :=
  ["Loading plug";
   "in" +:+ String newline "ready" +:+ String newline "wai"].

(** A process with the standard streams on a terminal, and room for 1024
    descriptors. *)
Definition on_a_terminal : descriptors :=
  {| open_files := <[0 := inherited 0]> (<[1 := inherited 0]> (<[2 := inherited 0]> ∅));
     pipes_made := 0; descriptor_limit := 1024; errno := 0 |}.

(** The same process when it may have four descriptors only. *)
Definition short_of_descriptors : descriptors :=
  {| open_files := open_files on_a_terminal; pipes_made := 0;
     descriptor_limit := 4; errno := 0 |}.

(** A process that was started with its standard streams closed. *)
Definition detached : descriptors :=
  {| open_files := ∅; pipes_made := 0; descriptor_limit := 1024; errno := 0 |}.

(** An endpoint holds a path of at most 107 characters, which with the
    zero that ends it fill the 108 of [sun_path]. *)
Definition sun_path_endpoint (path : string) : result system_error string :=
  if (107 <? String.length path)%nat
  then Throw {| error_value := 36; error_what := "File name too long" |}
  else Ok path.

(** The group host that is constructed first for the group of
    [SimHost.group_socket], in a process on a terminal, with a logger that
    is its prefix. *)
Definition first_group_host : Members.t string :=
  {| Members.logger := "[synths] ";
     Members.plugin_context := {| ready := []; stopped := false |};
     Members.stdio_context :=
       {| outstanding := [(Some 4, "[STDOUT] "); (Some 6, "[STDERR] ")];
          stdio_stopped := false |};
     Members.stdout_buffer := "";
     Members.stderr_buffer := "";
     Members.stdout_redirect :=
       {| pipe := Some 4; target_fd := STDOUT_FILENO;
          original_fd_copy := 3; pipe_fd := (4, 5) |};
     Members.stderr_redirect :=
       {| pipe := Some 6; target_fd := STDERR_FILENO;
          original_fd_copy := 5; pipe_fd := (6, 7) |};
     Members.stdio_handler := true;
     Members.group_socket_endpoint := SimHost.group_socket;
     Members.group_socket_acceptor :=
       {| local_endpoint := SimHost.group_socket |};
     Members.events_timer := {| expiry := 0; waiting := 0 |};
     Members.shutdown_timer := {| expiry := 0; waiting := 0 |} |}.

(** * Part II: the properties *)

Section StringFacts.
Lemma substring_all (s : string) : String.substring 0 (String.length s) s = s.
Proof. induction s as [|c s IH]; simpl; [reflexivity | now rewrite IH]. Qed.

Lemma substring_skip (pre s : string) (n : nat) :
  String.substring (String.length pre) n (pre +:+ s) = String.substring 0 n s.
Proof.
  induction pre as [|c pre IH]; simpl; [reflexivity | exact IH].
Qed.

Lemma string_length_app (a b : string) :
  String.length (a +:+ b) = (String.length a + String.length b)%nat.
Proof. induction a as [|c a IH]; simpl; [reflexivity | now rewrite IH]. Qed.

Lemma string_app_cons (c : ascii) (a b : string) :
  String c a +:+ b = String c (a +:+ b).
Proof. reflexivity. Qed.

Lemma string_app_assoc (a b c : string) : (a +:+ b) +:+ c = a +:+ b +:+ c.
Proof.
  induction a as [|x a IH]; [reflexivity|].
  rewrite !string_app_cons. now rewrite IH.
Qed.

(** Every string splits at every position up to its length. *)
Lemma string_split_at (s : string) (n : nat) :
  (n <= String.length s)%nat ->
  exists pre, String.length pre = n /\
              s = pre +:+ String.substring n (String.length s - n) s.
Proof.
  revert n. induction s as [|c s IH]; intros n Hn; simpl in *.
  - assert (n = 0%nat) by lia. subst. exists EmptyString. now simpl.
  - destruct n as [|n].
    + exists EmptyString. simpl. split; [reflexivity|].
      now rewrite substring_all.
    + destruct (IH n) as [pre [Hl He]]; [lia|].
      exists (String c pre). simpl. split; [now rewrite Hl|].
      rewrite He at 1. reflexivity.
Qed.

(** The test of the scan on one line: the line is long enough and its
    tail is the path, which is to say that the line ends with the path. *)
Lemma substr_tail_iff (line p : string) :
  (String.length p <= String.length line)%nat /\ substr line (String.length line - String.length p) = p
  <-> exists pre, line = pre +:+ p.
Proof.
  unfold substr. split.
  - intros [Hlen Heq].
    destruct (string_split_at line (String.length line - String.length p))
      as [pre [_ He]]; [lia|].
    exists pre. rewrite Heq in He. exact He.
  - intros [pre ->]. rewrite string_length_app. split; [lia|].
    replace (String.length pre + String.length p - String.length p)%nat
      with (String.length pre) by lia.
    rewrite substring_skip.
    replace (String.length pre + String.length p - String.length pre)%nat
      with (String.length p) by lia.
    apply substring_all.
Qed.
End StringFacts.

(** ** The endpoint acceptor *)

Section EndpointAcceptorFacts.
Context {World : Type} `{LocalSockets World}.

(** The scan throws exactly when some line ends with the path. *)
Lemma another_process_listening_true (p : string) (lines : list string) :
  another_process_listening p lines = true
  <-> exists line, In line lines /\ (String.length p <= String.length line)%nat
                   /\ substr line (String.length line - String.length p) = p.
Proof.
  induction lines as [|l ls IH]; simpl.
  - split; [discriminate | intros (? & [] & _)].
  - destruct (Nat.ltb_spec (String.length l) (String.length p)) as [Hlt|Hge].
    + rewrite IH. split.
      * intros (x & Hin & Hx). exists x. auto.
      * intros (x & [->|Hin] & Hlen & Hx); [lia | exists x; auto].
    + destruct (String.eqb_spec (substr l (String.length l - String.length p)) p) as [He|Hne].
      * split; [|reflexivity]. intros _. exists l. auto.
      * rewrite IH. split.
        -- intros (x & Hin & Hx). exists x. auto.
        -- intros (x & [->|Hin] & Hlen & Hx); [congruence | exists x; auto].
Qed.

Lemma another_process_listening_suffix (p : string) (lines : list string) :
  another_process_listening p lines = true
  <-> exists line pre, In line lines /\ line = pre +:+ p.
Proof.
  rewrite another_process_listening_true. split.
  - intros (l & Hin & Hl). apply substr_tail_iff in Hl as [pre Hpre]. eauto.
  - intros (l & pre & Hin & Hl). exists l. split; [exact Hin|].
    apply substr_tail_iff. eauto.
Qed.

Lemma create_acceptor_bound (endpoint : string) (w w1 : World)
    (log : list syscall) (a : acceptor) :
  acceptor_new endpoint w = (w1, Ok a) ->
  create_acceptor_if_inactive endpoint (w, log)
  = ((w1, log ++ [sys_acceptor_new endpoint]), Ok a).
Proof.
  intros Hb. unfold create_acceptor_if_inactive, call_acceptor_new. simpl.
  now rewrite Hb.
Qed.

Lemma create_acceptor_live (endpoint : string) (w w1 : World)
    (log : list syscall) (error : system_error) :
  acceptor_new endpoint w = (w1, Throw error) ->
  another_process_listening endpoint (getlines (proc_net_unix w1)) = true ->
  create_acceptor_if_inactive endpoint (w, log)
  = ((w1, log ++ [sys_acceptor_new endpoint; sys_read_open_sockets]),
     Throw (exn_system error)).
Proof.
  intros Hb Hp.
  unfold create_acceptor_if_inactive, call_acceptor_new,
    call_read_open_sockets. simpl.
  rewrite Hb. simpl. rewrite Hp. now rewrite <- app_assoc.
Qed.

Lemma create_acceptor_stale (endpoint : string) (w w1 w2 w3 : World)
    (log : list syscall) (error : system_error) (removed : bool)
    (r : result system_error acceptor) :
  acceptor_new endpoint w = (w1, Throw error) ->
  another_process_listening endpoint (getlines (proc_net_unix w1)) = false ->
  fs_remove endpoint w1 = (w2, Ok removed) ->
  acceptor_new endpoint w2 = (w3, r) ->
  create_acceptor_if_inactive endpoint (w, log)
  = ((w3, log ++ [sys_acceptor_new endpoint; sys_read_open_sockets;
                  sys_remove endpoint; sys_acceptor_new endpoint]),
     match r with Ok a => Ok a | Throw e => Throw (exn_system e) end).
Proof.
  intros Hb Hp Hr Hb2.
  unfold create_acceptor_if_inactive, call_acceptor_new,
    call_read_open_sockets, call_remove. simpl.
  rewrite Hb. simpl. rewrite Hp, Hr. simpl. rewrite Hb2.
  rewrite <- !app_assoc. simpl. now destruct r.
Qed.

Lemma create_acceptor_unremovable (endpoint : string) (w w1 w2 : World)
    (log : list syscall) (error : system_error) (e : filesystem_error) :
  acceptor_new endpoint w = (w1, Throw error) ->
  another_process_listening endpoint (getlines (proc_net_unix w1)) = false ->
  fs_remove endpoint w1 = (w2, Throw e) ->
  create_acceptor_if_inactive endpoint (w, log)
  = ((w2, log ++ [sys_acceptor_new endpoint; sys_read_open_sockets;
                  sys_remove endpoint]),
     Throw (exn_filesystem e)).
Proof.
  intros Hb Hp Hr.
  unfold create_acceptor_if_inactive, call_acceptor_new,
    call_read_open_sockets, call_remove. simpl.
  rewrite Hb. simpl. rewrite Hp, Hr. now rewrite <- !app_assoc.
Qed.
End EndpointAcceptorFacts.

Section EndpointAcceptorClaims.
Context {World : Type} `{LocalSockets World}.

(** C1, as amended. [create_acceptor_if_inactive] has four outcomes. When
    the direct bind succeeds its acceptor is returned after that single
    call. When it fails and some line of the list of open sockets ends with
    the requested path, be it the line of that socket or of one whose path
    is longer, the failure of the bind is thrown again as it was, and the
    host is as the failed bind left it: nothing was removed and nothing
    bound. Otherwise [fs::remove] is called on the endpoint file. When it
    throws, its exception is the result, and no second bind is made. When
    it returns, whether or not there was a file to remove, the bind is made
    exactly once more, and what that second bind returns or throws is the
    result. *)
Theorem create_acceptor_if_inactive_spec (endpoint : string) (w : World)
    (log : list syscall) :
  (forall w1 a,
      acceptor_new endpoint w = (w1, Ok a) ->
      create_acceptor_if_inactive endpoint (w, log)
      = ((w1, log ++ [sys_acceptor_new endpoint]), Ok a))
  /\ (forall w1 error,
      acceptor_new endpoint w = (w1, Throw error) ->
      (exists line pre,
          In line (getlines (proc_net_unix w1)) /\ line = pre +:+ endpoint) ->
      create_acceptor_if_inactive endpoint (w, log)
      = ((w1, log ++ [sys_acceptor_new endpoint; sys_read_open_sockets]),
         Throw (exn_system error)))
  /\ (forall w1 error w2 removed w3 r,
      acceptor_new endpoint w = (w1, Throw error) ->
      ~ (exists line pre,
          In line (getlines (proc_net_unix w1)) /\ line = pre +:+ endpoint) ->
      fs_remove endpoint w1 = (w2, Ok removed) ->
      acceptor_new endpoint w2 = (w3, r) ->
      create_acceptor_if_inactive endpoint (w, log)
      = ((w3, log ++ [sys_acceptor_new endpoint; sys_read_open_sockets;
                      sys_remove endpoint; sys_acceptor_new endpoint]),
         match r with Ok a => Ok a | Throw e => Throw (exn_system e) end))
  /\ (forall w1 error w2 e,
      acceptor_new endpoint w = (w1, Throw error) ->
      ~ (exists line pre,
          In line (getlines (proc_net_unix w1)) /\ line = pre +:+ endpoint) ->
      fs_remove endpoint w1 = (w2, Throw e) ->
      create_acceptor_if_inactive endpoint (w, log)
      = ((w2, log ++ [sys_acceptor_new endpoint; sys_read_open_sockets;
                      sys_remove endpoint]),
         Throw (exn_filesystem e))).
Proof.
  assert (Hnone : forall w1,
            ~ (exists line pre,
                  In line (getlines (proc_net_unix w1))
                  /\ line = pre +:+ endpoint) ->
            another_process_listening endpoint (getlines (proc_net_unix w1))
            = false).
  { intros w1 Hl.
    destruct (another_process_listening endpoint
                (getlines (proc_net_unix w1))) eqn:Hp; [|reflexivity].
    exfalso. apply Hl. now apply another_process_listening_suffix. }
  split; [|split; [|split]].
  - intros w1 a Hb. now apply create_acceptor_bound.
  - intros w1 error Hb Hl. apply create_acceptor_live; [exact Hb|].
    now apply another_process_listening_suffix.
  - intros w1 error w2 removed w3 r Hb Hl Hr Hb2.
    apply create_acceptor_stale with (w1 := w1) (w2 := w2) (error := error)
      (removed := removed); try assumption.
    now apply Hnone.
  - intros w1 error w2 e Hb Hl Hr.
    apply create_acceptor_unremovable with (w1 := w1) (error := error);
      try assumption.
    now apply Hnone.
Qed.

End EndpointAcceptorClaims.

Module EndpointExamples.
Import SimHost.

Lemma create_acceptor_if_inactive_spec_witness :
  create_acceptor_if_inactive group_socket (fresh, [])
  = (({| files := [group_socket]; listening := [group_socket];
         read_only := [] |}, [sys_acceptor_new group_socket]),
     Ok {| local_endpoint := group_socket |})
  /\ create_acceptor_if_inactive group_socket (live, [])
     = ((live, [sys_acceptor_new group_socket; sys_read_open_sockets]),
        Throw (exn_system in_use))
  /\ create_acceptor_if_inactive group_socket (stale, [])
     = (({| files := [group_socket]; listening := [group_socket];
            read_only := [] |},
         [sys_acceptor_new group_socket; sys_read_open_sockets;
          sys_remove group_socket; sys_acceptor_new group_socket]),
        Ok {| local_endpoint := group_socket |})
  /\ create_acceptor_if_inactive group_socket (locked, [])
     = ((locked, [sys_acceptor_new group_socket; sys_read_open_sockets;
                  sys_remove group_socket]),
        Throw (exn_filesystem not_removed)).
Proof.
  split; [|split; [|split]].
  - apply (proj1 (create_acceptor_if_inactive_spec group_socket fresh [])).
    reflexivity.
  - apply (proj1 (proj2 (create_acceptor_if_inactive_spec group_socket live []))).
    + reflexivity.
    + exists (entry group_socket),
        "0000000000000000: 00000002 00000000 00010000 0001 01 25417 ".
      split; [vm_compute; auto | reflexivity].
  - apply (proj1 (proj2 (proj2 (create_acceptor_if_inactive_spec
                                  group_socket stale [])))
             stale in_use
             {| files := []; listening := []; read_only := [] |} true
             {| files := [group_socket]; listening := [group_socket];
                read_only := [] |}
             (Ok {| local_endpoint := group_socket |})).
    + reflexivity.
    + intros Hl. apply another_process_listening_suffix in Hl.
      vm_compute in Hl. discriminate.
    + reflexivity.
    + reflexivity.
  - apply (proj2 (proj2 (proj2 (create_acceptor_if_inactive_spec
                                  group_socket locked [])))
             locked denied locked not_removed).
    + reflexivity.
    + intros Hl. apply another_process_listening_suffix in Hl.
      vm_compute in Hl. discriminate.
    + reflexivity.
Defined.

(** C1, as the claim has it, fails on two hosts. On the first the file of
    the socket is left from a group host that is gone and cannot be
    removed: no process listens on the socket and the path is not in the
    list, yet the file is not removed and the bind is not made again; what
    [fs::remove] throws is the result. On the second no process listens on
    the socket either and its file is stale, but another socket is open
    whose path ends with the path of the group's: the failure of the bind
    is thrown again and the stale file stays. *)
Lemma stale_socket_is_not_always_reclaimed :
  (acceptor_new group_socket locked = (locked, Throw denied)
   /\ ~ In group_socket (listening locked)
   /\ create_acceptor_if_inactive group_socket (locked, [])
      = ((locked, [sys_acceptor_new group_socket; sys_read_open_sockets;
                   sys_remove group_socket]),
         Throw (exn_filesystem not_removed))
   /\ exists_file group_socket locked = true)
  /\ (acceptor_new group_socket shadowed = (shadowed, Throw in_use)
      /\ ~ In group_socket (listening shadowed)
      /\ create_acceptor_if_inactive group_socket (shadowed, [])
         = ((shadowed, [sys_acceptor_new group_socket; sys_read_open_sockets]),
            Throw (exn_system in_use))
      /\ exists_file group_socket shadowed = true).
Proof.
  split.
  - split; [reflexivity|]. split; [intros []|]. split; reflexivity.
  - split; [reflexivity|]. split.
    + intros [Heq|[]]. apply (f_equal String.length) in Heq.
      vm_compute in Heq. discriminate.
    + split; reflexivity.
Qed.

End EndpointExamples.

(** ** The deadline of the event loop *)

Section EventLoopDeadline.
Lemma wrap64_id (z : Z) : rep_min <= z <= rep_max -> wrap64 z = z.
Proof.
  unfold wrap64, rep_min, rep_max. intros Hz.
  rewrite Z.mod_small; lia.
Qed.

Lemma time_plus_exact (t d : Z) :
  rep_min <= t -> 0 <= d -> t + d <= rep_max -> time_plus t d = t + d.
Proof. intros. unfold time_plus. apply wrap64_id. lia. Qed.


Lemma event_loop_interval_value : event_loop_interval = 33000000.
Proof. reflexivity. Qed.

Lemma event_loop_slack_value : event_loop_slack = 5000000.
Proof. reflexivity. Qed.

Lemma next_events_deadline_exact (expiry now : Z) :
  rep_min <= expiry -> expiry + event_loop_interval <= rep_max ->
  rep_min <= now -> now + event_loop_slack <= rep_max ->
  next_events_deadline expiry now
  = Z.max (expiry + event_loop_interval) (now + event_loop_slack).
Proof.
  intros. unfold next_events_deadline.
  rewrite !time_plus_exact; try assumption;
    rewrite ?event_loop_interval_value, ?event_loop_slack_value; lia.
Qed.

Lemma deadlines_step (expiry : Z) (clock : list Z) (i : nat) (a b : Z) :
  representable expiry clock ->
  (expiry :: deadlines expiry clock) !! i = Some a ->
  (expiry :: deadlines expiry clock) !! S i = Some b ->
  a + event_loop_interval <= b.
Proof.
  revert expiry i. induction clock as [|now clock IH]; intros expiry i Hr Ha Hb.
  - destruct i; discriminate.
  - simpl in Hr. destruct Hr as (H1 & H2 & H3 & H4 & Hr).
    destruct i as [|i].
    + simpl in Ha, Hb. injection Ha as <-. injection Hb as <-.
      rewrite next_events_deadline_exact by assumption. lia.
    + apply (IH (next_events_deadline expiry now) i Hr); assumption.
Qed.

(** Each deadline is the larger of the one before plus the interval and
    the time of its call plus the slack. *)
Lemma deadlines_lookup (expiry : Z) (clock : list Z) (i : nat) (t d : Z) :
  representable expiry clock ->
  clock !! i = Some t ->
  deadlines expiry clock !! i = Some d ->
  exists before,
    (expiry :: deadlines expiry clock) !! i = Some before
    /\ d = Z.max (before + event_loop_interval) (t + event_loop_slack).
Proof.
  revert expiry i. induction clock as [|now clock IH]; intros expiry i Hr Ht Hd.
  - destruct i; discriminate.
  - simpl in Hr. destruct Hr as (H1 & H2 & H3 & H4 & Hr).
    destruct i as [|i].
    + simpl in Ht, Hd. injection Ht as <-. injection Hd as <-.
      exists expiry. split; [reflexivity|].
      now apply next_events_deadline_exact.
    + exact (IH (next_events_deadline expiry now) i Hr Ht Hd).
Qed.
End EventLoopDeadline.

(** ** The logger prefix *)

Section LoggerPrefixFacts.
Lemma list_ascii_app (a b : string) :
  list_ascii_of_string (a +:+ b)
  = list_ascii_of_string a ++ list_ascii_of_string b.
Proof.
  induction a as [|c a IH]; [reflexivity|].
  rewrite string_app_cons. simpl. now rewrite IH.
Qed.

Lemma contains_false (c : ascii) (s : string) :
  contains c s = false
  <-> Forall (fun d => Ascii.eqb d c = false) (list_ascii_of_string s).
Proof.
  induction s as [|d s IH]; simpl.
  - split; [constructor | reflexivity].
  - rewrite orb_false_iff, IH. split.
    + intros [? ?]. now constructor.
    + intros Hf. inversion Hf; subst. tauto.
Qed.

Lemma strip_prefix_app (lit rest : list ascii) :
  strip_prefix lit (lit ++ rest) = Some rest.
Proof.
  induction lit as [|c lit IH]; simpl; [reflexivity|].
  now rewrite Ascii.eqb_refl.
Qed.

Lemma strip_prefix_some (lit after rest : list ascii) :
  strip_prefix lit after = Some rest -> after = lit ++ rest.
Proof.
  revert after. induction lit as [|c lit IH]; intros after; simpl.
  - now intros [= ->].
  - destruct after as [|d after]; [discriminate|].
    destruct (Ascii.eqb_spec c d) as [->|]; [|discriminate].
    intros Hs. apply IH in Hs. now subst.
Qed.

(** What [greedy] returns comes from a repetition it tried. *)
Lemma greedy_sound {R : Type} (cl : char_class) (pos : nat)
    (after : list ascii) (k : nat -> list ascii -> option R) (r : R) :
  greedy cl pos after k = Some r ->
  exists pre rest,
    after = pre ++ rest
    /\ Forall (fun c => class_matches cl c = true) pre
    /\ k (pos + length pre)%nat rest = Some r.
Proof.
  revert pos. induction after as [|c after IH]; intros pos; simpl.
  - intros Hk. exists [], []. rewrite Nat.add_0_r. auto.
  - destruct (class_matches cl c) eqn:Hc.
    + destruct (greedy cl (S pos) after k) as [r'|] eqn:Hg.
      * intros [= ->]. destruct (IH _ Hg) as (pre & rest & -> & Hf & Hk).
        exists (c :: pre), rest. simpl. split; [reflexivity|].
        split; [now constructor|].
        now replace (pos + S (length pre))%nat with (S pos + length pre)%nat by lia.
      * intros Hk. exists [], (c :: after). rewrite Nat.add_0_r. auto.
    + intros Hk. exists [], (c :: after). rewrite Nat.add_0_r. auto.
Qed.

(** [greedy] finds a match whenever some repetition leads to one. *)
Lemma greedy_complete {R : Type} (cl : char_class) (pos : nat)
    (pre rest : list ascii) (k : nat -> list ascii -> option R) :
  Forall (fun c => class_matches cl c = true) pre ->
  is_Some (k (pos + length pre)%nat rest) ->
  is_Some (greedy cl pos (pre ++ rest) k).
Proof.
  revert pos. induction pre as [|c pre IH]; intros pos Hf Hk; simpl in *.
  - rewrite Nat.add_0_r in Hk. destruct rest as [|d rest]; simpl.
    + exact Hk.
    + destruct (class_matches cl d); [|exact Hk].
      destruct (greedy cl (S pos) rest k); [eauto | exact Hk].
  - inversion Hf as [|? ? Hc Hf']; subst. rewrite Hc.
    destruct (IH (S pos) Hf') as [r' Hr'].
    + now replace (S pos + length pre)%nat with (pos + S (length pre))%nat by lia.
    + rewrite Hr'. eauto.
Qed.

(** A list splits in one way only around the last occurrence of [c]. *)
Lemma split_last_unique (c : ascii) (l1 l2 r1 r2 : list ascii) :
  l1 ++ c :: r1 = l2 ++ c :: r2 ->
  Forall (fun d => Ascii.eqb d c = false) r1 ->
  Forall (fun d => Ascii.eqb d c = false) r2 ->
  l1 = l2 /\ r1 = r2.
Proof.
  revert l2. induction l1 as [|a l1 IH]; intros l2 He H1 H2.
  - destruct l2 as [|b l2]; simpl in He.
    + now injection He as ->.
    + injection He as <- He. exfalso. subst r1.
      apply Forall_app in H1 as [_ H1]. inversion H1 as [|? ? Hc _]; subst.
      now rewrite Ascii.eqb_refl in Hc.
  - destruct l2 as [|b l2]; simpl in He.
    + injection He as -> He. exfalso. subst r2.
      apply Forall_app in H2 as [_ H2]. inversion H2 as [|? ? Hc _]; subst.
      now rewrite Ascii.eqb_refl in Hc.
    + injection He as -> He. destruct (IH l2 He H1 H2) as [-> ->]. auto.
Qed.

Lemma none_of_dash (l : list ascii) :
  Forall (fun c => class_matches (none_of dash) c = true) l <-> dash_free l.
Proof.
  unfold dash_free. split; intros Hf; eapply Forall_impl; try exact Hf;
    simpl; intros c Hc; now destruct (Ascii.eqb c dash).
Qed.

Lemma group_socket_name_unique (name g id arch g' id' arch' : list ascii) :
  group_socket_name name g id arch ->
  group_socket_name name g' id' arch' ->
  g = g'.
Proof.
  intros (-> & _ & _ & Hi & _ & Ha) (He & _ & _ & Hi' & _ & Ha').
  apply app_inv_head in He.
  change (g ++ dash :: id ++ dash :: arch)
    with (g ++ (dash :: id) ++ dash :: arch) in He.
  change (g' ++ dash :: id' ++ dash :: arch')
    with (g' ++ (dash :: id') ++ dash :: arch') in He.
  rewrite !app_assoc in He.
  apply split_last_unique in He as [He _]; [|assumption..].
  apply split_last_unique in He as [He _]; [|assumption..].
  exact He.
Qed.

Lemma regex_match_group_sound (s : string) (captures : list (list ascii)) :
  regex_match s group_regexp = Some captures ->
  exists g id arch,
    captures = [g] /\ group_socket_name (list_ascii_of_string s) g id arch.
Proof.
  unfold regex_match, group_regexp. cbn [rmatch].
  destruct (strip_prefix _ (list_ascii_of_string s)) as [after|] eqn:Hp;
    [|discriminate].
  apply strip_prefix_some in Hp. intros Hg.
  apply greedy_sound in Hg as (g & rest & -> & Hg & Hk).
  cbn [strip_prefix] in Hk.
  destruct rest as [|d rest]; [discriminate|].
  destruct (Ascii.eqb_spec dash d) as [<-|]; [|discriminate].
  destruct rest as [|i rest]; [discriminate|].
  destruct (class_matches (none_of dash) i) eqn:Hi; [|discriminate].
  apply greedy_sound in Hk as (id & rest' & -> & Hid & Hk).
  destruct rest' as [|d rest']; [discriminate|]. cbn [strip_prefix] in Hk.
  destruct (Ascii.eqb_spec dash d) as [<-|]; [|discriminate].
  destruct rest' as [|a rest']; [discriminate|].
  destruct (class_matches (none_of dash) a) eqn:Ha; [|discriminate].
  apply greedy_sound in Hk as (arch & rest'' & -> & Harch & Hk).
  destruct rest'' as [|? ?]; [|discriminate]. injection Hk as <-.
  exists g, (i :: id), (a :: arch ++ []). split.
  - f_equal. rewrite Nat.sub_0_r, firstn_app, Nat.sub_diag, firstn_all.
    apply app_nil_r.
  - unfold group_socket_name. rewrite Hp. fold group_prefix.
    split; [reflexivity|]. split; [exact Hg|].
    split; [discriminate|]. split.
    { apply none_of_dash. now constructor. }
    split; [discriminate|]. apply none_of_dash. rewrite app_nil_r.
    now constructor.
Qed.

Lemma regex_match_group_complete (s : string) (g id arch : list ascii) :
  group_socket_name (list_ascii_of_string s) g id arch ->
  is_Some (regex_match s group_regexp).
Proof.
  intros (Hs & Hg & Hi & Hid & Ha & Harch).
  destruct id as [|i id]; [congruence|]. destruct arch as [|a arch]; [congruence|].
  apply none_of_dash in Hid, Harch.
  inversion Hid as [|? ? Hi1 Hid']; subst.
  inversion Harch as [|? ? Ha1 Harch']; subst.
  unfold regex_match, group_regexp. cbn [rmatch]. rewrite Hs.
  unfold group_prefix. rewrite strip_prefix_app.
  apply greedy_complete; [exact Hg|].
  cbn [strip_prefix app]. rewrite Ascii.eqb_refl, Hi1.
  apply greedy_complete; [exact Hid'|].
  cbn [strip_prefix app]. rewrite Ascii.eqb_refl, Ha1.
  rewrite <- (app_nil_r arch).
  apply greedy_complete; [exact Harch'|]. eauto.
Qed.

(** The match of [group_regexp] captures the group name, and there is a
    match exactly for the names of the pattern. *)
Lemma regex_match_group (s : string) (g id arch : list ascii) :
  group_socket_name (list_ascii_of_string s) g id arch ->
  regex_match s group_regexp = Some [g].
Proof.
  intros Hn. destruct (regex_match_group_complete _ _ _ _ Hn) as [caps Hc].
  destruct (regex_match_group_sound _ _ Hc) as (g' & id' & arch' & -> & Hn').
  now rewrite (group_socket_name_unique _ _ _ _ _ _ _ Hn Hn').
Qed.

Lemma string_of_list_ascii_eq (l : list ascii) (s : string) :
  l = list_ascii_of_string s -> string_of_list_ascii l = s.
Proof. intros ->. apply string_of_list_ascii_of_string. Qed.

Lemma names_group_lists (socket_name g id arch : string) :
  names_group socket_name g id arch
  <-> group_socket_name (list_ascii_of_string socket_name)
        (list_ascii_of_string g) (list_ascii_of_string id)
        (list_ascii_of_string arch).
Proof.
  unfold names_group, group_socket_name, dash_free, on_one_line.
  rewrite <- !contains_false.
  assert (Hone : Forall (fun c => class_matches any_char c = true)
                   (list_ascii_of_string g)
                 <-> contains newline g = false
                     /\ contains carriage_return g = false).
  { rewrite !contains_false, <- Forall_and.
    apply Forall_iff. intros c. simpl.
    rewrite negb_true_iff, orb_false_iff. reflexivity. }
  assert (Hne : forall x : string, list_ascii_of_string x <> [] <-> x <> "").
  { intros [|c x]; simpl; split; congruence. }
  rewrite Hone, !Hne.
  assert (Hs : list_ascii_of_string socket_name
               = group_prefix ++ list_ascii_of_string g
                 ++ dash :: list_ascii_of_string id
                 ++ dash :: list_ascii_of_string arch
               <-> socket_name
                   = "yabridge-group-" +:+ g +:+ "-" +:+ id +:+ "-" +:+ arch).
  { split.
    - intros He. rewrite <- (string_of_list_ascii_of_string socket_name).
      apply string_of_list_ascii_eq. rewrite He.
      now rewrite !list_ascii_app.
    - intros ->. now rewrite !list_ascii_app. }
  rewrite Hs. tauto.
Qed.

Lemma names_group_match (socket_name g id arch : string) :
  names_group socket_name g id arch ->
  regex_match socket_name group_regexp = Some [list_ascii_of_string g].
Proof. intros Hn. apply names_group_lists in Hn. exact (regex_match_group _ _ _ _ Hn). Qed.

Lemma no_match_no_group (socket_name : string) :
  regex_match socket_name group_regexp = None ->
  forall g id arch, ~ names_group socket_name g id arch.
Proof.
  intros Hnone g id arch Hn. apply names_group_match in Hn. congruence.
Qed.

(** C9. The prefix is computed from the path of the socket alone, the
    build apart. When the name of the socket file, its extension dropped,
    is of the pattern of group sockets, the prefix holds the group name
    that the pattern captures, followed by -x32 in the 32 bit build and by
    nothing in the other. When it is not of the pattern, the prefix holds
    that name of the file as it is. In both cases a prefix is returned. *)
Theorem create_logger_prefix_spec (i386 : bool) (socket_path : string) :
  let socket_name := replace_extension (filename socket_path) in
  (forall g id arch,
      names_group socket_name g id arch ->
      create_logger_prefix i386 socket_path
      = "[" +:+ g +:+ (if i386 then "-x32" else "") +:+ "] ")
  /\ ((forall g id arch, ~ names_group socket_name g id arch) ->
      create_logger_prefix i386 socket_path = "[" +:+ socket_name +:+ "] ").
Proof.
  intros socket_name. split.
  - intros g id arch Hn. unfold create_logger_prefix. fold socket_name.
    rewrite (names_group_match _ _ _ _ Hn). cbn [nth].
    rewrite string_of_list_ascii_of_string.
    destruct i386; [now rewrite string_app_assoc|].
    replace (g +:+ "" +:+ "] ") with (g +:+ "] "); [reflexivity|].
    clear. induction g as [|c g IH]; [reflexivity|].
    rewrite !string_app_cons. now rewrite <- IH.
  - intros Hno. unfold create_logger_prefix. fold socket_name.
    destruct (regex_match socket_name group_regexp) as [caps|] eqn:Hm;
      [|reflexivity].
    exfalso. apply regex_match_group_sound in Hm as (g & id & arch & _ & Hn).
    apply (Hno (string_of_list_ascii g) (string_of_list_ascii id)
             (string_of_list_ascii arch)).
    apply names_group_lists. now rewrite !list_ascii_of_string_of_list_ascii.
Qed.

Lemma create_logger_prefix_spec_witness :
  create_logger_prefix false "/tmp/yabridge-group-my-synths-1337-x64.sock"
  = "[my-synths] "
  /\ create_logger_prefix true "/tmp/yabridge-group-my-synths-1337-x64.sock"
     = "[my-synths-x32] "
  /\ create_logger_prefix true "/tmp/yabridge-group-x64.sock"
     = "[yabridge-group-x64] ".
Proof.
  split; [|split].
  - apply (proj1 (create_logger_prefix_spec false
                    "/tmp/yabridge-group-my-synths-1337-x64.sock")
             "my-synths" "1337" "x64").
    repeat split; try reflexivity; discriminate.
  - apply (proj1 (create_logger_prefix_spec true
                    "/tmp/yabridge-group-my-synths-1337-x64.sock")
             "my-synths" "1337" "x64").
    repeat split; try reflexivity; discriminate.
  - apply (proj2 (create_logger_prefix_spec true "/tmp/yabridge-group-x64.sock")).
    apply no_match_no_group. reflexivity.
Defined.
End LoggerPrefixFacts.

(** ** The handlers of the group host *)

Section HandlerFacts.
Context {Vst2Bridge MSG Queue : Type} `{Platform Vst2Bridge MSG Queue}.

Abbreviation state := (GroupBridge Vst2Bridge MSG Queue).
Abbreviation slot := (jthread * Vst2Bridge)%type.

Local Open Scope group_scope.

(** *** What the loops come down to *)

(** Two states with the same fields are the same state. *)
Lemma state_eq (s1 s2 : state) :
  active_plugins s1 = active_plugins s2 ->
  plugin_context s1 = plugin_context s2 ->
  accepting s1 = accepting s2 ->
  events_timer s1 = events_timer s2 ->
  shutdown_timer s1 = shutdown_timer s2 ->
  now s1 = now s2 ->
  messages s1 = messages s2 ->
  trace s1 = trace s2 ->
  handled s1 = handled s2 ->
  crashed s1 = crashed s2 ->
  s1 = s2.
Proof.
  destruct s1, s2. cbn. intros. subst. reflexivity.
Qed.

Lemma outcome_eq {A : Type} (s1 s2 : state) (r : result failure A) :
  s1 = s2 -> (s1, r) = (s2, r).
Proof. now intros ->. Qed.

Lemma io_context_eq (c1 c2 : io_context) :
  ready c1 = ready c2 -> stopped c1 = stopped c2 -> c1 = c2.
Proof. destruct c1, c2. cbn. intros. subst. reflexivity. Qed.

(** The fields of a state that was built by the setters. *)
Ltac fields :=
  cbn [active_plugins plugin_context accepting events_timer shutdown_timer now
       messages trace handled crashed
       set_active_plugins set_plugin_context set_accepting set_events_timer
       set_shutdown_timer set_now set_messages set_trace set_handled
       set_crashed ready stopped expiry waiting fst snd].

(** The state and the result of a piece of code, one after the other. *)
Ltac same_state :=
  lazy beta iota; apply outcome_eq; apply state_eq; fields; try reflexivity.

Lemma post_all_eq (hs : list handler) (s : state) :
  post_all hs s
  = (set_plugin_context
       (fun c => {| ready := ready c ++ hs; stopped := stopped c |}) s, Ok tt).
Proof.
  revert s. induction hs as [|h hs IH]; intros s.
  - unfold post_all, ret. same_state.
    apply io_context_eq; fields; [now rewrite app_nil_r | reflexivity].
  - cbn [post_all]. unfold bind, post, modify. rewrite IH. same_state.
    now rewrite <- app_assoc.
Qed.

Lemma handle_x11_events_all_eq (plugins : list (GroupRequest * slot)) (s : state) :
  handle_x11_events_all plugins s
  = (set_trace (fun t => t ++ map (fun p => x11_events p.1) plugins)
       (set_active_plugins (x11_handled plugins) s), Ok tt).
Proof.
  revert s. induction plugins as [|[k [t b]] l IH]; intros s.
  - unfold handle_x11_events_all, ret. same_state.
    cbn [map]. now rewrite app_nil_r.
  - cbn [handle_x11_events_all]. unfold bind, emit, modify. rewrite IH.
    same_state. cbn [map]. now rewrite <- app_assoc.
Qed.

Lemma should_skip_any_eq (plugins : list (GroupRequest * slot)) (s : state) :
  should_skip_any plugins s
  = (set_trace (fun t => t ++ map skip_asked (asked plugins)) s,
     Ok (any_skips plugins)).
Proof.
  revert s. induction plugins as [|[k [t b]] l IH]; intros s.
  - unfold should_skip_any, ret. same_state. cbn [asked map].
    now rewrite app_nil_r.
  - cbn [should_skip_any asked]. unfold bind, emit, modify, any_skips.
    cbn [existsb snd fst].
    destruct (Vst2Bridge_should_skip_message_loop b); cbn [orb].
    + unfold ret. same_state.
    + rewrite IH. same_state. cbn [map]. now rewrite <- app_assoc.
Qed.

Lemma message_loop_eq (left : nat) (s : state) :
  message_loop left s
  = (set_trace (fun t => t ++ message_effects (drained left (messages s)).1)
       (set_messages (fun _ => (drained left (messages s)).2) s), Ok tt).
Proof.
  revert s. induction left as [|n IH]; intros s.
  - unfold message_loop, ret. same_state. cbn [drained message_effects flat_map].
    now rewrite app_nil_r.
  - cbn [message_loop drained]. unfold bind at 1, gets at 1.
    destruct (PeekMessage (messages s)) as [[msg q']|] eqn:Hp.
    + unfold bind, emit, modify. rewrite IH. fields.
      destruct (drained n (DispatchMessage msg (TranslateMessage msg q')))
        as [msgs final] eqn:Hd.
      same_state. unfold message_effects. cbn [flat_map].
      now rewrite <- !app_assoc.
    + unfold ret. same_state. cbn [message_effects flat_map].
      now rewrite app_nil_r.
Qed.

Lemma drained_length (left : nat) (queue : Queue) :
  (length (drained left queue).1 <= left)%nat.
Proof.
  revert queue. induction left as [|n IH]; intros queue; simpl; [lia|].
  destruct (PeekMessage queue) as [[msg q']|]; simpl; [|lia].
  specialize (IH (DispatchMessage msg (TranslateMessage msg q'))).
  destruct (drained n (DispatchMessage msg (TranslateMessage msg q'))).
  simpl in *. lia.
Qed.

Lemma x11_handled_cons (p : GroupRequest * slot)
    (plugins : list (GroupRequest * slot)) (m : gmap GroupRequest slot) :
  x11_handled (p :: plugins) m
  = x11_handled plugins (<[p.1 := (p.2.1, Vst2Bridge_handle_x11_events p.2.2)]> m).
Proof. reflexivity. Qed.

Lemma x11_handled_lookup (plugins : list (GroupRequest * slot))
    (m : gmap GroupRequest slot) (k : GroupRequest) :
  NoDup plugins.*1 ->
  x11_handled plugins m !! k
  = match list_find (fun p => p.1 = k) plugins with
    | Some (_, p) => Some (p.2.1, Vst2Bridge_handle_x11_events p.2.2)
    | None => m !! k
    end.
Proof.
  revert m. induction plugins as [|[k' sl] l IH]; intros m Hnd; [reflexivity|].
  inversion Hnd as [|? ? Hnotin Hnd']; subst.
  rewrite x11_handled_cons, IH by assumption. cbn [list_find]. simpl.
  destruct (decide (k' = k)) as [->|Hne].
  - destruct (list_find (fun p => p.1 = k) l) as [[i p]|] eqn:Hf.
    + exfalso. apply list_find_Some in Hf as (Hl & Hp & _).
      apply Hnotin. apply list_elem_of_fmap. exists p. split; [now symmetry|].
      eapply list_elem_of_lookup_2. exact Hl.
    + simpl. now rewrite lookup_insert_eq.
  - destruct (list_find (fun p => p.1 = k) l) as [[i p]|] eqn:Hf; simpl.
    + reflexivity.
    + now rewrite lookup_insert_ne.
Qed.

Lemma x11_handled_map_to_list (m : gmap GroupRequest slot) :
  x11_handled (map_to_list m) m = after_x11 m.
Proof.
  apply map_eq. intros k.
  rewrite x11_handled_lookup by apply NoDup_fst_map_to_list.
  unfold after_x11. rewrite lookup_fmap.
  destruct (list_find (fun p => p.1 = k) (map_to_list m)) as [[i [k' sl]]|] eqn:Hf.
  - apply list_find_Some in Hf as (Hl & Hp & _). simpl in Hp. subst k'.
    apply list_elem_of_lookup_2 in Hl. apply elem_of_map_to_list in Hl.
    now rewrite Hl.
  - destruct (m !! k) as [sl|] eqn:Hk; [|reflexivity].
    exfalso. apply elem_of_map_to_list in Hk.
    eapply list_find_None in Hf. rewrite Forall_forall in Hf.
    exact (Hf (k, sl) Hk eq_refl).
Qed.

(** *** One round of the event loop *)

Lemma events_timer_handler_eq (s : state) (error : error_code) :
  failed error = false ->
  events_timer_handler error s = (events_round s, Ok tt).
Proof.
  intros Hf. unfold events_timer_handler. rewrite Hf.
  unfold should_skip_message_loop, async_handle_events,
    events_timer_expires_at, events_timer_async_wait.
  unfold bind at 1. unfold gets at 1.
  unfold bind at 1. rewrite handle_x11_events_all_eq.
  unfold bind at 1. unfold bind at 1. unfold gets at 1.
  rewrite should_skip_any_eq. fields.
  rewrite x11_handled_map_to_list.
  unfold events_round.
  destruct (any_skips (map_to_list (after_x11 (active_plugins s)))) eqn:Hs;
    cbn [negb].
  - unfold bind, ret, gets, modify. rewrite post_all_eq. same_state.
    + apply x11_handled_map_to_list.
    + now rewrite app_nil_r, <- app_assoc.
  - unfold bind at 1. rewrite message_loop_eq.
    unfold bind, ret, gets, modify. rewrite post_all_eq. same_state.
    + apply x11_handled_map_to_list.
    + now rewrite <- !app_assoc.
Qed.

(** The deadline that one round of the event loop sets is the one of
    [next_events_deadline], taken from the expiry time of the timer and the
    clock as they are when the round ends. *)
Lemma events_round_deadline (s : state) (error : error_code) :
  failed error = false ->
  events_timer (events_timer_handler error s).1
  = {| expiry := next_events_deadline (expiry (events_timer s)) (now s);
       waiting := 1 |}.
Proof. intros Hf. now rewrite (events_timer_handler_eq _ _ Hf). Qed.

Lemma events_timer_handler_canceled (s : state) (error : error_code) :
  failed error = true ->
  events_timer_handler error s = (s, Ok tt).
Proof. intros Hf. unfold events_timer_handler. now rewrite Hf. Qed.

Lemma dispatched_app (t u : list (effect MSG)) :
  dispatched (t ++ u) = (dispatched t + dispatched u)%nat.
Proof.
  induction t as [|e t IH]; [reflexivity|].
  destruct e; simpl; rewrite ?IH; reflexivity.
Qed.

Lemma translated_app (t u : list (effect MSG)) :
  translated (t ++ u) = (translated t + translated u)%nat.
Proof.
  induction t as [|e t IH]; [reflexivity|].
  destruct e; simpl; rewrite ?IH; reflexivity.
Qed.

Lemma dispatched_message_effects (msgs : list MSG) :
  dispatched (message_effects msgs) = length msgs.
Proof. induction msgs as [|m l IH]; [reflexivity|]. simpl. now rewrite <- IH. Qed.

Lemma translated_message_effects (msgs : list MSG) :
  translated (message_effects msgs) = length msgs.
Proof. induction msgs as [|m l IH]; [reflexivity|]. simpl. now rewrite <- IH. Qed.

Lemma dispatched_x11 (l : list (GroupRequest * slot)) :
  dispatched (map (fun p => @x11_events MSG p.1) l) = 0%nat
  /\ translated (map (fun p => @x11_events MSG p.1) l) = 0%nat.
Proof. induction l as [|p l [IH1 IH2]]; split; try reflexivity; assumption. Qed.

Lemma dispatched_skip_asked (l : list GroupRequest) :
  dispatched (map (@skip_asked MSG) l) = 0%nat
  /\ translated (map (@skip_asked MSG) l) = 0%nat.
Proof. induction l as [|p l [IH1 IH2]]; split; try reflexivity; assumption. Qed.

Lemma any_skips_true (m : gmap GroupRequest slot) :
  any_skips (map_to_list m) = true
  <-> exists request sl,
        m !! request = Some sl
        /\ Vst2Bridge_should_skip_message_loop sl.2 = true.
Proof.
  unfold any_skips. rewrite existsb_exists. split.
  - intros ([k sl] & Hin & Hs). exists k, sl. split; [|exact Hs].
    apply elem_of_map_to_list. now apply list_elem_of_In.
  - intros (k & sl & Hk & Hs). exists (k, sl). split; [|exact Hs].
    apply list_elem_of_In. now apply elem_of_map_to_list.
Qed.

Lemma asked_registered (l : list (GroupRequest * slot)) (request : GroupRequest) :
  In request (asked l) -> In request l.*1.
Proof.
  induction l as [|[k [t b]] l IH]; simpl; [tauto|].
  intros [->|Hin]; [now left|]. right.
  destruct (Vst2Bridge_should_skip_message_loop b); [destruct Hin | auto].
Qed.

(** C7. In one round of the event loop the X11 events of every active
    plugin are handled, once each and whatever the plugins say. Only then
    are the plugins asked whether the message loop is to be skipped, and
    only after that are Win32 messages translated and dispatched. When some
    active plugin says that the loop is to be skipped, no message is handled
    in that round and the queue is left as it was. *)
Theorem events_round_order (s : state) (error : error_code) :
  failed error = false ->
  let s' := (events_timer_handler error s).1 in
  exists served vetoes msgs,
    trace s' = trace s ++ map x11_events served ++ map skip_asked vetoes
               ++ message_effects msgs
    /\ NoDup served
    /\ (forall request,
           In request served <-> is_Some (active_plugins s !! request))
    /\ active_plugins s' = after_x11 (active_plugins s)
    /\ (forall request, In request vetoes -> In request served)
    /\ ((exists request sl,
            active_plugins s' !! request = Some sl
            /\ Vst2Bridge_should_skip_message_loop sl.2 = true) ->
        msgs = [] /\ messages s' = messages s).
Proof.
  intros Hf s'. subst s'. rewrite (events_timer_handler_eq _ _ Hf).
  cbn [fst]. unfold events_round.
  cbn [trace active_plugins messages].
  exists (map_to_list (active_plugins s)).*1,
    (asked (map_to_list (after_x11 (active_plugins s)))),
    (if any_skips (map_to_list (after_x11 (active_plugins s))) then []
     else (drained (Z.to_nat max_win32_messages) (messages s)).1).
  split; [|split; [|split; [|split; [|split]]]].
  - rewrite <- list_fmap_compose.
    now destruct (any_skips (map_to_list (after_x11 (active_plugins s)))).
  - apply NoDup_fst_map_to_list.
  - intros request. rewrite <- list_elem_of_In, list_elem_of_fmap. split.
    + intros ([k sl] & -> & Hin). apply elem_of_map_to_list in Hin. eauto.
    + intros [sl Hk]. exists (request, sl). split; [reflexivity|].
      now apply elem_of_map_to_list.
  - reflexivity.
  - intros request Hin. apply asked_registered in Hin.
    apply list_elem_of_In in Hin. apply list_elem_of_fmap in Hin as ([k sl] & -> & Hin).
    apply elem_of_map_to_list in Hin. unfold after_x11 in Hin.
    rewrite lookup_fmap in Hin.
    destruct (active_plugins s !! k) as [sl'|] eqn:Hk; [|discriminate].
    apply list_elem_of_In, list_elem_of_fmap. exists (k, sl').
    split; [reflexivity|]. now apply elem_of_map_to_list.
  - intros Hskip. apply any_skips_true in Hskip. now rewrite Hskip.
Qed.

(** C8. One round of the event loop returns, and it translates and
    dispatches at most [max_win32_messages] messages, whatever the queue
    holds and however many messages the dispatched ones post. *)
Theorem message_loop_is_capped (s : state) (error : error_code) :
  let s' := (events_timer_handler error s).1 in
  (events_timer_handler error s).2 = Ok tt
  /\ Z.of_nat (dispatched (trace s')) - Z.of_nat (dispatched (trace s))
     <= Z.max 0 max_win32_messages
  /\ Z.of_nat (translated (trace s')) - Z.of_nat (translated (trace s))
     <= Z.max 0 max_win32_messages.
Proof.
  intros s'. subst s'. destruct (failed error) eqn:Hf.
  - rewrite (events_timer_handler_canceled _ _ Hf). cbn [fst snd].
    split; [reflexivity|]. lia.
  - rewrite (events_timer_handler_eq _ _ Hf). cbn [fst snd].
    split; [reflexivity|]. unfold events_round. cbn [trace].
    rewrite !dispatched_app, !translated_app.
    rewrite (proj1 (dispatched_x11 _)), (proj2 (dispatched_x11 _)).
    rewrite (proj1 (dispatched_skip_asked _)), (proj2 (dispatched_skip_asked _)).
    pose proof (drained_length (Z.to_nat max_win32_messages) (messages s)) as Hd.
    destruct (any_skips (map_to_list (after_x11 (active_plugins s)))).
    + simpl. lia.
    + rewrite dispatched_message_effects, translated_message_effects. lia.
Qed.

(** *** The accept handler *)

Ltac unfold_code :=
  unfold read_object, write_object, accept_requests, assert, logger_log, stop,
    emit, post, bind, ret, gets, modify, throw.

Lemma contains_absent (m : gmap GroupRequest slot) (request : GroupRequest) :
  m !! request = None -> bool_decide (is_Some (m !! request)) = false.
Proof. intros ->. apply bool_decide_eq_false_2, is_Some_None. Qed.

Lemma contains_present (m : gmap GroupRequest slot) (request : GroupRequest) :
  is_Some (m !! request) -> bool_decide (is_Some (m !! request)) = true.
Proof. intros Hs. now apply bool_decide_eq_true_2. Qed.

Lemma accept_failure_eq (error : error_code) (s : state) :
  (if failed error then
     logger_log "Error while listening for incoming connections:";;
     logger_log (ec_message error);;
     stop
   else ret tt) s
  = (accept_prologue error s, Ok tt).
Proof.
  unfold accept_prologue, accept_failure. destruct (failed error).
  - unfold logger_log, stop, emit, bind, modify. same_state.
    + apply io_context_eq; fields; [reflexivity|]. now rewrite orb_true_r.
    + now rewrite <- !app_assoc.
  - unfold ret. same_state.
    + apply io_context_eq; fields; [reflexivity|]. now rewrite orb_false_r.
    + now rewrite app_nil_r.
Qed.

Lemma accept_handler_prologue (error : error_code) (sock : socket) (s : state) :
  accept_handler error sock s
  = (let* request := read_object sock in
     write_object sock {| pid := get_id |};;
     let* plugins := gets active_plugins in
     assert (negb (bool_decide (is_Some (plugins !! request))))
       "!active_plugins.contains(request)";;
     logger_log ("Received request to host '" +:+ plugin_path request
                 +:+ "' using socket endpoint base directory '"
                 +:+ endpoint_base_dir request +:+ "'");;
     emit (construct (plugin_path request) (endpoint_base_dir request));;
     match Vst2Bridge_new (plugin_path request) (endpoint_base_dir request) with
     | Ok bridge =>
         logger_log ("Finished initializing '" +:+ plugin_path request +:+ "'");;
         emit (spawn request);;
         modify (set_active_plugins (insert request (dispatching, bridge)))
     | Throw (runtime_error what) =>
         logger_log ("Error while initializing '" +:+ plugin_path request +:+ "':");;
         logger_log what
     | Throw (other_exception what) => throw (uncaught what)
     end;;
     accept_requests) (accept_prologue error s).
Proof.
  unfold accept_handler. unfold bind at 1. now rewrite accept_failure_eq.
Qed.

(** The request cannot be read: the exception leaves the handler. *)
Lemma accept_handler_unreadable (error : error_code) (sock : socket) (s : state)
    (e : system_error) :
  incoming sock = Throw e ->
  accept_handler error sock s
  = (set_trace (fun t => t ++ [read_request]) (accept_prologue error s),
     Throw (uncaught (error_what e))).
Proof.
  intros Hi. rewrite accept_handler_prologue. unfold_code. now rewrite Hi.
Qed.

(** The response cannot be written. *)
Lemma accept_handler_unwritable (error : error_code) (sock : socket) (s : state)
    (request : GroupRequest) (e : system_error) :
  incoming sock = Ok request ->
  send_error sock = Some e ->
  accept_handler error sock s
  = (set_trace (fun t => t ++ [read_request]) (accept_prologue error s),
     Throw (uncaught (error_what e))).
Proof.
  intros Hi Hs. rewrite accept_handler_prologue. unfold_code.
  now rewrite Hi, Hs.
Qed.

(** The request is registered already: the assertion fails. *)
Lemma accept_handler_duplicate (error : error_code) (sock : socket) (s : state)
    (request : GroupRequest) :
  incoming sock = Ok request ->
  send_error sock = None ->
  is_Some (active_plugins s !! request) ->
  accept_handler error sock s
  = (set_trace (fun t => t ++ [read_request; write_response {| pid := get_id |}])
       (accept_prologue error s),
     Throw (assertion_failed "!active_plugins.contains(request)")).
Proof.
  intros Hi Hs Hp. rewrite accept_handler_prologue. unfold_code.
  rewrite Hi, Hs. unfold accept_prologue. fields.
  rewrite (contains_present _ _ Hp). cbn [negb]. same_state.
  now rewrite <- !app_assoc.
Qed.

(** The plugin initializes: it is registered and its thread started. *)
Lemma accept_handler_registers (error : error_code) (sock : socket) (s : state)
    (request : GroupRequest) (bridge : Vst2Bridge) :
  incoming sock = Ok request ->
  send_error sock = None ->
  active_plugins s !! request = None ->
  Vst2Bridge_new (plugin_path request) (endpoint_base_dir request) = Ok bridge ->
  accept_handler error sock s
  = (set_accepting true
       (set_active_plugins (insert request (dispatching, bridge))
          (set_trace
             (fun t => t ++ [read_request; write_response {| pid := get_id |};
                             received request;
                             construct (plugin_path request)
                               (endpoint_base_dir request);
                             log ("Finished initializing '"
                                  +:+ plugin_path request +:+ "'");
                             spawn request; async_accept])
             (accept_prologue error s))),
     Ok tt).
Proof.
  intros Hi Hs Hp Hc. rewrite accept_handler_prologue. unfold_code.
  rewrite Hi, Hs. unfold accept_prologue. fields.
  rewrite (contains_absent _ _ Hp). cbn [negb]. rewrite Hc. same_state.
  now rewrite <- !app_assoc.
Qed.

(** The plugin does not initialize, and says so. *)
Lemma accept_handler_rejects (error : error_code) (sock : socket) (s : state)
    (request : GroupRequest) (what : string) :
  incoming sock = Ok request ->
  send_error sock = None ->
  active_plugins s !! request = None ->
  Vst2Bridge_new (plugin_path request) (endpoint_base_dir request)
  = Throw (runtime_error what) ->
  accept_handler error sock s
  = (set_accepting true
       (set_trace
          (fun t => t ++ [read_request; write_response {| pid := get_id |};
                          received request;
                          construct (plugin_path request)
                            (endpoint_base_dir request);
                          log ("Error while initializing '"
                               +:+ plugin_path request +:+ "':");
                          log what; async_accept])
          (accept_prologue error s)),
     Ok tt).
Proof.
  intros Hi Hs Hp Hc. rewrite accept_handler_prologue. unfold_code.
  rewrite Hi, Hs. unfold accept_prologue. fields.
  rewrite (contains_absent _ _ Hp). cbn [negb]. rewrite Hc. same_state.
  now rewrite <- !app_assoc.
Qed.

(** The constructor throws something that is no [std::runtime_error]. *)
Lemma accept_handler_unwinds (error : error_code) (sock : socket) (s : state)
    (request : GroupRequest) (what : string) :
  incoming sock = Ok request ->
  send_error sock = None ->
  active_plugins s !! request = None ->
  Vst2Bridge_new (plugin_path request) (endpoint_base_dir request)
  = Throw (other_exception what) ->
  accept_handler error sock s
  = (set_trace
       (fun t => t ++ [read_request; write_response {| pid := get_id |};
                       received request;
                       construct (plugin_path request)
                         (endpoint_base_dir request)])
       (accept_prologue error s),
     Throw (uncaught what)).
Proof.
  intros Hi Hs Hp Hc. rewrite accept_handler_prologue. unfold_code.
  rewrite Hi, Hs. unfold accept_prologue. fields.
  rewrite (contains_absent _ _ Hp). cbn [negb]. rewrite Hc. same_state.
  now rewrite <- !app_assoc.
Qed.

(** *** The shutdown timer and the removal of a plugin *)

Lemma shutdown_timer_handler_canceled (s : state) (error : error_code) :
  failed error = true -> shutdown_timer_handler error s = (s, Ok tt).
Proof. intros Hf. unfold shutdown_timer_handler. now rewrite Hf. Qed.

Lemma shutdown_timer_handler_eq (s : state) (error : error_code) :
  failed error = false ->
  shutdown_timer_handler error s
  = (if bool_decide (active_plugins s = ∅) then shut_down s else s, Ok tt).
Proof.
  intros Hf. unfold shutdown_timer_handler. rewrite Hf.
  unfold bind at 1, gets at 1.
  destruct (Nat.eqb_spec (size (active_plugins s)) 0) as [He|Hne].
  - apply map_size_empty_iff in He. rewrite bool_decide_eq_true_2 by exact He.
    unfold shut_down. unfold_code. same_state. now rewrite <- app_assoc.
  - rewrite bool_decide_eq_false_2; [reflexivity|].
    intros He. apply Hne. now apply map_size_empty_iff.
Qed.

Lemma erase_eq (s : state) (request : GroupRequest) :
  erase request s
  = (match active_plugins s !! request with
     | Some _ => set_active_plugins (delete request)
                   (set_trace (fun t => t ++ [join request]) s)
     | None => s
     end, Ok tt).
Proof.
  unfold erase. unfold bind at 1, gets at 1.
  destruct (active_plugins s !! request); reflexivity.
Qed.

Lemma handle_plugin_dispatch_eq (s : state) (request : GroupRequest) :
  handle_plugin_dispatch request s = (plugin_gone request s, Ok tt).
Proof.
  unfold handle_plugin_dispatch, shutdown_timer_expires_at,
    shutdown_timer_async_wait, logger_log, emit, post.
  unfold bind, gets, modify. rewrite post_all_eq. unfold plugin_gone.
  same_state. apply io_context_eq; fields; [|reflexivity].
  now rewrite <- app_assoc.
Qed.

(** *** The expiry of the timers *)

Lemma expire_events_timer_eq (s : state) :
  expire_events_timer s = (events_timer_expired s, Ok tt).
Proof.
  unfold expire_events_timer, events_timer_expired. unfold bind, gets.
  destruct (expiry (events_timer s) <=? now s); [|reflexivity].
  rewrite post_all_eq. unfold modify. reflexivity.
Qed.

Lemma expire_shutdown_timer_eq (s : state) :
  expire_shutdown_timer s = (shutdown_timer_expired s, Ok tt).
Proof.
  unfold expire_shutdown_timer, shutdown_timer_expired. unfold bind, gets.
  destruct (expiry (shutdown_timer s) <=? now s); [|reflexivity].
  rewrite post_all_eq. unfold modify. reflexivity.
Qed.

Lemma expire_timers_eq (s : state) :
  expire_timers s
  = (if expiry (shutdown_timer s) <? expiry (events_timer s)
     then events_timer_expired (shutdown_timer_expired s)
     else shutdown_timer_expired (events_timer_expired s), Ok tt).
Proof.
  unfold expire_timers. unfold bind at 1, gets at 1. unfold bind at 1, gets at 1.
  destruct (expiry (shutdown_timer s) <? expiry (events_timer s)).
  - unfold bind. now rewrite expire_shutdown_timer_eq, expire_events_timer_eq.
  - unfold bind. now rewrite expire_events_timer_eq, expire_shutdown_timer_eq.
Qed.

(** *** The steps of the event loop *)

Lemma halted_false (s : state) :
  halted s = false <-> stopped (plugin_context s) = false /\ crashed s = None.
Proof.
  unfold halted. rewrite orb_false_iff. split.
  - intros [Hs Hc]. split; [exact Hs|].
    apply bool_decide_eq_false_1 in Hc. destruct (crashed s); [|reflexivity].
    exfalso. apply Hc. eauto.
  - intros [Hs Hc]. split; [exact Hs|]. rewrite Hc.
    apply bool_decide_eq_false_2, is_Some_None.
Qed.

Lemma step_halted (s : state) (ev : event) : halted s = true -> step s ev = s.
Proof. intros Hh. unfold step. now rewrite Hh. Qed.

Lemma step_runs_handler (s : state) (h : handler) (hs : list handler) :
  halted s = false ->
  ready (plugin_context s) = h :: hs ->
  step s runs_handler = run_code (invoke h) (dequeued h hs s).
Proof. intros Hh Hr. unfold step. now rewrite Hh, Hr. Qed.

Lemma step_connects (s : state) (error : error_code) (sock : socket) :
  halted s = false ->
  accepting s = true ->
  step s (connects error sock)
  = set_plugin_context
      (fun c => {| ready := ready c ++ [on_accept error sock];
                   stopped := stopped c |})
      (set_accepting false s).
Proof. intros Hh Ha. unfold step. now rewrite Hh, Ha. Qed.

Lemma step_plugin_exits (s : state) (request : GroupRequest) (bridge : Vst2Bridge) :
  halted s = false ->
  active_plugins s !! request = Some (dispatching, bridge) ->
  step s (plugin_exits request) = plugin_gone request s.
Proof.
  intros Hh Hp. unfold step. rewrite Hh, Hp. unfold run_code.
  now rewrite handle_plugin_dispatch_eq.
Qed.

Lemma step_clock_reaches (s : state) (t : Z) :
  halted s = false ->
  step s (clock_reaches t)
  = let s1 := set_now (Z.max (now s) t) s in
    if expiry (shutdown_timer s1) <? expiry (events_timer s1)
    then events_timer_expired (shutdown_timer_expired s1)
    else shutdown_timer_expired (events_timer_expired s1).
Proof.
  intros Hh. unfold step. rewrite Hh. unfold run_code.
  now rewrite expire_timers_eq.
Qed.

Lemma accept_prologue_accepted (error : error_code) (s : state) :
  failed error = false -> accept_prologue error s = s.
Proof.
  intros Hf. unfold accept_prologue, accept_failure. rewrite Hf.
  apply state_eq; fields; try reflexivity.
  - apply io_context_eq; fields; [reflexivity | apply orb_false_r].
  - apply app_nil_r.
Qed.

(** C5. When an accepted connection is handled and the constructor of the
    plugin bridge throws a [std::runtime_error], the response with the id of
    this process was written before the constructor was called, the failure
    is logged, the registry is as it was, and the acceptor waits for the
    next connection. When that one comes and its plugin initializes, it is
    registered. *)
Theorem construction_failure_is_survived (s : state) (error : error_code)
    (sock : socket) (request : GroupRequest) (what : string)
    (hs : list handler) :
  halted s = false ->
  ready (plugin_context s) = on_accept error sock :: hs ->
  failed error = false ->
  incoming sock = Ok request ->
  send_error sock = None ->
  active_plugins s !! request = None ->
  Vst2Bridge_new (plugin_path request) (endpoint_base_dir request)
  = Throw (runtime_error what) ->
  let s' := step s runs_handler in
  trace s'
  = trace s ++ [read_request; write_response {| pid := get_id |};
                log ("Received request to host '" +:+ plugin_path request
                     +:+ "' using socket endpoint base directory '"
                     +:+ endpoint_base_dir request +:+ "'");
                construct (plugin_path request) (endpoint_base_dir request);
                log ("Error while initializing '" +:+ plugin_path request
                     +:+ "':");
                log what; async_accept]
  /\ active_plugins s' = active_plugins s
  /\ accepting s' = true
  /\ halted s' = false
  /\ ready (plugin_context s') = hs
  /\ (forall sock2 request2 bridge2,
         hs = [] ->
         incoming sock2 = Ok request2 ->
         send_error sock2 = None ->
         active_plugins s !! request2 = None ->
         Vst2Bridge_new (plugin_path request2) (endpoint_base_dir request2)
         = Ok bridge2 ->
         let s2 := run s' [connects success sock2; runs_handler] in
         active_plugins s2
         = <[request2 := (dispatching, bridge2)]> (active_plugins s)
         /\ accepting s2 = true
         /\ halted s2 = false).
Proof.
  intros Hh Hr Hf Hi Hs Hp Hc s'.
  assert (Hs' : s' = set_accepting true
                  (set_trace
                     (fun t => t ++ [read_request;
                                     write_response {| pid := get_id |};
                                     received request;
                                     construct (plugin_path request)
                                       (endpoint_base_dir request);
                                     log ("Error while initializing '"
                                          +:+ plugin_path request +:+ "':");
                                     log what; async_accept])
                     (dequeued (on_accept error sock) hs s))).
  { subst s'. rewrite (step_runs_handler _ _ _ Hh Hr). unfold run_code.
    cbn [invoke].
    rewrite (accept_handler_rejects error sock
               (dequeued (on_accept error sock) hs s) request what Hi Hs Hp Hc).
    now rewrite accept_prologue_accepted. }
  apply halted_false in Hh as [Hst Hcr].
  assert (Hh' : halted s' = false).
  { apply halted_false. rewrite Hs'. unfold dequeued. fields. auto. }
  split; [|split; [|split; [|split; [|split]]]];
    try (rewrite Hs'; unfold dequeued; fields; reflexivity).
  - exact Hh'.
  - intros sock2 request2 bridge2 -> Hi2 Hs2 Hp2 Hc2 s2. subst s2.
    unfold run. cbn [foldl].
    rewrite (step_connects s' success sock2 Hh')
      by (rewrite Hs'; reflexivity).
    erewrite step_runs_handler with (h := on_accept success sock2) (hs := []).
    + unfold run_code. cbn [invoke].
      rewrite (accept_handler_registers success sock2 _ request2 bridge2 Hi2 Hs2);
        [| rewrite Hs'; exact Hp2 | exact Hc2].
      rewrite accept_prologue_accepted by reflexivity.
      rewrite Hs'. unfold dequeued. fields.
      split; [reflexivity|]. split; [reflexivity|].
      apply halted_false. fields. auto.
    + apply halted_false. rewrite Hs'. unfold dequeued. fields. auto.
    + rewrite Hs'. unfold dequeued. fields. reflexivity.
Qed.

(** After a failed accept the handler stops the context and then goes on
    with the handshake as if a connection had been accepted. *)
Lemma accept_handler_after_failure (s : state) (error : error_code)
    (sock : socket) :
  failed error = true ->
  exists rest,
    trace (accept_handler error sock s).1
    = trace s ++ [log "Error while listening for incoming connections:";
                  log (ec_message error); context_stop; read_request] ++ rest.
Proof.
  intros Hf.
  assert (Hpro : trace (accept_prologue error s)
                 = trace s ++ [log "Error while listening for incoming connections:";
                               log (ec_message error); context_stop]).
  { unfold accept_prologue, accept_failure. rewrite Hf. reflexivity. }
  destruct (incoming sock) as [request|e] eqn:Hi.
  - destruct (send_error sock) as [e|] eqn:Hs.
    + rewrite (accept_handler_unwritable _ _ _ _ _ Hi Hs). fields.
      exists []. rewrite Hpro. now rewrite <- app_assoc.
    + destruct (active_plugins s !! request) as [sl|] eqn:Hp.
      * rewrite (accept_handler_duplicate _ _ _ _ Hi Hs (mk_is_Some _ _ Hp)).
        fields. rewrite Hpro. eexists. rewrite <- app_assoc. reflexivity.
      * destruct (Vst2Bridge_new (plugin_path request) (endpoint_base_dir request))
          as [bridge|[what|what]] eqn:Hc.
        -- rewrite (accept_handler_registers _ _ _ _ _ Hi Hs Hp Hc). fields.
           rewrite Hpro. eexists. rewrite <- app_assoc. reflexivity.
        -- rewrite (accept_handler_rejects _ _ _ _ _ Hi Hs Hp Hc). fields.
           rewrite Hpro. eexists. rewrite <- app_assoc. reflexivity.
        -- rewrite (accept_handler_unwinds _ _ _ _ _ Hi Hs Hp Hc). fields.
           rewrite Hpro. eexists. rewrite <- app_assoc. reflexivity.
  - rewrite (accept_handler_unreadable _ _ _ _ Hi). fields.
    exists []. rewrite Hpro. now rewrite <- app_assoc.
Qed.

(** *** The threads of the plugins *)

Lemma alive_app (request : GroupRequest) (t u : list (effect MSG)) :
  alive request (t ++ u) = alive request t + alive request u.
Proof.
  induction t as [|e t IH]; [reflexivity|].
  destruct e; cbn [app alive]; rewrite ?IH; lia.
Qed.

Lemma alive_x11 (request : GroupRequest) (l : list (GroupRequest * slot)) :
  alive request (map (fun p => @x11_events MSG p.1) l) = 0.
Proof. induction l as [|p l IH]; [reflexivity | exact IH]. Qed.

Lemma alive_skip_asked (request : GroupRequest) (l : list GroupRequest) :
  alive request (map (@skip_asked MSG) l) = 0.
Proof. induction l as [|p l IH]; [reflexivity | exact IH]. Qed.

Lemma alive_message_effects (request : GroupRequest) (msgs : list MSG) :
  alive request (message_effects msgs) = 0.
Proof. induction msgs as [|m l IH]; [reflexivity | exact IH]. Qed.

Lemma alive_accept_failure (request : GroupRequest) (error : error_code) :
  alive request (accept_failure (MSG := MSG) error) = 0.
Proof. unfold accept_failure. now destruct (failed error). Qed.

Lemma grows_refl (s : state) : grows s s.
Proof. exists []. split; [now rewrite app_nil_r | intros r; simpl; lia]. Qed.

Lemma grows_trans (s1 s2 s3 : state) : grows s1 s2 -> grows s2 s3 -> grows s1 s3.
Proof.
  intros (a1 & Ht1 & Ha1) (a2 & Ht2 & Ha2). exists (a1 ++ a2). split.
  - now rewrite Ht2, Ht1, app_assoc.
  - intros r. rewrite alive_app, Ha1, Ha2. lia.
Qed.

(** A state with the same registry and the same trace. *)
Lemma grows_same (s s' : state) :
  active_plugins s' = active_plugins s -> trace s' = trace s -> grows s s'.
Proof.
  intros Hp Ht. exists []. split; [now rewrite Ht, app_nil_r|].
  intros r. unfold registered. rewrite Hp. simpl. lia.
Qed.

(** The same registry, and a longer trace without threads in it. *)
Lemma grows_quiet (s s' : state) (added : list (effect MSG)) :
  active_plugins s' = active_plugins s ->
  trace s' = trace s ++ added ->
  (forall r, alive r added = 0) ->
  grows s s'.
Proof.
  intros Hp Ht Ha. exists added. split; [exact Ht|].
  intros r. unfold registered. rewrite Hp, Ha. lia.
Qed.

Lemma registered_lookup (s : state) (r : GroupRequest) :
  registered s r = match active_plugins s !! r with Some _ => 1 | None => 0 end.
Proof.
  unfold registered.
  destruct (active_plugins s !! r) as [sl|];
    destruct (decide _) as [Hs|Hn]; try reflexivity.
  - exfalso. apply Hn. eauto.
  - exfalso. now apply is_Some_None in Hs.
Qed.

Lemma registered_alter (s s' : state) (f : slot -> slot) (k r : GroupRequest) :
  active_plugins s' = alter f k (active_plugins s) ->
  registered s' r = registered s r.
Proof.
  intros Hp. rewrite !registered_lookup, Hp.
  destruct (decide (k = r)) as [->|Hne].
  - rewrite lookup_alter_eq. now destruct (active_plugins s !! r).
  - now rewrite lookup_alter_ne.
Qed.

Lemma registered_crashed (s : state) (c : option failure) (r : GroupRequest) :
  registered (set_crashed c s) r = registered s r.
Proof. reflexivity. Qed.

Lemma grows_crashed (s s' : state) (c : option failure) :
  grows s s' -> grows s (set_crashed c s').
Proof. intros (a & Ht & Ha). exists a. split; [exact Ht | exact Ha]. Qed.

Lemma registered_insert (s s' : state) (request r : GroupRequest) (sl : slot) :
  active_plugins s !! request = None ->
  active_plugins s' = <[request := sl]> (active_plugins s) ->
  registered s' r - registered s r = if decide (request = r) then 1 else 0.
Proof.
  intros Hn Hp. rewrite !registered_lookup, Hp.
  destruct (decide (request = r)) as [<-|Hne].
  - now rewrite lookup_insert_eq, Hn.
  - rewrite lookup_insert_ne by exact Hne. lia.
Qed.

Lemma registered_delete (s s' : state) (request r : GroupRequest) (sl : slot) :
  active_plugins s !! request = Some sl ->
  active_plugins s' = delete request (active_plugins s) ->
  registered s' r - registered s r = if decide (request = r) then -1 else 0.
Proof.
  intros Hn Hp. rewrite !registered_lookup, Hp.
  destruct (decide (request = r)) as [<-|Hne].
  - now rewrite lookup_delete_eq, Hn.
  - rewrite lookup_delete_ne by exact Hne. lia.
Qed.

Lemma registered_fmap (s s' : state) (f : slot -> slot) (r : GroupRequest) :
  active_plugins s' = f <$> active_plugins s ->
  registered s' r = registered s r.
Proof.
  intros Hp. rewrite !registered_lookup, Hp, lookup_fmap.
  now destruct (active_plugins s !! r).
Qed.

Lemma accept_handler_grows (error : error_code) (sock : socket) (s : state) :
  grows s (accept_handler error sock s).1.
Proof.
  assert (Hpro : trace (accept_prologue error s) = trace s ++ accept_failure error)
    by reflexivity.
  assert (Hquiet : forall added,
             (forall r, alive r added = 0) ->
             forall s', active_plugins s' = active_plugins s ->
                        trace s' = trace (accept_prologue error s) ++ added ->
                        grows s s').
  { intros added Ha s' Hp Ht. apply grows_quiet with (added := accept_failure error ++ added).
    - exact Hp.
    - now rewrite Ht, Hpro, app_assoc.
    - intros r. now rewrite alive_app, alive_accept_failure, Ha. }
  destruct (incoming sock) as [request|e] eqn:Hi.
  - destruct (send_error sock) as [e|] eqn:Hs.
    + rewrite (accept_handler_unwritable _ _ _ _ _ Hi Hs).
      now apply (Hquiet [read_request]).
    + destruct (active_plugins s !! request) as [sl|] eqn:Hp.
      * rewrite (accept_handler_duplicate _ _ _ _ Hi Hs (mk_is_Some _ _ Hp)).
        now apply (Hquiet [read_request; write_response {| pid := get_id |}]).
      * destruct (Vst2Bridge_new (plugin_path request) (endpoint_base_dir request))
          as [bridge|[what|what]] eqn:Hc.
        -- rewrite (accept_handler_registers _ _ _ _ _ Hi Hs Hp Hc). cbn [fst].
           eexists. split.
           ++ fields. rewrite Hpro, <- app_assoc. reflexivity.
           ++ intros r.
              rewrite (registered_insert s _ request r (dispatching, bridge) Hp)
                by reflexivity.
              rewrite alive_app, alive_accept_failure. unfold received.
              cbn [alive]. case_decide; lia.
        -- rewrite (accept_handler_rejects _ _ _ _ _ Hi Hs Hp Hc).
           eapply Hquiet; [|reflexivity|reflexivity]. intros r. reflexivity.
        -- rewrite (accept_handler_unwinds _ _ _ _ _ Hi Hs Hp Hc).
           eapply Hquiet; [|reflexivity|reflexivity]. intros r. reflexivity.
  - rewrite (accept_handler_unreadable _ _ _ _ Hi).
    now apply (Hquiet [read_request]).
Qed.

Lemma events_timer_handler_grows (error : error_code) (s : state) :
  grows s (events_timer_handler error s).1.
Proof.
  destruct (failed error) eqn:Hf.
  - rewrite (events_timer_handler_canceled _ _ Hf). apply grows_refl.
  - rewrite (events_timer_handler_eq _ _ Hf). cbn [fst]. eexists. split.
    + unfold events_round. fields. reflexivity.
    + intros r. rewrite (registered_fmap s (events_round s) _ r) by reflexivity.
      rewrite !alive_app, alive_x11, alive_skip_asked.
      destruct (any_skips _); [cbn [alive]; lia|].
      rewrite alive_message_effects. lia.
Qed.

Lemma shutdown_timer_handler_grows (error : error_code) (s : state) :
  grows s (shutdown_timer_handler error s).1.
Proof.
  destruct (failed error) eqn:Hf.
  - rewrite (shutdown_timer_handler_canceled _ _ Hf). apply grows_refl.
  - rewrite (shutdown_timer_handler_eq _ _ Hf). cbn [fst].
    destruct (bool_decide (active_plugins s = ∅)); [|apply grows_refl].
    eapply grows_quiet; [reflexivity | reflexivity |]. intros r. reflexivity.
Qed.

Lemma erase_grows (request : GroupRequest) (s : state) :
  grows s (erase request s).1.
Proof.
  rewrite erase_eq. cbn [fst].
  destruct (active_plugins s !! request) as [sl|] eqn:Hp; [|apply grows_refl].
  exists [join request]. split; [reflexivity|]. intros r.
  rewrite (registered_delete s _ request r sl Hp) by reflexivity.
  cbn [alive]. case_decide; lia.
Qed.

Lemma plugin_gone_grows (request : GroupRequest) (s : state) :
  grows s (plugin_gone request s).
Proof.
  eexists. split; [reflexivity|]. intros r.
  rewrite (registered_alter s (plugin_gone request s) _ request r) by reflexivity.
  cbn [alive]. lia.
Qed.

Lemma run_code_grows (c : @M Vst2Bridge MSG Queue unit) (s0 s : state) :
  grows s0 (c s).1 -> grows s0 (run_code c s).
Proof.
  unfold run_code. destruct (c s) as [s' [[]|f]]; cbn [fst]; [auto|].
  apply grows_crashed.
Qed.

Lemma step_grows (s : state) (ev : event) : grows s (step s ev).
Proof.
  unfold step. destruct (halted s); [apply grows_refl|].
  destruct ev as [t|error sock|request|request bridge|].
  - unfold run_code. rewrite expire_timers_eq.
    apply grows_same;
      unfold events_timer_expired, shutdown_timer_expired; fields;
      repeat match goal with |- context [if ?b then _ else _] => destruct b end;
      reflexivity.
  - destruct (accepting s); [|apply grows_refl]. now apply grows_same.
  - destruct (active_plugins s !! request) as [[[] b]|]; try apply grows_refl.
    unfold run_code. rewrite handle_plugin_dispatch_eq. apply plugin_gone_grows.
  - exists []. split; [now rewrite app_nil_r|]. intros r.
    rewrite (registered_alter s _ _ request r) by reflexivity. simpl. lia.
  - destruct (ready (plugin_context s)) as [|h hs]; [apply grows_refl|].
    apply run_code_grows.
    eapply grows_trans with (s2 := dequeued h hs s); [now apply grows_same|].
    destruct h; cbn [invoke].
    + apply accept_handler_grows.
    + apply events_timer_handler_grows.
    + apply shutdown_timer_handler_grows.
    + apply erase_grows.
Qed.

Lemma grows_threads_match (s s' : state) :
  grows s s' -> threads_match s -> threads_match s'.
Proof.
  intros (a & Ht & Ha) Hm r. rewrite Ht, alive_app, Hm, Ha. lia.
Qed.

Lemma run_threads_match (s : state) (evs : list event) :
  threads_match s -> threads_match (run s evs).
Proof.
  revert s. induction evs as [|ev evs IH]; intros s Hm; [exact Hm|].
  unfold run. cbn [foldl]. apply IH.
  exact (grows_threads_match _ _ (step_grows s ev) Hm).
Qed.

Lemma started_threads_match (clock : Z) (queue : Queue) :
  threads_match (started (Vst2Bridge := Vst2Bridge) (MSG := MSG) clock queue).
Proof.
  intros r. unfold started, run_code, handle_incoming_connections,
    accept_requests, async_handle_events, events_timer_expires_at,
    events_timer_async_wait.
  unfold_code. rewrite post_all_eq. rewrite registered_lookup. fields.
  unfold GroupBridge_new. fields. now rewrite lookup_empty.
Qed.

(** *** What a handler leaves alone *)

Ltac accept_cases error sock s :=
  let request := fresh "request" in
  let e := fresh "e" in
  let sl := fresh "sl" in
  let bridge := fresh "bridge" in
  let what := fresh "what" in
  let Hi := fresh "Hi" in
  let Hs := fresh "Hs" in
  let Hp := fresh "Hp" in
  let Hc := fresh "Hc" in
  destruct (incoming sock) as [request|e] eqn:Hi;
  [ destruct (send_error sock) as [e|] eqn:Hs;
    [ rewrite (accept_handler_unwritable error sock s request e Hi Hs)
    | destruct (active_plugins s !! request) as [sl|] eqn:Hp;
      [ rewrite (accept_handler_duplicate error sock s request Hi Hs
                   (mk_is_Some _ _ Hp))
      | destruct (Vst2Bridge_new (plugin_path request)
                    (endpoint_base_dir request))
          as [bridge|[what|what]] eqn:Hc;
        [ rewrite (accept_handler_registers error sock s request bridge
                     Hi Hs Hp Hc)
        | rewrite (accept_handler_rejects error sock s request what
                     Hi Hs Hp Hc)
        | rewrite (accept_handler_unwinds error sock s request what
                     Hi Hs Hp Hc) ] ] ]
  | rewrite (accept_handler_unreadable error sock s e Hi) ].






(** *** The waits on the shutdown timer *)









Lemma run_halted (s : state) (evs : list event) : halted s = true -> run s evs = s.
Proof.
  intros Hh. induction evs as [|ev evs IH]; [reflexivity|].
  unfold run. cbn [foldl]. now rewrite (step_halted _ _ Hh).
Qed.

Lemma run_cons (s : state) (ev : event) (evs : list event) :
  run s (ev :: evs) = run (step s ev) evs.
Proof. reflexivity. Qed.

(** The shutdown timer is touched by the exit of a plugin and by its own
    expiry only. *)
Lemma events_timer_expired_frame (s : state) :
  shutdown_timer (events_timer_expired s) = shutdown_timer s
  /\ now (events_timer_expired s) = now s
  /\ active_plugins (events_timer_expired s) = active_plugins s
  /\ exists n, ready (plugin_context (events_timer_expired s))
               = ready (plugin_context s) ++ replicate n (on_events_timer success).
Proof.
  unfold events_timer_expired.
  destruct (expiry (events_timer s) <=? now s); fields.
  - repeat split. eauto.
  - repeat split. exists 0%nat. now rewrite app_nil_r.
Qed.

Lemma shutdown_timer_expired_frame (s : state) :
  expiry (shutdown_timer (shutdown_timer_expired s)) = expiry (shutdown_timer s)
  /\ now (shutdown_timer_expired s) = now s
  /\ events_timer (shutdown_timer_expired s) = events_timer s
  /\ active_plugins (shutdown_timer_expired s) = active_plugins s
  /\ (exists n, ready (plugin_context (shutdown_timer_expired s))
                = ready (plugin_context s)
                  ++ replicate n (on_shutdown_timer success))
  /\ (now s < expiry (shutdown_timer s) -> shutdown_timer_expired s = s)
  /\ (expiry (shutdown_timer s) <= now s ->
      waiting (shutdown_timer (shutdown_timer_expired s)) = 0%nat).
Proof.
  unfold shutdown_timer_expired.
  destruct (Z.leb_spec (expiry (shutdown_timer s)) (now s)); fields.
  - repeat split; try lia. eauto.
  - repeat split; try lia. exists 0%nat. now rewrite app_nil_r.
Qed.

(** The state after the clock has reached [t]. *)
Lemma clock_reaches_frame (s : state) (t : Z) :
  halted s = false ->
  let s' := step s (clock_reaches t) in
  expiry (shutdown_timer s') = expiry (shutdown_timer s)
  /\ now s' = Z.max (now s) t
  /\ active_plugins s' = active_plugins s
  /\ (exists hs, ready (plugin_context s') = ready (plugin_context s) ++ hs
                 /\ Forall (fun h => forall r, h <> erase_plugin r) hs)
  /\ (Z.max (now s) t < expiry (shutdown_timer s) ->
      shutdown_timer s' = shutdown_timer s)
  /\ (expiry (shutdown_timer s) <= Z.max (now s) t ->
      waiting (shutdown_timer s') = 0%nat).
Proof.
  intros Hh s'. subst s'. rewrite (step_clock_reaches _ _ Hh). cbv zeta.
  set (s1 := set_now (Z.max (now s) t) s).
  assert (Hnot : forall n h, (forall r, h <> erase_plugin r) ->
                 Forall (fun h => forall r, h <> erase_plugin r) (replicate n h)).
  { intros n h Hne. induction n; constructor; auto. }
  destruct (expiry (shutdown_timer s1) <? expiry (events_timer s1)).
  - destruct (events_timer_expired_frame (shutdown_timer_expired s1))
      as (E1 & E2 & E3 & n & E4).
    destruct (shutdown_timer_expired_frame s1)
      as (S1 & S2 & _ & S3 & (m & S4) & S5 & S6).
    rewrite E1, E2, E3, E4, S1, S2, S3, S4. subst s1. fields.
    split; [reflexivity|]. split; [reflexivity|]. split; [reflexivity|].
    split; [|split].
    + eexists. rewrite <- app_assoc. split; [reflexivity|].
      apply Forall_app. split; apply Hnot; discriminate.
    + intros Hlt. now rewrite (S5 Hlt).
    + exact S6.
  - destruct (events_timer_expired_frame s1) as (E1 & E2 & E3 & n & E4).
    destruct (shutdown_timer_expired_frame (events_timer_expired s1))
      as (S1 & S2 & _ & S3 & (m & S4) & S5 & S6).
    rewrite E1, E2 in *. rewrite S1, S2, S3, S4, E3, E4. subst s1. fields.
    split; [reflexivity|]. split; [reflexivity|]. split; [reflexivity|].
    split; [|split].
    + eexists. rewrite <- app_assoc. split; [reflexivity|].
      apply Forall_app. split; apply Hnot; discriminate.
    + intros Hlt. rewrite (S5 Hlt). exact E1.
    + exact S6.
Qed.





(** *** A plugin stays registered until it exits *)




Lemma accept_handler_plugins (error : error_code) (sock : socket) (s : state) :
  active_plugins (accept_handler error sock s).1 = active_plugins s
  \/ exists request bridge,
       incoming sock = Ok request
       /\ active_plugins s !! request = None
       /\ active_plugins (accept_handler error sock s).1
          = <[request := (dispatching, bridge)]> (active_plugins s).
Proof.
  accept_cases error sock s; unfold accept_prologue; fields; eauto.
  right. exists request, bridge. auto.
Qed.

(** C2. Along every run of the group host the registry holds no request
    twice: its keys are without duplicates, and for every request the
    threads started and not yet joined are one when the request is
    registered and none when it is not. The accept handler registers a
    request only when it is absent from the registry. When the request it
    has read is registered already, the handler fails with the assertion and
    registers nothing; the failure is not caught, and nothing is handled any
    more after it. *)
Theorem registry_has_no_duplicates (clock : Z) (queue : Queue)
    (evs : list event) :
  let s := run (started clock queue) evs in
  NoDup (map_to_list (active_plugins s)).*1
  /\ (forall request,
         alive request (trace s)
         = if decide (is_Some (active_plugins s !! request)) then 1 else 0)
  /\ (forall error sock,
         active_plugins (accept_handler error sock s).1 = active_plugins s
         \/ exists request bridge,
              incoming sock = Ok request
              /\ active_plugins s !! request = None
              /\ active_plugins (accept_handler error sock s).1
                 = <[request := (dispatching, bridge)]> (active_plugins s))
  /\ (forall error sock request,
         incoming sock = Ok request ->
         send_error sock = None ->
         is_Some (active_plugins s !! request) ->
         let s' := run_code (accept_handler error sock) s in
         (accept_handler error sock s).2
         = Throw (assertion_failed "!active_plugins.contains(request)")
         /\ crashed s' = Some (assertion_failed "!active_plugins.contains(request)")
         /\ active_plugins s' = active_plugins s
         /\ forall evs', run s' evs' = s').
Proof.
  intros s. split; [apply NoDup_fst_map_to_list|]. split; [|split].
  - intros request.
    exact (run_threads_match _ evs (started_threads_match clock queue) request).
  - intros error sock. apply accept_handler_plugins.
  - intros error sock request Hi Hs Hp s'. subst s'. unfold run_code.
    rewrite (accept_handler_duplicate error sock s request Hi Hs Hp).
    cbn [fst snd]. split; [reflexivity|]. split; [reflexivity|].
    split; [reflexivity|]. intros evs'. apply run_halted.
    unfold halted. fields. apply orb_true_r.
Qed.


(** *** The deadline of the event loop *)

Lemma async_handle_events_eq (s : state) :
  async_handle_events s
  = (set_events_timer
       {| expiry := next_events_deadline (expiry (events_timer s)) (now s);
          waiting := 1 |}
       (set_plugin_context
          (fun c => {| ready := ready c
                                ++ replicate (waiting (events_timer s))
                                     (on_events_timer operation_aborted);
                       stopped := stopped c |}) s), Ok tt).
Proof.
  unfold async_handle_events, events_timer_expires_at, events_timer_async_wait.
  unfold bind, gets, modify. rewrite post_all_eq. same_state.
Qed.

Lemma step_pumps (s : state) (ev : event) :
  pumps s ev = true ->
  events_timer (step s ev)
  = {| expiry := next_events_deadline (expiry (events_timer s)) (now s);
       waiting := 1 |}.
Proof.
  unfold pumps. intros Hp. apply andb_true_iff in Hp as [Hh Hp].
  apply negb_true_iff in Hh.
  destruct ev as [t|error sock|request|request bridge|]; try discriminate.
  destruct (ready (plugin_context s)) as [|[error sock|error|error|request] hs]
    eqn:Hr; try discriminate.
  apply negb_true_iff in Hp.
  rewrite (step_runs_handler _ _ _ Hh Hr). cbn [invoke]. unfold run_code.
  rewrite (events_timer_handler_eq _ _ Hp). unfold events_round, dequeued.
  fields. reflexivity.
Qed.

Lemma step_keeps_the_deadline (s : state) (ev : event) :
  pumps s ev = false ->
  expiry (events_timer (step s ev)) = expiry (events_timer s).
Proof.
  unfold pumps. intros Hp.
  destruct (halted s) eqn:Hh; [now rewrite step_halted|]. cbn [negb andb] in Hp.
  destruct ev as [t|error sock|request|request bridge|].
  - rewrite (step_clock_reaches _ _ Hh). cbv zeta.
    set (s1 := set_now (Z.max (now s) t) s).
    assert (He : forall s0 : state,
               expiry (events_timer (events_timer_expired s0))
               = expiry (events_timer s0)).
    { intros s0. unfold events_timer_expired.
      now destruct (expiry (events_timer s0) <=? now s0). }
    assert (Hs : forall s0 : state,
               events_timer (shutdown_timer_expired s0) = events_timer s0).
    { intros s0. unfold shutdown_timer_expired.
      now destruct (expiry (shutdown_timer s0) <=? now s0). }
    destruct (expiry (shutdown_timer s1) <? expiry (events_timer s1)).
    + now rewrite He, Hs.
    + now rewrite Hs, He.
  - unfold step. rewrite Hh. now destruct (accepting s).
  - unfold step. rewrite Hh.
    destruct (active_plugins s !! request) as [[[] b]|]; try reflexivity.
    unfold run_code. now rewrite handle_plugin_dispatch_eq.
  - unfold step. now rewrite Hh.
  - destruct (ready (plugin_context s)) as [|h hs] eqn:Hr.
    + unfold step. now rewrite Hh, Hr.
    + rewrite (step_runs_handler _ _ _ Hh Hr).
      destruct h as [error sock|error|error|request]; cbn [invoke].
      * unfold run_code.
        accept_cases error sock (dequeued (on_accept error sock) hs s);
          reflexivity.
      * apply negb_false_iff in Hp. unfold run_code.
        now rewrite (events_timer_handler_canceled _ _ Hp).
      * unfold run_code. destruct (failed error) eqn:Hf.
        -- now rewrite (shutdown_timer_handler_canceled _ _ Hf).
        -- rewrite (shutdown_timer_handler_eq _ _ Hf).
           now destruct (bool_decide _).
      * unfold run_code. rewrite erase_eq.
        now destruct (active_plugins _ !! request).
Qed.

(** The expiry times that the rounds of a run give the events timer are the
    deadlines of [deadlines], taken at the times of the rounds. *)
Lemma pumped_deadlines (s : state) (evs : list event) :
  (pumped s evs).*2 = deadlines (expiry (events_timer s)) (pumped s evs).*1.
Proof.
  revert s. induction evs as [|ev evs IH]; intros s; [reflexivity|].
  cbn [pumped]. destruct (pumps s ev) eqn:Hp.
  - cbn [app fmap list_fmap fst snd deadlines]. rewrite IH.
    now rewrite (step_pumps _ _ Hp).
  - cbn [app]. now rewrite IH, (step_keeps_the_deadline _ _ Hp).
Qed.

Lemma pumped_last (s : state) (evs : list event) :
  expiry (events_timer (run s evs))
  = List.last (pumped s evs).*2 (expiry (events_timer s)).
Proof.
  revert s. induction evs as [|ev evs IH]; intros s; [reflexivity|].
  rewrite run_cons, IH. cbn [pumped]. destruct (pumps s ev) eqn:Hp.
  - cbn [app fmap list_fmap snd].
    destruct ((pumped (step s ev) evs).*2) as [|d l] eqn:Hl; [reflexivity|].
    change (List.last (expiry (events_timer (step s ev)) :: d :: l)
              (expiry (events_timer s)))
      with (List.last (d :: l) (expiry (events_timer s))).
    clear. revert d. induction l as [|x l IHl]; intros d; [reflexivity|].
    change (List.last (d :: x :: l) (expiry (events_timer (step s ev))))
      with (List.last (x :: l) (expiry (events_timer (step s ev)))).
    change (List.last (d :: x :: l) (expiry (events_timer s)))
      with (List.last (x :: l) (expiry (events_timer s))).
    apply IHl.
  - cbn [app]. now rewrite (step_keeps_the_deadline _ _ Hp).
Qed.

(** C4. The deadline that [async_handle_events] sets is, whenever the sums
    are representable, the larger of the previous deadline plus the
    interval and the current time plus the slack, whatever these two are:
    it lies beyond the previous deadline and at least the slack beyond the
    current time. In a run of the group host the expiry time of the events
    timer changes in the rounds of the event loop only, each of which ends
    with that call: the expiry times that the rounds set are the deadlines
    computed in this way one from the other, the last of them is the
    expiry time at the end of the run, and from one to the next they
    increase strictly and by the slack at least, whenever the rounds are
    made. *)
Theorem events_deadline_advances (s : state) (evs : list event) :
  representable (expiry (events_timer s)) (pumped s evs).*1 ->
  (forall s0 : state,
      rep_min <= expiry (events_timer s0) ->
      expiry (events_timer s0) + event_loop_interval <= rep_max ->
      rep_min <= now s0 ->
      now s0 + event_loop_slack <= rep_max ->
      let s1 := run_code async_handle_events s0 in
      events_timer s1
      = {| expiry := Z.max (expiry (events_timer s0) + event_loop_interval)
                       (now s0 + event_loop_slack);
           waiting := 1 |}
      /\ expiry (events_timer s0) < expiry (events_timer s1)
      /\ now s0 + event_loop_slack <= expiry (events_timer s1))
  /\ (pumped s evs).*2
     = deadlines (expiry (events_timer s)) (pumped s evs).*1
  /\ expiry (events_timer (run s evs))
     = List.last (pumped s evs).*2 (expiry (events_timer s))
  /\ (forall ev, pumps s ev = false ->
                 expiry (events_timer (step s ev)) = expiry (events_timer s))
  /\ (forall i t d,
         pumped s evs !! i = Some (t, d) ->
         exists before,
           (expiry (events_timer s) :: (pumped s evs).*2) !! i = Some before
           /\ d = Z.max (before + event_loop_interval) (t + event_loop_slack)
           /\ t + event_loop_slack <= d)
  /\ (forall i a b,
         (expiry (events_timer s) :: (pumped s evs).*2) !! i = Some a ->
         (expiry (events_timer s) :: (pumped s evs).*2) !! S i = Some b ->
         a < b /\ a + event_loop_slack <= b).
Proof.
  intros Hr.
  pose proof event_loop_interval_value as Hi.
  pose proof event_loop_slack_value as Hs.
  split; [|split; [apply pumped_deadlines|split; [apply pumped_last|split;
    [apply step_keeps_the_deadline|split]]]].
  - intros s0 H1 H2 H3 H4 s1. subst s1. unfold run_code.
    rewrite async_handle_events_eq. fields.
    rewrite next_events_deadline_exact by assumption.
    split; [reflexivity|]. split; lia.
  - intros i t d Hl.
    assert (Ht : (pumped s evs).*1 !! i = Some t)
      by (rewrite list_lookup_fmap, Hl; reflexivity).
    assert (Hd : (pumped s evs).*2 !! i = Some d)
      by (rewrite list_lookup_fmap, Hl; reflexivity).
    rewrite pumped_deadlines in Hd |- *.
    destruct (deadlines_lookup _ _ _ _ _ Hr Ht Hd) as (before & Hb & ->).
    exists before. split; [exact Hb|]. split; [reflexivity | lia].
  - intros i a b Ha Hb. rewrite pumped_deadlines in Ha, Hb.
    pose proof (deadlines_step _ _ _ _ _ Hr Ha Hb). lia.
Qed.

(** *** The event loop goes on *)

Lemma rounds_app (hs hs' : list handler) :
  rounds (hs ++ hs') = (rounds hs + rounds hs')%nat.
Proof.
  induction hs as [|h hs IH]; [reflexivity|].
  destruct h; cbn [app rounds]; rewrite IH; reflexivity.
Qed.

Lemma rounds_replicate (n : nat) (h : handler) :
  rounds (replicate n h) = (n * rounds [h])%nat.
Proof.
  induction n as [|n IH]; [reflexivity|].
  cbn [replicate]. change (h :: replicate n h) with ([h] ++ replicate n h).
  rewrite rounds_app, IH. lia.
Qed.

Lemma uncanceled_app (hs hs' : list handler) :
  uncanceled hs -> uncanceled hs' -> uncanceled (hs ++ hs').
Proof.
  intros H1 H2 error Hin. apply in_app_or in Hin as [Hin|Hin]; auto.
Qed.

Lemma uncanceled_replicate (n : nat) (h : handler) :
  uncanceled [h] -> uncanceled (replicate n h).
Proof.
  intros Hh error Hin. apply Hh.
  apply list_elem_of_In, elem_of_replicate in Hin as [-> _]. now left.
Qed.

Lemma uncanceled_tail (h : handler) (hs : list handler) :
  uncanceled (h :: hs) -> uncanceled hs.
Proof. intros Hu error Hin. apply Hu. now right. Qed.

Lemma uncanceled_others (hs : list handler) :
  Forall (fun h => forall error, h <> on_events_timer error) hs -> uncanceled hs.
Proof.
  intros Hf error Hin. rewrite Forall_forall in Hf.
  apply list_elem_of_In in Hin. now destruct (Hf _ Hin error).
Qed.

(** A handler that is not one of the events timer leaves that timer, the
    handlers that are ready and the list of the invoked ones alone. *)
Lemma invoke_keeps_the_queue (h : handler) (s : state) :
  (forall error, h <> on_events_timer error) ->
  events_timer (run_code (invoke h) s) = events_timer s
  /\ ready (plugin_context (run_code (invoke h) s)) = ready (plugin_context s)
  /\ handled (run_code (invoke h) s) = handled s.
Proof.
  intros Hne. destruct h as [error sock|error|error|request]; cbn [invoke].
  - unfold run_code. accept_cases error sock s; unfold accept_prologue; fields;
      auto.
  - now destruct (Hne error).
  - unfold run_code. destruct (failed error) eqn:Hf.
    + rewrite (shutdown_timer_handler_canceled _ _ Hf). auto.
    + rewrite (shutdown_timer_handler_eq _ _ Hf).
      destruct (bool_decide (active_plugins s = ∅)); unfold shut_down; fields;
        auto.
  - unfold run_code. rewrite erase_eq.
    destruct (active_plugins s !! request); fields; auto.
Qed.

Lemma event_loop_events_timer_expired (s : state) :
  event_loop_is_on s -> event_loop_is_on (events_timer_expired s).
Proof.
  intros (Hone & Hr & Hh). unfold events_timer_expired, event_loop_is_on.
  destruct (expiry (events_timer s) <=? now s); [|auto]. fields.
  rewrite rounds_app, rounds_replicate. cbn [rounds].
  split; [lia|]. split; [|exact Hh].
  apply uncanceled_app; [exact Hr|]. apply uncanceled_replicate.
  intros error [[= <-]|[]]. reflexivity.
Qed.

Lemma event_loop_shutdown_timer_expired (s : state) :
  event_loop_is_on s -> event_loop_is_on (shutdown_timer_expired s).
Proof.
  intros (Hone & Hr & Hh). unfold shutdown_timer_expired, event_loop_is_on.
  destruct (expiry (shutdown_timer s) <=? now s); [|auto]. fields.
  rewrite rounds_app, rounds_replicate. cbn [rounds].
  split; [lia|]. split; [|exact Hh].
  apply uncanceled_app; [exact Hr|]. apply uncanceled_replicate.
  intros error [[=]|[]].
Qed.

Lemma step_event_loop (s : state) (ev : event) :
  event_loop_is_on s -> event_loop_is_on (step s ev).
Proof.
  intros Hon. destruct (halted s) eqn:Hh; [now rewrite step_halted|].
  destruct ev as [t|error sock|request|request bridge|].
  - rewrite (step_clock_reaches _ _ Hh). cbv zeta.
    assert (Hon' : event_loop_is_on (set_now (Z.max (now s) t) s)) by exact Hon.
    destruct (_ <? _).
    + now apply event_loop_events_timer_expired, event_loop_shutdown_timer_expired.
    + now apply event_loop_shutdown_timer_expired, event_loop_events_timer_expired.
  - destruct (accepting s) eqn:Ha.
    + rewrite (step_connects _ _ _ Hh Ha). destruct Hon as (Hone & Hr & Hd).
      unfold event_loop_is_on. fields. rewrite rounds_app. cbn [rounds].
      split; [lia|]. split; [|exact Hd].
      apply uncanceled_app; [exact Hr|]. intros e [[=]|[]].
    + unfold step. now rewrite Hh, Ha.
  - unfold step. rewrite Hh.
    destruct (active_plugins s !! request) as [[[] b]|] eqn:Hp; try exact Hon.
    unfold run_code. rewrite handle_plugin_dispatch_eq.
    destruct Hon as (Hone & Hr & Hd). unfold event_loop_is_on, plugin_gone.
    fields. rewrite !rounds_app, rounds_replicate. cbn [rounds].
    split; [lia|]. split; [|exact Hd].
    apply uncanceled_app; [exact Hr|]. apply uncanceled_app.
    + intros e [[=]|[]].
    + apply uncanceled_replicate. intros e [[=]|[]].
  - unfold step. rewrite Hh. exact Hon.
  - destruct (ready (plugin_context s)) as [|h hs] eqn:Hr.
    + unfold step. now rewrite Hh, Hr.
    + rewrite (step_runs_handler _ _ _ Hh Hr).
      destruct Hon as (Hone & Hu & Hd). rewrite Hr in Hone, Hu.
      assert (Hcase : (exists error, h = on_events_timer error)
                      \/ forall error, h <> on_events_timer error).
      { destruct h; [right; discriminate | left; eauto
                     | right; discriminate | right; discriminate]. }
      destruct Hcase as [[error ->]|Hother].
      * assert (Hf : failed error = false) by (apply Hu; now left).
        cbn [rounds] in Hone. cbn [invoke]. unfold run_code.
        rewrite (events_timer_handler_eq _ _ Hf).
        unfold event_loop_is_on, events_round, dequeued. fields.
        replace (waiting (events_timer s)) with 0%nat by lia.
        cbn [replicate]. rewrite app_nil_r.
        split; [lia|]. split; [now apply uncanceled_tail in Hu|].
        apply uncanceled_app; [exact Hd|].
        intros e [[= <-]|[]]. exact Hf.
      * destruct (invoke_keeps_the_queue h (dequeued h hs s) Hother)
          as (Ht & Hq & Hl).
        unfold event_loop_is_on. rewrite Ht, Hq, Hl. unfold dequeued. fields.
        assert (Hrounds : rounds (h :: hs) = rounds hs).
        { destruct h; try reflexivity. now destruct (Hother error). }
        rewrite Hrounds in Hone.
        split; [exact Hone|]. split; [now apply uncanceled_tail in Hu|].
        apply uncanceled_app; [exact Hd|].
        intros e [->|[]]. now destruct (Hother e).
Qed.

Lemma started_event_loop (clock : Z) (queue : Queue) :
  event_loop_is_on (started (Vst2Bridge := Vst2Bridge) (MSG := MSG) clock queue).
Proof.
  unfold started, run_code, handle_incoming_connections,
    accept_requests, async_handle_events, events_timer_expires_at,
    events_timer_async_wait.
  unfold_code. rewrite post_all_eq. unfold event_loop_is_on. fields.
  unfold GroupBridge_new. fields. cbn [replicate app rounds].
  split; [reflexivity|]. split; intros e [].
Qed.

Lemma run_event_loop (s : state) (evs : list event) :
  event_loop_is_on s -> event_loop_is_on (run s evs).
Proof.
  revert s. induction evs as [|ev evs IH]; intros s Hon; [exact Hon|].
  rewrite run_cons. apply IH. now apply step_event_loop.
Qed.

(** X10. The event loop is neither dropped nor doubled. Along every run of
    the group host from its start, one activation of the event loop is to
    come, and one only: a wait on the events timer is outstanding, or the
    handler of the wait that is over is ready to be invoked. No wait on the
    events timer is ever canceled, so that its handler is never invoked
    with an error, on which it would return without arming the timer
    again. *)
Theorem event_loop_goes_on (clock : Z) (queue : Queue) (evs : list event) :
  let s := run (started clock queue) evs in
  (waiting (events_timer s) + rounds (ready (plugin_context s)) = 1)%nat
  /\ (forall error, In (on_events_timer error) (ready (plugin_context s)) ->
                    failed error = false)
  /\ (forall error, In (on_events_timer error) (handled s) ->
                    failed error = false)
  /\ (forall (s0 : state) error,
         failed error = true ->
         events_timer_handler error s0 = (s0, Ok tt)).
Proof.
  intros s.
  destruct (run_event_loop _ evs (started_event_loop clock queue))
    as (Hone & Hr & Hd).
  split; [exact Hone|]. split; [exact Hr|]. split; [exact Hd|].
  intros s0 error Hf. now apply events_timer_handler_canceled.
Qed.

(** *** The group host keeps listening *)

Lemma accepts_app (hs hs' : list handler) :
  accepts (hs ++ hs') = (accepts hs + accepts hs')%nat.
Proof.
  induction hs as [|h hs IH]; [reflexivity|].
  destruct h; cbn [app accepts]; rewrite IH; reflexivity.
Qed.

Lemma accepts_replicate (n : nat) (h : handler) :
  accepts [h] = 0%nat -> accepts (replicate n h) = 0%nat.
Proof.
  intros Hh. induction n as [|n IH]; [reflexivity|].
  cbn [replicate]. change (h :: replicate n h) with ([h] ++ replicate n h).
  rewrite accepts_app, IH, Hh. reflexivity.
Qed.

Lemma listening_events_timer_expired (s : state) :
  listening (events_timer_expired s) = listening s.
Proof.
  unfold events_timer_expired, listening.
  destruct (expiry (events_timer s) <=? now s); [|reflexivity]. fields.
  rewrite accepts_app, accepts_replicate by reflexivity. lia.
Qed.

Lemma listening_shutdown_timer_expired (s : state) :
  listening (shutdown_timer_expired s) = listening s.
Proof.
  unfold shutdown_timer_expired, listening.
  destruct (expiry (shutdown_timer s) <=? now s); [|reflexivity]. fields.
  rewrite accepts_app, accepts_replicate by reflexivity. lia.
Qed.

(** The handler of an accept arms the acceptor again when it returns, and
    ends the event loop when it does not. *)
Lemma accept_handler_listening (error : error_code) (sock : socket) (s : state) :
  let s' := run_code (accept_handler error sock) s in
  ready (plugin_context s') = ready (plugin_context s)
  /\ (is_Some (crashed s') \/ accepting s' = true).
Proof.
  unfold run_code.
  accept_cases error sock s; unfold accept_prologue; fields;
    (split; [reflexivity|]); eauto.
Qed.

Lemma step_listening (s : state) (ev : event) :
  halted s = true \/ listening s = 1%nat ->
  halted (step s ev) = true \/ listening (step s ev) = 1%nat.
Proof.
  intros Hinv. destruct (halted s) eqn:Hh; [rewrite step_halted; auto|].
  destruct Hinv as [Hinv|Hone]; [discriminate|].
  destruct ev as [t|error sock|request|request bridge|].
  - right. rewrite (step_clock_reaches _ _ Hh). cbv zeta.
    destruct (_ <? _);
      now rewrite ?listening_events_timer_expired,
        ?listening_shutdown_timer_expired, ?listening_events_timer_expired.
  - right. destruct (accepting s) eqn:Ha.
    + rewrite (step_connects _ _ _ Hh Ha). unfold listening in *. fields.
      rewrite Ha in Hone. rewrite accepts_app. cbn [accepts]. lia.
    + unfold step. now rewrite Hh, Ha.
  - right. unfold step. rewrite Hh.
    destruct (active_plugins s !! request) as [[[] b]|] eqn:Hp; try exact Hone.
    unfold run_code. rewrite handle_plugin_dispatch_eq.
    unfold listening, plugin_gone in *. fields.
    rewrite !accepts_app, accepts_replicate by reflexivity. cbn [accepts]. lia.
  - right. unfold step. rewrite Hh. exact Hone.
  - destruct (ready (plugin_context s)) as [|h hs] eqn:Hr.
    + right. unfold step. now rewrite Hh, Hr.
    + rewrite (step_runs_handler _ _ _ Hh Hr).
      unfold listening in Hone. rewrite Hr in Hone.
      destruct h as [error sock|error|error|request]; cbn [invoke].
      * cbn [accepts] in Hone.
        destruct (accept_handler_listening error sock
                    (dequeued (on_accept error sock) hs s)) as [Hq [Hc|Ha]].
        -- left. unfold halted. apply orb_true_iff. right.
           now apply bool_decide_eq_true_2.
        -- right. unfold listening. rewrite Hq, Ha. unfold dequeued. fields.
           destruct (accepting s); lia.
      * right. unfold run_code. destruct (failed error) eqn:Hf.
        -- rewrite (events_timer_handler_canceled _ _ Hf).
           unfold listening, dequeued. fields. exact Hone.
        -- rewrite (events_timer_handler_eq _ _ Hf).
           unfold listening, events_round, dequeued. fields.
           rewrite accepts_app, accepts_replicate by reflexivity.
           cbn [accepts] in Hone. lia.
      * right.
        destruct (invoke_keeps_the_queue (on_shutdown_timer error)
                    (dequeued (on_shutdown_timer error) hs s))
          as (_ & Hq & _); [discriminate|].
        cbn [invoke] in Hq. unfold listening. rewrite Hq.
        unfold run_code. destruct (failed error) eqn:Hf.
        -- rewrite (shutdown_timer_handler_canceled _ _ Hf).
           unfold dequeued. fields. exact Hone.
        -- rewrite (shutdown_timer_handler_eq _ _ Hf).
           destruct (bool_decide _); unfold shut_down, dequeued; fields;
             exact Hone.
      * right. unfold run_code. rewrite erase_eq.
        unfold listening, dequeued. fields.
        destruct (active_plugins s !! request); fields; exact Hone.
Qed.

Lemma started_listening (clock : Z) (queue : Queue) :
  listening (started (Vst2Bridge := Vst2Bridge) (MSG := MSG) clock queue) = 1%nat.
Proof.
  unfold started, run_code, handle_incoming_connections,
    accept_requests, async_handle_events, events_timer_expires_at,
    events_timer_async_wait.
  unfold_code. rewrite post_all_eq. unfold listening. fields.
  unfold GroupBridge_new. fields. reflexivity.
Qed.

Lemma run_listening (s : state) (evs : list event) :
  halted s = true \/ listening s = 1%nat ->
  halted (run s evs) = true \/ listening (run s evs) = 1%nat.
Proof.
  revert s. induction evs as [|ev evs IH]; intros s Hinv; [exact Hinv|].
  rewrite run_cons. apply IH. now apply step_listening.
Qed.

(** X11. The group host keeps listening. Along every run from its start,
    as long as the context was not stopped and every handler has returned,
    one accept is there and one only: it is outstanding on the acceptor, or
    it is over and its handler is ready to be invoked. The handler of an
    accept arms the acceptor again whenever it returns. *)
Theorem group_host_keeps_listening (clock : Z) (queue : Queue)
    (evs : list event) :
  let s := run (started clock queue) evs in
  halted s = false ->
  ((if accepting s then 1 else 0) + accepts (ready (plugin_context s)) = 1)%nat
  /\ forall error sock,
       (accept_handler error sock s).2 = Ok tt ->
       accepting (accept_handler error sock s).1 = true.
Proof.
  intros s Hh.
  destruct (run_listening _ evs (or_intror (started_listening clock queue)))
    as [Hhalted|Hone].
  - fold s in Hhalted. congruence.
  - split; [exact Hone|]. intros error sock.
    accept_cases error sock s; cbn [fst snd]; try discriminate; reflexivity.
Qed.

(** *** Failures of the handshake *)

(** X12. A handshake that fails ends the event loop. When the request
    cannot be read from the accepted socket, when the response cannot be
    written to it, or when the constructor of the plugin bridge throws
    something that is not a [std::runtime_error], the exception leaves the
    handler and with it the event loop: nothing is registered, no thread
    is started, the acceptor is not armed again, and no handler is invoked
    any more. When the request cannot be read, nothing was written to the
    socket either. *)
Theorem failed_handshake_ends_the_event_loop (s : state) (error : error_code)
    (sock : socket) (hs : list handler) (what : string) :
  halted s = false ->
  ready (plugin_context s) = on_accept error sock :: hs ->
  (exists e, incoming sock = Throw e /\ what = error_what e)
  \/ (exists request e,
         incoming sock = Ok request /\ send_error sock = Some e
         /\ what = error_what e)
  \/ (exists request,
         incoming sock = Ok request /\ send_error sock = None
         /\ active_plugins s !! request = None
         /\ Vst2Bridge_new (plugin_path request) (endpoint_base_dir request)
            = Throw (other_exception what)) ->
  let s' := step s runs_handler in
  crashed s' = Some (uncaught what)
  /\ active_plugins s' = active_plugins s
  /\ accepting s' = accepting s
  /\ (forall request, alive request (trace s') = alive request (trace s))
  /\ (forall e, incoming sock = Throw e ->
        trace s' = trace s ++ accept_failure error ++ [read_request])
  /\ forall evs, run s' evs = s'.
Proof.
  intros Hh Hr Hcase s'.
  assert (Hs' : s' = run_code (accept_handler error sock)
                       (dequeued (on_accept error sock) hs s))
    by exact (step_runs_handler _ _ _ Hh Hr).
  assert (Hquiet : forall added : list (effect MSG),
             (forall r, alive r added = 0) ->
             forall r, alive r (trace s ++ accept_failure error ++ added)
                       = alive r (trace s)).
  { intros added Ha r. rewrite !alive_app, alive_accept_failure, Ha. lia. }
  assert (Hover : crashed s' = Some (uncaught what) -> forall evs, run s' evs = s').
  { intros Hc evs. apply run_halted. unfold halted. rewrite Hc.
    apply orb_true_iff. right. apply bool_decide_eq_true_2. eauto. }
  destruct Hcase as [(e & Hi & ->)|[(request & e & Hi & Hs & ->)
                                    |(request & Hi & Hs & Hp & Hc)]].
  - assert (Hst : s' = set_crashed (Some (uncaught (error_what e)))
                         (set_trace (fun t => t ++ [read_request])
                            (accept_prologue error
                               (dequeued (on_accept error sock) hs s)))).
    { rewrite Hs'. unfold run_code.
      now rewrite (accept_handler_unreadable _ _ _ _ Hi). }
    assert (Htr : trace s' = trace s ++ accept_failure error ++ [read_request]).
    { rewrite Hst. unfold accept_prologue, dequeued. fields.
      now rewrite <- app_assoc. }
    split; [now rewrite Hst|]. split; [now rewrite Hst|].
    split; [now rewrite Hst|]. split; [|split].
    + intros r. rewrite Htr. now apply Hquiet.
    + intros _ _. exact Htr.
    + apply Hover. now rewrite Hst.
  - assert (Hst : s' = set_crashed (Some (uncaught (error_what e)))
                         (set_trace (fun t => t ++ [read_request])
                            (accept_prologue error
                               (dequeued (on_accept error sock) hs s)))).
    { rewrite Hs'. unfold run_code.
      now rewrite (accept_handler_unwritable _ _ _ _ _ Hi Hs). }
    assert (Htr : trace s' = trace s ++ accept_failure error ++ [read_request]).
    { rewrite Hst. unfold accept_prologue, dequeued. fields.
      now rewrite <- app_assoc. }
    split; [now rewrite Hst|]. split; [now rewrite Hst|].
    split; [now rewrite Hst|]. split; [|split].
    + intros r. rewrite Htr. now apply Hquiet.
    + intros e' He'. congruence.
    + apply Hover. now rewrite Hst.
  - assert (Hst : s' = set_crashed (Some (uncaught what))
                         (set_trace
                            (fun t => t ++ [read_request;
                                            write_response {| pid := get_id |};
                                            received request;
                                            construct (plugin_path request)
                                              (endpoint_base_dir request)])
                            (accept_prologue error
                               (dequeued (on_accept error sock) hs s)))).
    { rewrite Hs'. unfold run_code.
      now rewrite (accept_handler_unwinds _ _ (dequeued _ hs s) _ _ Hi Hs Hp Hc). }
    split; [now rewrite Hst|]. split; [now rewrite Hst|].
    split; [now rewrite Hst|]. split; [|split].
    + intros r. rewrite Hst. unfold accept_prologue, dequeued. fields.
      rewrite <- app_assoc. now apply Hquiet.
    + intros e' He'. congruence.
    + apply Hover. now rewrite Hst.
Qed.

(** *** A plugin that goes *)

(** X13. A plugin that exits is removed, and nothing else is. From a group
    host that runs with no handler ready and a plugin whose thread is
    inside [handle_dispatch]: when the plugin exits and the removal that
    its thread has posted is handled, the thread is joined and the plugin
    is gone from the registry, in which every other plugin is as it was;
    a registry that had gained the plugin by an insertion is the one from
    before the insertion. The acceptor is as it was, the group host keeps
    running, and the shutdown timer is set to expire two seconds after the
    exit, with one wait on it, the handlers of the waits that this cancels
    being the only ones that are ready. *)
Theorem exited_plugin_leaves_the_registry (s : state)
    (request : GroupRequest) (bridge : Vst2Bridge) :
  halted s = false ->
  ready (plugin_context s) = [] ->
  active_plugins s !! request = Some (dispatching, bridge) ->
  let s2 := run s [plugin_exits request; runs_handler] in
  active_plugins s2 = delete request (active_plugins s)
  /\ (forall m,
         active_plugins s = <[request := (dispatching, bridge)]> m ->
         m !! request = None ->
         active_plugins s2 = m)
  /\ trace s2
     = trace s ++ [log ("'" +:+ plugin_path request +:+ "' has exited");
                   join request]
  /\ (forall r, alive r (trace s2)
                = alive r (trace s) - (if decide (request = r) then 1 else 0))
  /\ accepting s2 = accepting s
  /\ halted s2 = false
  /\ shutdown_timer s2
     = {| expiry := time_add (now s) (seconds 2); waiting := 1 |}
  /\ ready (plugin_context s2)
     = replicate (waiting (shutdown_timer s)) (on_shutdown_timer operation_aborted).
Proof.
  intros Hh Hr Hp s2.
  pose proof Hh as Hh0. apply halted_false in Hh0 as [Hst Hcr].
  assert (Hs2 : s2 = set_active_plugins (delete request)
                       (set_trace (fun t => t ++ [join request])
                          (dequeued (erase_plugin request)
                             (replicate (waiting (shutdown_timer s))
                                (on_shutdown_timer operation_aborted))
                             (plugin_gone request s)))).
  { subst s2. rewrite run_cons. rewrite (step_plugin_exits _ _ _ Hh Hp).
    cbn [run foldl].
    rewrite (step_runs_handler (plugin_gone request s) (erase_plugin request)
               (replicate (waiting (shutdown_timer s))
                  (on_shutdown_timer operation_aborted))).
    - cbn [invoke]. unfold run_code. rewrite erase_eq.
      assert (Hp2 : active_plugins
                      (dequeued (erase_plugin request)
                         (replicate (waiting (shutdown_timer s))
                            (on_shutdown_timer operation_aborted))
                         (plugin_gone request s)) !! request
                    = Some (finished, bridge)).
      { unfold dequeued, plugin_gone. fields.
        rewrite lookup_alter_eq, Hp. reflexivity. }
      now rewrite Hp2.
    - apply halted_false. unfold plugin_gone. fields. auto.
    - unfold plugin_gone. fields. now rewrite Hr. }
  clearbody s2.
  assert (Hplugins : active_plugins s2 = delete request (active_plugins s)).
  { rewrite Hs2. unfold dequeued, plugin_gone. fields.
    apply map_eq. intros k. destruct (decide (k = request)) as [->|Hk].
    - now rewrite !lookup_delete_eq.
    - rewrite !lookup_delete_ne by congruence.
      now rewrite lookup_alter_ne by congruence. }
  assert (Htrace : trace s2
                   = trace s ++ [log ("'" +:+ plugin_path request
                                      +:+ "' has exited");
                                 join request]).
  { rewrite Hs2. unfold plugin_gone, dequeued. fields.
    now rewrite <- !app_assoc. }
  split; [exact Hplugins|].
  split; [|split; [exact Htrace|split; [|split; [|split; [|split]]]]].
  - intros m Hm Hnone. rewrite Hplugins, Hm.
    apply map_eq. intros k. destruct (decide (k = request)) as [->|Hk].
    + now rewrite lookup_delete_eq, Hnone.
    + rewrite lookup_delete_ne by congruence.
      now rewrite lookup_insert_ne by congruence.
  - intros r. rewrite Htrace, alive_app. cbn [alive app].
    case_decide; lia.
  - rewrite Hs2. unfold plugin_gone, dequeued. fields. reflexivity.
  - apply halted_false. rewrite Hs2. unfold plugin_gone, dequeued. fields.
    auto.
  - rewrite Hs2. unfold plugin_gone, dequeued. fields. reflexivity.
  - rewrite Hs2. unfold plugin_gone, dequeued. fields. reflexivity.
Qed.

(** *** The veto on the message loop, and what the loop leaves *)

Lemma asked_NoDup (l : list (GroupRequest * slot)) :
  NoDup l.*1 -> NoDup (asked l).
Proof.
  induction l as [|[k [t b]] l IH]; [constructor|].
  cbn [asked fmap list_fmap fst]. intros Hnd.
  apply NoDup_cons in Hnd as [Hnotin Hnd]. apply NoDup_cons. split.
  - destruct (Vst2Bridge_should_skip_message_loop b); [apply not_elem_of_nil|].
    intros Hin. apply Hnotin. apply list_elem_of_In.
    apply asked_registered. now apply list_elem_of_In.
  - destruct (Vst2Bridge_should_skip_message_loop b); [constructor | auto].
Qed.

(** X14. [should_skip_message_loop] says that the message loop is to be
    skipped exactly when some active plugin says so, and so it says that it
    is not when no plugin is active. It asks active plugins only, none of
    them twice, and it changes nothing. *)
Theorem should_skip_message_loop_spec (s : state) :
  exists (skip : bool) (vetoes : list GroupRequest),
    should_skip_message_loop s
    = (set_trace (fun t => t ++ map skip_asked vetoes) s, Ok skip)
    /\ (skip = true
        <-> exists request sl,
              active_plugins s !! request = Some sl
              /\ Vst2Bridge_should_skip_message_loop sl.2 = true)
    /\ (active_plugins s = ∅ -> skip = false /\ vetoes = [])
    /\ NoDup vetoes
    /\ forall request, In request vetoes -> is_Some (active_plugins s !! request).
Proof.
  exists (any_skips (map_to_list (active_plugins s))),
    (asked (map_to_list (active_plugins s))).
  split; [|split; [|split; [|split]]].
  - unfold should_skip_message_loop. unfold bind, gets.
    apply should_skip_any_eq.
  - apply any_skips_true.
  - intros ->. rewrite map_to_list_empty. auto.
  - apply asked_NoDup, NoDup_fst_map_to_list.
  - intros request Hin. apply asked_registered in Hin.
    apply list_elem_of_In, list_elem_of_fmap in Hin as ([k sl] & -> & Hin).
    apply elem_of_map_to_list in Hin. eauto.
Qed.

Lemma drained_stops (left : nat) (queue : Queue) :
  length (drained left queue).1 = left
  \/ PeekMessage (drained left queue).2 = None.
Proof.
  revert queue. induction left as [|n IH]; intros queue; cbn [drained]; [now left|].
  destruct (PeekMessage queue) as [[msg q']|] eqn:Hp; [|now right].
  specialize (IH (DispatchMessage msg (TranslateMessage msg q'))).
  destruct (drained n (DispatchMessage msg (TranslateMessage msg q')))
    as [msgs final]. cbn [fst snd length] in *.
  destruct IH as [IH|IH]; [left; now rewrite IH | now right].
Qed.

Lemma drained_first (left : nat) (queue queue' : Queue) (msg : MSG) :
  PeekMessage queue = Some (msg, queue') ->
  exists msgs, (drained (S left) queue).1 = msg :: msgs.
Proof.
  intros Hp. cbn [drained]. rewrite Hp.
  destruct (drained left (DispatchMessage msg (TranslateMessage msg queue')))
    as [msgs final]. eauto.
Qed.

(** X15. When no active plugin, its X11 events handled, wants the message
    loop skipped, a round of the event loop handles the messages from the
    first one on and does not stop before its time: it ends with the queue
    giving no message any more, or with as many messages handled as the cap
    allows. Every message it takes is translated and then dispatched before
    the next is taken. *)
Theorem message_loop_is_not_cut_short (s : state) (error : error_code) :
  failed error = false ->
  (forall request sl,
      active_plugins s !! request = Some sl ->
      Vst2Bridge_should_skip_message_loop
        (Vst2Bridge_handle_x11_events sl.2) = false) ->
  let s' := (events_timer_handler error s).1 in
  exists served vetoes msgs,
    trace s' = trace s ++ map x11_events served ++ map skip_asked vetoes
               ++ flat_map (fun msg => [translate msg; dispatch msg]) msgs
    /\ (Z.of_nat (length msgs) = Z.max 0 max_win32_messages
        \/ PeekMessage (messages s') = None)
    /\ (forall msg queue',
           PeekMessage (messages s) = Some (msg, queue') ->
           0 < max_win32_messages ->
           exists msgs', msgs = msg :: msgs').
Proof.
  intros Hf Hno s'. subst s'. rewrite (events_timer_handler_eq _ _ Hf).
  cbn [fst]. unfold events_round. fields.
  assert (Hskip : any_skips (map_to_list (after_x11 (active_plugins s))) = false).
  { destruct (any_skips _) eqn:Hs; [|reflexivity].
    apply any_skips_true in Hs as (request & sl & Hl & Hv).
    unfold after_x11 in Hl. rewrite lookup_fmap in Hl.
    destruct (active_plugins s !! request) as [sl0|] eqn:Hk; [|discriminate].
    injection Hl as <-. cbn [snd] in Hv. now rewrite (Hno _ _ Hk) in Hv. }
  rewrite Hskip.
  exists (map_to_list (active_plugins s)).*1,
    (asked (map_to_list (after_x11 (active_plugins s)))),
    (drained (Z.to_nat max_win32_messages) (messages s)).1.
  split; [|split].
  - now rewrite <- list_fmap_compose.
  - destruct (drained_stops (Z.to_nat max_win32_messages) (messages s))
      as [Hd|Hd]; [left | now right].
    rewrite Hd. lia.
  - intros msg queue' Hp Hmax.
    destruct (Z.to_nat max_win32_messages) as [|n] eqn:Hn; [lia|].
    exact (drained_first n _ _ _ Hp).
Qed.

(** *** The group host shuts down *)

(** The handler of the shutdown timer on an empty registry. *)
Lemma step_shuts_down (s : state) (hs : list handler) :
  halted s = false ->
  active_plugins s = ∅ ->
  ready (plugin_context s) = on_shutdown_timer success :: hs ->
  step s runs_handler
  = shut_down (dequeued (on_shutdown_timer success) hs s).
Proof.
  intros Hh Hp Hr. rewrite (step_runs_handler _ _ _ Hh Hr). cbn [invoke].
  unfold run_code. rewrite shutdown_timer_handler_eq by reflexivity.
  unfold dequeued at 1. fields. now rewrite bool_decide_eq_true_2 by exact Hp.
Qed.

(** What the expiry of a timer changes. *)
Lemma events_timer_expired_fields (s : state) :
  let s' := events_timer_expired s in
  active_plugins s' = active_plugins s
  /\ trace s' = trace s
  /\ stopped (plugin_context s') = stopped (plugin_context s)
  /\ crashed s' = crashed s
  /\ shutdown_timer s' = shutdown_timer s
  /\ now s' = now s
  /\ (ready (plugin_context s') = ready (plugin_context s)
      /\ events_timer s' = events_timer s
      \/ ready (plugin_context s')
         = ready (plugin_context s)
           ++ replicate (waiting (events_timer s)) (on_events_timer success)
         /\ waiting (events_timer s') = 0%nat).
Proof.
  unfold events_timer_expired.
  destruct (expiry (events_timer s) <=? now s); fields; auto 10.
Qed.

Lemma shutdown_timer_expired_fields (s : state) :
  expiry (shutdown_timer s) <= now s ->
  let s' := shutdown_timer_expired s in
  active_plugins s' = active_plugins s
  /\ trace s' = trace s
  /\ stopped (plugin_context s') = stopped (plugin_context s)
  /\ crashed s' = crashed s
  /\ events_timer s' = events_timer s
  /\ now s' = now s
  /\ ready (plugin_context s')
     = ready (plugin_context s)
       ++ replicate (waiting (shutdown_timer s)) (on_shutdown_timer success).
Proof.
  intros Hdue. unfold shutdown_timer_expired.
  replace (expiry (shutdown_timer s) <=? now s) with true
    by (symmetry; now apply Z.leb_le).
  fields. auto 10.
Qed.

(** The handlers that are ready once the clock has reached the expiry time
    of the shutdown timer, when none was ready before: the one of the wait
    on the shutdown timer, and before or after it the one of the events
    timer, if that timer has expired as well. *)
Lemma clock_reaches_shutdown (s : state) (t : Z) :
  halted s = false ->
  ready (plugin_context s) = [] ->
  waiting (shutdown_timer s) = 1%nat ->
  (waiting (events_timer s) <= 1)%nat ->
  expiry (shutdown_timer s) <= t ->
  let s' := step s (clock_reaches t) in
  halted s' = false
  /\ active_plugins s' = active_plugins s
  /\ trace s' = trace s
  /\ (ready (plugin_context s') = [on_shutdown_timer success]
      \/ ready (plugin_context s')
         = [on_shutdown_timer success; on_events_timer success]
      \/ ready (plugin_context s')
         = [on_events_timer success; on_shutdown_timer success]
         /\ waiting (events_timer s') = 0%nat).
Proof.
  intros Hh Hr Hw Hk Ht s'. subst s'.
  apply halted_false in Hh as Hrunning. destruct Hrunning as [Hst Hcr].
  rewrite (step_clock_reaches _ _ Hh). cbv zeta.
  set (s1 := set_now (Z.max (now s) t) s).
  assert (Hdue : expiry (shutdown_timer s1) <= now s1)
    by (unfold s1; fields; lia).
  assert (Hone : forall k, (k <= 1)%nat ->
                           replicate k (on_events_timer success) = []
                           \/ replicate k (on_events_timer success)
                              = [on_events_timer success]).
  { intros [|[|k]] Hle; [now left | now right | lia]. }
  destruct (expiry (shutdown_timer s1) <? expiry (events_timer s1)).
  - destruct (shutdown_timer_expired_fields s1 Hdue)
      as (S1 & S2 & S3 & S4 & S5 & S6 & S7).
    destruct (events_timer_expired_fields (shutdown_timer_expired s1))
      as (E1 & E2 & E3 & E4 & E5 & E6 & E7).
    split; [apply halted_false; rewrite E3, E4, S3, S4; auto|].
    split; [now rewrite E1, S1|]. split; [now rewrite E2, S2|].
    assert (Hsd : ready (plugin_context (shutdown_timer_expired s1))
                  = [on_shutdown_timer success]).
    { rewrite S7. unfold s1. fields. now rewrite Hr, Hw. }
    destruct E7 as [[E7 _]|[E7 _]]; rewrite E7, Hsd; [now left|].
    rewrite S5. unfold s1. fields.
    destruct (Hone _ Hk) as [->| ->]; auto.
  - destruct (events_timer_expired_fields s1)
      as (E1 & E2 & E3 & E4 & E5 & E6 & E7).
    assert (Hdue' : expiry (shutdown_timer (events_timer_expired s1))
                    <= now (events_timer_expired s1)) by now rewrite E5, E6.
    destruct (shutdown_timer_expired_fields (events_timer_expired s1) Hdue')
      as (S1 & S2 & S3 & S4 & S5 & S6 & S7).
    split; [apply halted_false; rewrite S3, S4, E3, E4; auto|].
    split; [now rewrite S1, E1|]. split; [now rewrite S2, E2|].
    rewrite S7, S5, E5. unfold s1 at 2 4 6. fields. rewrite Hw.
    cbn [replicate].
    destruct E7 as [[E7 _]|[E7 E8]]; rewrite E7; unfold s1; fields; rewrite Hr.
    + now left.
    + destruct (Hone _ Hk) as [->| ->]; cbn [app]; auto.
Qed.

(** Once the shutdown timer has expired with its wait on it and no plugin
    is left, the context is stopped after two handlers at most. *)
Lemma expired_shutdown_timer_stops (s : state) (t : Z) :
  halted s = false ->
  active_plugins s = ∅ ->
  ready (plugin_context s) = [] ->
  waiting (shutdown_timer s) = 1%nat ->
  (waiting (events_timer s) <= 1)%nat ->
  expiry (shutdown_timer s) <= t ->
  let s' := run s [clock_reaches t; runs_handler; runs_handler] in
  stopped (plugin_context s') = true
  /\ active_plugins s' = ∅
  /\ exists before,
       trace s' = trace s ++ before
                  ++ [log "All plugins have exited, shutting down the group process";
                      context_stop].
Proof.
  intros Hh Hp Hr Hw Hk Ht s'. subst s'. rewrite run_cons.
  destruct (clock_reaches_shutdown s t Hh Hr Hw Hk Ht)
    as (Hh3 & Hp3 & Ht3 & Hready).
  set (s3 := step s (clock_reaches t)) in *. clearbody s3.
  rewrite Hp in Hp3.
  assert (Hstop : forall (s0 : state) hs evs,
             halted s0 = false -> active_plugins s0 = ∅ ->
             ready (plugin_context s0) = on_shutdown_timer success :: hs ->
             stopped (plugin_context (run s0 (runs_handler :: evs))) = true
             /\ active_plugins (run s0 (runs_handler :: evs)) = ∅
             /\ trace (run s0 (runs_handler :: evs))
                = trace s0
                  ++ [log "All plugins have exited, shutting down the group process";
                      context_stop]).
  { intros s0 hs evs Hh0 Hp0 Hr0.
    rewrite run_cons, (step_shuts_down _ _ Hh0 Hp0 Hr0).
    rewrite run_halted by (unfold halted, shut_down; fields; reflexivity).
    unfold shut_down, dequeued. fields. auto. }
  destruct Hready as [Hr3|[Hr3|[Hr3 Hw3]]].
  - destruct (Hstop s3 [] [runs_handler] Hh3 Hp3 Hr3) as (H1 & H2 & H3).
    split; [exact H1|]. split; [exact H2|]. exists [].
    now rewrite H3, Ht3.
  - destruct (Hstop s3 [on_events_timer success] [runs_handler] Hh3 Hp3 Hr3)
      as (H1 & H2 & H3).
    split; [exact H1|]. split; [exact H2|]. exists [].
    now rewrite H3, Ht3.
  - (* a round of the event loop comes first *)
    rewrite run_cons, (step_runs_handler _ _ _ Hh3 Hr3). cbn [invoke].
    unfold run_code. rewrite events_timer_handler_eq by reflexivity.
    apply halted_false in Hh3 as [Hst3 Hcr3].
    destruct (Hstop (events_round
                       (dequeued (on_events_timer success)
                          [on_shutdown_timer success] s3)) [] [])
      as (H1 & H2 & H3).
    + apply halted_false. unfold events_round, dequeued. fields. auto.
    + unfold events_round, dequeued. fields. rewrite Hp3. apply fmap_empty.
    + unfold events_round, dequeued. fields. now rewrite Hw3.
    + split; [exact H1|]. split; [exact H2|]. rewrite H3.
      unfold events_round, dequeued. fields. rewrite Ht3.
      rewrite <- app_assoc. eexists. reflexivity.
Qed.

(** X19. A group host whose last plugin has exited shuts down. When the
    only plugin that is hosted exits, with no handler ready and no wait on
    the shutdown timer left from before, and no connection is accepted,
    then the removal of the plugin empties the registry, and once the clock
    has reached the time that is two seconds after the exit the context
    is stopped: by the handler of the shutdown timer, which is invoked
    first or after one round of the event loop. *)
Theorem idle_group_host_shuts_down (s : state) (request : GroupRequest)
    (bridge : Vst2Bridge) (t : Z) :
  halted s = false ->
  active_plugins s !! request = Some (dispatching, bridge) ->
  delete request (active_plugins s) = ∅ ->
  ready (plugin_context s) = [] ->
  waiting (shutdown_timer s) = 0%nat ->
  (waiting (events_timer s) <= 1)%nat ->
  time_add (now s) (seconds 2) <= t ->
  let s1 := run s [plugin_exits request; runs_handler] in
  let s2 := run s1 [clock_reaches t; runs_handler; runs_handler] in
  active_plugins s1 = ∅
  /\ stopped (plugin_context s1) = false
  /\ stopped (plugin_context s2) = true
  /\ active_plugins s2 = ∅
  /\ exists before,
       trace s2 = trace s ++ before
                  ++ [log "All plugins have exited, shutting down the group process";
                      context_stop].
Proof.
  intros Hh Hp0 Hp Hr Hw Hk Ht s1 s2.
  pose proof Hh as Hh0. apply halted_false in Hh0 as [Hst Hcr].
  assert (Hs1 : s1 = set_active_plugins (delete request)
                       (set_trace (fun t => t ++ [join request])
                          (dequeued (erase_plugin request) []
                             (plugin_gone request s)))).
  { subst s1. rewrite run_cons, (step_plugin_exits _ _ _ Hh Hp0).
    cbn [run foldl].
    rewrite (step_runs_handler (plugin_gone request s) (erase_plugin request) []).
    - cbn [invoke]. unfold run_code. rewrite erase_eq.
      assert (Hp2 : active_plugins
                      (dequeued (erase_plugin request) [] (plugin_gone request s))
                    !! request = Some (finished, bridge)).
      { unfold dequeued, plugin_gone. fields.
        rewrite lookup_alter_eq, Hp0. reflexivity. }
      now rewrite Hp2.
    - apply halted_false. unfold plugin_gone. fields. auto.
    - unfold plugin_gone. fields. now rewrite Hr, Hw. }
  clearbody s1.
  assert (Hempty : active_plugins s1 = ∅).
  { rewrite Hs1. unfold dequeued, plugin_gone. fields. rewrite <- Hp.
    apply map_eq. intros k. destruct (decide (k = request)) as [->|Hne].
    - now rewrite !lookup_delete_eq.
    - rewrite !lookup_delete_ne by congruence.
      now rewrite lookup_alter_ne by congruence. }
  assert (Hst1 : stopped (plugin_context s1) = false).
  { rewrite Hs1. unfold dequeued, plugin_gone. fields. exact Hst. }
  split; [exact Hempty|]. split; [exact Hst1|].
  destruct (expired_shutdown_timer_stops s1 t) as (H1 & H2 & before & H3).
  - apply halted_false. rewrite Hs1. unfold dequeued, plugin_gone. fields. auto.
  - exact Hempty.
  - rewrite Hs1. unfold dequeued, plugin_gone. fields. reflexivity.
  - rewrite Hs1. unfold dequeued, plugin_gone. fields. reflexivity.
  - rewrite Hs1. unfold dequeued, plugin_gone. fields. exact Hk.
  - rewrite Hs1. unfold dequeued, plugin_gone. fields. exact Ht.
  - split; [exact H1|]. split; [exact H2|].
    exists ([log ("'" +:+ plugin_path request +:+ "' has exited"); join request]
            ++ before).
    subst s2. rewrite H3, Hs1. unfold dequeued, plugin_gone. fields.
    now rewrite <- !app_assoc.
Qed.

(** *** The response comes before the plugin *)

Lemma constructed_app (t u : list (effect MSG)) :
  constructed (t ++ u) = (constructed t + constructed u)%nat.
Proof.
  induction t as [|e t IH]; [reflexivity|].
  destruct e; cbn [app constructed]; rewrite ?IH; reflexivity.
Qed.

Lemma constructed_accept_failure (error : error_code) :
  constructed (accept_failure (MSG := MSG) error) = 0%nat.
Proof. unfold accept_failure. now destruct (failed error). Qed.

(** X20. The plugin is told the id of this process before its plugin is
    loaded. An invocation of the accept handler constructs one plugin
    bridge at most, for the request it has read from the socket, and when
    it constructs one, the response with the id of this process was
    written to the socket just before: after the request was read, and
    with nothing but the log line about the request in between. *)
Theorem response_comes_before_the_plugin (error : error_code)
    (sock : socket) (s : state) :
  let s' := (accept_handler error sock s).1 in
  exists added,
    trace s' = trace s ++ added
    /\ (constructed added = 0%nat
        \/ exists request before after,
             incoming sock = Ok request
             /\ added = before
                        ++ [read_request; write_response {| pid := get_id |};
                            received request;
                            construct (plugin_path request)
                              (endpoint_base_dir request)]
                        ++ after
             /\ constructed before = 0%nat
             /\ constructed after = 0%nat).
Proof.
  intros s'. subst s'.
  accept_cases error sock s; unfold accept_prologue; fields;
    rewrite <- app_assoc; eexists; (split; [reflexivity|]).
  - left. now rewrite constructed_app, constructed_accept_failure.
  - left. now rewrite constructed_app, constructed_accept_failure.
  - right. exists request, (accept_failure error). eexists.
    split; [reflexivity|]. split; [reflexivity|].
    split; [apply constructed_accept_failure | reflexivity].
  - right. exists request, (accept_failure error). eexists.
    split; [reflexivity|]. split; [reflexivity|].
    split; [apply constructed_accept_failure | reflexivity].
  - right. exists request, (accept_failure error), [].
    split; [reflexivity|]. split; [reflexivity|].
    split; [apply constructed_accept_failure | reflexivity].
  - left. now rewrite constructed_app, constructed_accept_failure.
Qed.

(** *** A plugin that has exited is removed *)

Lemma removals_app (request : GroupRequest) (hs hs' : list handler) :
  removals request (hs ++ hs')
  = (removals request hs + removals request hs')%nat.
Proof.
  induction hs as [|h hs IH]; [reflexivity|].
  destruct h; cbn [app removals]; rewrite IH; lia.
Qed.

Lemma removals_others (request : GroupRequest) (hs : list handler) :
  Forall (fun h => forall r, h <> erase_plugin r) hs ->
  removals request hs = 0%nat.
Proof.
  induction hs as [|h hs IH]; [reflexivity|]. intros Hf.
  apply Forall_cons in Hf as [Hh Hf].
  destruct h as [| | |r]; cbn [removals]; auto. now destruct (Hh r).
Qed.

Lemma removals_replicate (request : GroupRequest) (n : nat) (h : handler) :
  (forall r, h <> erase_plugin r) -> removals request (replicate n h) = 0%nat.
Proof.
  intros Hh. apply removals_others.
  induction n; constructor; assumption.
Qed.

Lemma exited_same (s s' : state) (request : GroupRequest) :
  active_plugins s' !! request = active_plugins s !! request ->
  exited s' request = exited s request.
Proof. unfold exited. now intros ->. Qed.

Lemma step_removals (s : state) (ev : event) :
  (forall r, removals r (ready (plugin_context s)) = exited s r) ->
  forall r, removals r (ready (plugin_context (step s ev))) = exited (step s ev) r.
Proof.
  intros Hinv r. destruct (halted s) eqn:Hh; [now rewrite step_halted|].
  destruct ev as [t|error sock|request|request bridge|].
  - destruct (clock_reaches_frame s t Hh) as (_ & _ & Hp & (hs & Hr & Hf) & _).
    rewrite Hr, removals_app, (removals_others _ _ Hf), Nat.add_0_r, Hinv.
    symmetry. apply exited_same. now rewrite Hp.
  - destruct (accepting s) eqn:Ha.
    + rewrite (step_connects _ _ _ Hh Ha). fields.
      rewrite removals_app. cbn [removals]. rewrite Nat.add_0_r, Hinv.
      reflexivity.
    + unfold step. rewrite Hh, Ha. apply Hinv.
  - unfold step. rewrite Hh.
    destruct (active_plugins s !! request) as [[[] b]|] eqn:Hp; try apply Hinv.
    unfold run_code. rewrite handle_plugin_dispatch_eq.
    unfold plugin_gone, exited. fields.
    rewrite !removals_app, removals_replicate by discriminate.
    cbn [removals]. rewrite Hinv. unfold exited.
    destruct (decide (request = r)) as [->|Hne].
    + rewrite lookup_alter_eq, Hp. reflexivity.
    + rewrite lookup_alter_ne by exact Hne. lia.
  - unfold step. rewrite Hh. fields. rewrite Hinv. unfold exited. fields.
    destruct (decide (request = r)) as [->|Hne].
    + rewrite lookup_alter_eq. now destruct (active_plugins s !! r) as [[[] b]|].
    + now rewrite lookup_alter_ne by exact Hne.
  - destruct (ready (plugin_context s)) as [|h hs] eqn:Hr.
    + unfold step. rewrite Hh, Hr, Hr. apply Hinv.
    + rewrite (step_runs_handler _ _ _ Hh Hr).
      pose proof (Hinv r) as Hr0.
      destruct h as [error sock|error|error|request]; cbn [invoke].
      * cbn [removals] in Hr0.
        destruct (invoke_keeps_the_queue (on_accept error sock)
                    (dequeued (on_accept error sock) hs s)) as (_ & Hq & _);
          [discriminate|].
        cbn [invoke] in Hq. rewrite Hq. unfold dequeued at 1. fields.
        rewrite Hr0. unfold run_code.
        accept_cases error sock (dequeued (on_accept error sock) hs s);
          unfold exited, accept_prologue, dequeued; fields; try reflexivity.
        unfold dequeued in Hp. cbn [active_plugins set_handled set_plugin_context] in Hp.
        destruct (decide (request = r)) as [->|Hne].
        -- now rewrite lookup_insert_eq, Hp.
        -- now rewrite lookup_insert_ne by exact Hne.
      * cbn [removals] in Hr0. unfold run_code.
        destruct (failed error) eqn:Hf.
        -- rewrite (events_timer_handler_canceled _ _ Hf).
           unfold exited, dequeued. fields. exact Hr0.
        -- rewrite (events_timer_handler_eq _ _ Hf).
           unfold exited, events_round, dequeued. fields.
           rewrite removals_app, removals_replicate by discriminate.
           rewrite Nat.add_0_r, Hr0. unfold exited, after_x11.
           rewrite lookup_fmap.
           now destruct (active_plugins s !! r) as [[[] b]|].
      * cbn [removals] in Hr0.
        destruct (invoke_keeps_the_queue (on_shutdown_timer error)
                    (dequeued (on_shutdown_timer error) hs s)) as (_ & Hq & _);
          [discriminate|].
        cbn [invoke] in Hq. rewrite Hq. unfold dequeued at 1. fields.
        rewrite Hr0. unfold run_code. destruct (failed error) eqn:Hf.
        -- now rewrite (shutdown_timer_handler_canceled _ _ Hf).
        -- rewrite (shutdown_timer_handler_eq _ _ Hf).
           now destruct (bool_decide _).
      * cbn [removals] in Hr0. unfold run_code. rewrite erase_eq.
        replace (active_plugins (dequeued (erase_plugin request) hs s))
          with (active_plugins s) by reflexivity.
        destruct (decide (request = r)) as [->|Hne].
        -- assert (Hex : exited s r = 1%nat /\ removals r hs = 0%nat).
           { assert (exited s r <= 1)%nat
               by (unfold exited; destruct (active_plugins s !! r) as [[[] b]|]; lia).
             lia. }
           destruct Hex as [Hex Hnone]. unfold exited in Hex.
           destruct (active_plugins s !! r) as [[[] b]|] eqn:Hp; try discriminate.
           unfold exited, dequeued. fields. now rewrite lookup_delete_eq.
        -- assert (Hhs : removals r hs = exited s r) by lia.
           destruct (active_plugins s !! request) eqn:Hp;
             unfold exited, dequeued; fields; rewrite Hhs; unfold exited;
             [now rewrite lookup_delete_ne by exact Hne | reflexivity].
Qed.

Lemma started_removals (clock : Z) (queue : Queue) (r : GroupRequest) :
  removals r (ready (plugin_context
                       (started (Vst2Bridge := Vst2Bridge) (MSG := MSG)
                          clock queue)))
  = exited (started (Vst2Bridge := Vst2Bridge) (MSG := MSG) clock queue) r.
Proof.
  unfold started, run_code, handle_incoming_connections,
    accept_requests, async_handle_events, events_timer_expires_at,
    events_timer_async_wait.
  unfold_code. rewrite post_all_eq. unfold exited. fields.
  unfold GroupBridge_new. fields. now rewrite lookup_empty.
Qed.

Lemma run_removals (s : state) (evs : list event) :
  (forall r, removals r (ready (plugin_context s)) = exited s r) ->
  forall r, removals r (ready (plugin_context (run s evs))) = exited (run s evs) r.
Proof.
  revert s. induction evs as [|ev evs IH]; intros s Hinv; [exact Hinv|].
  rewrite run_cons. apply IH. now apply step_removals.
Qed.

(** X21. A plugin that has exited is removed, once. Along every run of
    the group host from its start, the removal of a plugin is posted and
    still to be handled exactly when the plugin is registered and has
    exited, and it is posted once: no plugin that has exited stays in the
    registry without its removal to come, no plugin is removed while it
    runs, and when a removal is handled its plugin is in the registry. *)
Theorem exited_plugin_is_removed_once (clock : Z) (queue : Queue)
    (evs : list event) :
  let s := run (started clock queue) evs in
  forall request,
    removals request (ready (plugin_context s))
    = match active_plugins s !! request with
      | Some (finished, _) => 1%nat
      | _ => 0%nat
      end.
Proof.
  intros s request.
  exact (run_removals _ evs (started_removals clock queue) request).
Qed.
End HandlerFacts.

(** ** The group host at work *)

Module GroupExamples.
Import SimPlatform.

Lemma registry_has_no_duplicates_witness :
  (accept_handler success (client "synth.dll") hosting).2
  = Throw (assertion_failed "!active_plugins.contains(request)")
  /\ crashed (run_code (accept_handler success (client "synth.dll")) hosting)
     = Some (assertion_failed "!active_plugins.contains(request)").
Proof.
  destruct (registry_has_no_duplicates 1000000000 [0%nat; 7%nat]
              [connects success (client "synth.dll"); runs_handler])
    as (_ & _ & _ & Hdup).
  destruct (Hdup success (client "synth.dll") synth) as (Hthrow & Hcrash & _).
  - vm_compute. reflexivity.
  - vm_compute. reflexivity.
  - exists (dispatching, fresh_bridge). vm_compute. reflexivity.
  - split; [exact Hthrow | exact Hcrash].
Defined.


Lemma construction_failure_is_survived_witness :
  active_plugins (step knocking runs_handler) = active_plugins knocking
  /\ accepting (step knocking runs_handler) = true
  /\ halted (step knocking runs_handler) = false.
Proof.
  destruct (construction_failure_is_survived knocking success
              (client "old.broken.dll") (request_of "old.broken.dll")
              "Could not load the Windows .dll file at 'old.broken.dll'" [])
    as (_ & Hplugins & Haccepting & Hrunning & _).
  - vm_compute. reflexivity.
  - vm_compute. reflexivity.
  - vm_compute. reflexivity.
  - vm_compute. reflexivity.
  - vm_compute. reflexivity.
  - vm_compute. reflexivity.
  - vm_compute. reflexivity.
  - split; [exact Hplugins|]. split; [exact Haccepting | exact Hrunning].
Defined.

Lemma events_round_order_witness :
  exists served vetoes msgs,
    trace (events_timer_handler success opening).1
    = trace opening ++ map x11_events served ++ map skip_asked vetoes
      ++ message_effects msgs
    /\ msgs = [].
Proof.
  destruct (events_round_order opening success ltac:(vm_compute; reflexivity))
    as (served & vetoes & msgs & Htrace & _ & _ & _ & _ & Hveto).
  exists served, vetoes, msgs. split; [exact Htrace|].
  apply Hveto.
  exists synth, (dispatching, {| opening_editor := true; x11_rounds := 1 |}).
  split; vm_compute; reflexivity.
Defined.

(** The events timer of the group host expires five milliseconds after
    the start. The first round is made a millisecond after that, and the
    second one eighty milliseconds after the deadline that the first has
    set. *)
Lemma events_deadline_advances_witness :
  pumped booted [clock_reaches 1006000000; runs_handler;
                 clock_reaches 1118000000; runs_handler]
  = [(1006000000, 1038000000); (1118000000, 1123000000)]
  /\ expiry (events_timer
               (run booted [clock_reaches 1006000000; runs_handler;
                            clock_reaches 1118000000; runs_handler]))
     = 1123000000.
Proof.
  assert (Hr : representable (expiry (events_timer booted))
                 (pumped booted [clock_reaches 1006000000; runs_handler;
                                 clock_reaches 1118000000; runs_handler]).*1).
  { vm_compute. repeat split; discriminate. }
  destruct (events_deadline_advances booted _ Hr) as (_ & _ & Hlast & _).
  split; [vm_compute; reflexivity|].
  rewrite Hlast. vm_compute. reflexivity.
Defined.

(** What the handler does then, in full. *)
Example construction_failure_trace :
  let s' := step knocking runs_handler in
  trace s'
  = trace knocking
    ++ [read_request; write_response {| pid := 4242 |};
        log "Received request to host 'old.broken.dll' using socket endpoint base directory '/tmp/yabridge-old.broken.dll'";
        construct "old.broken.dll" "/tmp/yabridge-old.broken.dll";
        log "Error while initializing 'old.broken.dll':";
        log "Could not load the Windows .dll file at 'old.broken.dll'";
        async_accept]
  /\ active_plugins (run s' [connects success (client "synth.dll"); runs_handler])
     !! synth = Some (dispatching, fresh_bridge).
Proof. vm_compute. repeat split. Qed.

(** C6, as the code has it. The accept fails with [operation_aborted] and
    the socket is not open. The handler logs the error and stops the
    context, and then it reads the request from the socket all the same;
    that the read throws is what ends the handler. *)
Theorem failed_accept_goes_on_with_the_handshake :
  let s := run booted [connects operation_aborted closed_socket; runs_handler] in
  trace s
  = trace booted
    ++ [log "Error while listening for incoming connections:";
        log "Operation canceled"; context_stop; read_request]
  /\ stopped (plugin_context s) = true
  /\ crashed s = Some (uncaught "read: Bad file descriptor").
Proof. vm_compute. repeat split. Qed.

(** The same failure with a socket that can be read and written: after the
    context was stopped the response is written and the plugin is
    constructed and registered. *)
Example failed_accept_registers_a_plugin :
  let s := run booted [connects operation_aborted (client "synth.dll"); runs_handler] in
  trace s
  = trace booted
    ++ [log "Error while listening for incoming connections:";
        log "Operation canceled"; context_stop; read_request;
        write_response {| pid := 4242 |};
        log "Received request to host 'synth.dll' using socket endpoint base directory '/tmp/yabridge-synth.dll'";
        construct "synth.dll" "/tmp/yabridge-synth.dll";
        log "Finished initializing 'synth.dll'"; spawn synth; async_accept]
  /\ active_plugins s !! synth = Some (dispatching, fresh_bridge).
Proof. vm_compute. repeat split. Qed.

(** The timer message posts itself again each time it is dispatched: one
    round handles twenty messages and leaves that message in the queue. *)
Example flood_is_cut_off :
  let s := (events_timer_handler success hosting).1 in
  dispatched (trace s) = 20%nat /\ messages s = [0%nat].
Proof. vm_compute. repeat split. Qed.

(** The plugin exits and none connects: the shutdown timer expires two
    seconds later and its handler, invoked once, stops the context. *)
Example idle_group_shuts_down :
  let s := run hosting [plugin_exits synth; runs_handler;
                        clock_reaches 3000000000; runs_handler; runs_handler] in
  fired (handled s) = 1%nat
  /\ stopped (plugin_context s) = true
  /\ active_plugins s = ∅.
Proof. vm_compute. repeat split. Qed.

(** Another plugin connects within the two seconds: the handler is invoked
    and the context keeps running. *)
Example new_plugin_keeps_the_group :
  let s := run hosting [plugin_exits synth; runs_handler;
                        connects success (client "reverb.dll"); runs_handler;
                        clock_reaches 3000000000; runs_handler; runs_handler] in
  fired (handled s) = 1%nat
  /\ stopped (plugin_context s) = false
  /\ is_Some (active_plugins s !! request_of "reverb.dll").
Proof. vm_compute. repeat split. eexists. reflexivity. Qed.


(** A connection within the two seconds whose plugin does not initialize
    registers nothing: the handler finds the registry empty and stops the
    context. *)
Example broken_plugin_does_not_keep_the_group :
  let s := run hosting [plugin_exits synth; runs_handler;
                        connects success (client "old.broken.dll"); runs_handler;
                        clock_reaches 3000000000; runs_handler; runs_handler] in
  fired (handled s) = 1%nat
  /\ stopped (plugin_context s) = true
  /\ active_plugins s = ∅.
Proof. vm_compute. repeat split. Qed.
End GroupExamples.

(** ** The group host at work, further *)

Module GroupHostExamples.
Import SimPlatform.

Lemma group_host_keeps_listening_witness :
  ((if accepting hosting then 1 else 0)
   + accepts (ready (plugin_context hosting)) = 1)%nat.
Proof.
  refine (proj1 (group_host_keeps_listening (H := platform)
                   1000000000 [0%nat; 7%nat]
                   [connects success (client "synth.dll"); runs_handler] _)).
  vm_compute. reflexivity.
Defined.

(** A client connects and closes the socket before it has sent its
    request. *)
Lemma failed_handshake_ends_the_event_loop_witness :
  let s := run booted [connects success closed_socket] in
  crashed (step s runs_handler) = Some (uncaught "read: Bad file descriptor")
  /\ active_plugins (step s runs_handler) = active_plugins s
  /\ forall evs, run (step s runs_handler) evs = step s runs_handler.
Proof.
  intros s.
  destruct (failed_handshake_ends_the_event_loop s success closed_socket []
              "read: Bad file descriptor")
    as (Hcrashed & Hplugins & _ & _ & _ & Hover).
  - vm_compute. reflexivity.
  - vm_compute. reflexivity.
  - left. eexists. split; reflexivity.
  - split; [exact Hcrashed|]. split; [exact Hplugins | exact Hover].
Defined.

(** The plugin that the group host hosts exits, and is removed. *)
Lemma exited_plugin_leaves_the_registry_witness :
  active_plugins (run hosting [plugin_exits synth; runs_handler])
  = delete synth (active_plugins hosting)
  /\ shutdown_timer (run hosting [plugin_exits synth; runs_handler])
     = {| expiry := 3000000000; waiting := 1 |}.
Proof.
  destruct (exited_plugin_leaves_the_registry hosting synth fresh_bridge)
    as (Hplugins & _ & _ & _ & _ & _ & Htimer & _).
  - vm_compute. reflexivity.
  - vm_compute. reflexivity.
  - vm_compute. reflexivity.
  - split; [exact Hplugins|]. rewrite Htimer. vm_compute. reflexivity.
Defined.

Lemma message_loop_is_not_cut_short_witness :
  exists served vetoes msgs,
    trace (events_timer_handler success hosting).1
    = trace hosting ++ map x11_events served ++ map skip_asked vetoes
      ++ flat_map (fun msg => [translate msg; dispatch msg]) msgs
    /\ (Z.of_nat (length msgs) = Z.max 0 max_win32_messages
        \/ PeekMessage (messages (events_timer_handler success hosting).1) = None).
Proof.
  destruct (message_loop_is_not_cut_short hosting success eq_refl)
    as (served & vetoes & msgs & Htrace & Hstops & _).
  - assert (Hs : active_plugins hosting !! synth = Some (dispatching, fresh_bridge))
      by (vm_compute; reflexivity).
    assert (He : delete synth (active_plugins hosting) = ∅)
      by (vm_compute; reflexivity).
    intros request sl Hl. destruct (decide (request = synth)) as [->|Hne].
    + rewrite Hs in Hl. injection Hl as <-. reflexivity.
    + rewrite <- (lookup_delete_ne _ synth request) in Hl by congruence.
      rewrite He, lookup_empty in Hl. discriminate.
  - exists served, vetoes, msgs. split; [exact Htrace | exact Hstops].
Defined.
Lemma idle_group_host_shuts_down_witness :
  stopped
    (plugin_context
       (run (run hosting [plugin_exits synth; runs_handler])
          [clock_reaches 3000000000; runs_handler; runs_handler])) = true.
Proof.
  destruct (idle_group_host_shuts_down hosting synth fresh_bridge 3000000000)
    as (_ & _ & Hstopped & _).
  - vm_compute. reflexivity.
  - vm_compute. reflexivity.
  - vm_compute. reflexivity.
  - vm_compute. reflexivity.
  - vm_compute. reflexivity.
  - vm_compute. lia.
  - vm_compute. discriminate.
  - exact Hstopped.
Defined.
End GroupHostExamples.

(** ** The captured standard streams *)

Section StdIoCaptureFacts.

Lemma lowest_free_Some (t : gmap Z description) (limit : nat) (fd : Z) :
  unistd.lowest_free t limit = Some fd ->
  t !! fd = None /\ 0 <= fd < Z.of_nat limit.
Proof.
  unfold unistd.lowest_free. intros Hf. apply find_some in Hf as [Hin Hfree].
  split.
  - unfold unistd.is_free in Hfree. now destruct (t !! fd).
  - apply in_map_iff in Hin as (n & <- & Hn). apply in_seq in Hn. lia.
Qed.

(** There is a free descriptor exactly when some descriptor below the limit
    is not open. *)
Lemma lowest_free_None (t : gmap Z description) (limit : nat) :
  unistd.lowest_free t limit = None ->
  forall fd, 0 <= fd < Z.of_nat limit -> is_Some (t !! fd).
Proof.
  unfold unistd.lowest_free. intros Hf fd Hfd.
  pose proof (find_none _ _ Hf (Z.of_nat (Z.to_nat fd))) as Hn.
  rewrite Z2Nat.id in Hn by lia.
  assert (Hin : In fd (List.map Z.of_nat (seq 0 limit))).
  { apply in_map_iff. exists (Z.to_nat fd). split; [lia|].
    apply in_seq. lia. }
  specialize (Hn Hin). unfold unistd.is_free in Hn.
  destruct (t !! fd); [eauto | discriminate].
Qed.

(** What the constructor does when it returns: the three descriptors it
    takes were free and are different, and the world it leaves is the one
    in which the target refers to the write end of the new pipe. *)
Lemma StdIoCapture_new_Ok (file_descriptor : Z) (w w' : descriptors)
    (c : StdIoCapture) (d : description) :
  open_files w !! file_descriptor = Some d ->
  0 <= file_descriptor < Z.of_nat (descriptor_limit w) ->
  StdIoCapture_new file_descriptor w = (w', Ok c) ->
  exists copy rd wr,
    c = {| pipe := Some rd; target_fd := file_descriptor;
           original_fd_copy := copy; pipe_fd := (rd, wr) |}
    /\ open_files w !! copy = None
    /\ open_files w !! rd = None
    /\ open_files w !! wr = None
    /\ copy <> rd /\ copy <> wr /\ rd <> wr
    /\ 0 <= copy /\ 0 <= rd
    /\ w' = {| open_files :=
                 <[file_descriptor := pipe_write_end (pipes_made w)]>
                   (<[rd := pipe_read_end (pipes_made w)]>
                      (<[copy := d]> (open_files w)));
               pipes_made := S (pipes_made w);
               descriptor_limit := descriptor_limit w;
               errno := errno w |}.
Proof.
  intros Hopen Hrange. unfold StdIoCapture_new, unistd.dup. rewrite Hopen.
  destruct (unistd.lowest_free (open_files w) (descriptor_limit w)) as [copy|] eqn:Hcopy.
  - unfold unistd.pipe. cbn [open_files unistd.set_open_files descriptor_limit pipes_made errno].
    destruct (unistd.lowest_free (<[copy:=d]> (open_files w)) (descriptor_limit w))
      as [rd|] eqn:Hrd; [|discriminate].
    destruct (unistd.lowest_free (<[rd:=pipe_read_end (pipes_made w)]>
                             (<[copy:=d]> (open_files w))) (descriptor_limit w))
      as [wr|] eqn:Hwr; [|discriminate].
    apply lowest_free_Some in Hcopy as [Hcopy Hcopy'].
    apply lowest_free_Some in Hrd as [Hrd Hrd'].
    apply lowest_free_Some in Hwr as [Hwr Hwr'].
    assert (Hne1 : copy <> rd).
    { intros ->. now rewrite lookup_insert_eq in Hrd. }
    rewrite lookup_insert_ne in Hrd by exact Hne1.
    assert (Hne2 : rd <> wr).
    { intros ->. now rewrite lookup_insert_eq in Hwr. }
    rewrite lookup_insert_ne in Hwr by exact Hne2.
    assert (Hne3 : copy <> wr).
    { intros ->. now rewrite lookup_insert_eq in Hwr. }
    rewrite lookup_insert_ne in Hwr by exact Hne3.
    assert (Hne4 : wr <> file_descriptor) by congruence.
    assert (Hne5 : rd <> file_descriptor) by congruence.
    assert (Hne6 : copy <> file_descriptor) by congruence.
    unfold unistd.dup2, unistd.close.
    cbn [open_files unistd.set_open_files descriptor_limit pipes_made errno fst snd].
    rewrite lookup_insert_eq.
    replace ((file_descriptor <? 0)
             || (Z.of_nat (descriptor_limit w) <=? file_descriptor)) with false
      by (symmetry; apply orb_false_iff; split; [apply Z.ltb_ge | apply Z.leb_gt]; lia).
    replace (wr =? file_descriptor) with false by (symmetry; apply Z.eqb_neq; exact Hne4).
    cbn [open_files unistd.set_open_files descriptor_limit pipes_made errno].
    rewrite lookup_insert_ne by congruence. rewrite lookup_insert_eq.
    cbn [open_files unistd.set_open_files descriptor_limit pipes_made errno].
    intros [= <- <-]. exists copy, rd, wr.
    repeat (split; [first [reflexivity | assumption | lia]|]).
    unfold unistd.set_open_files.
    cbn [open_files descriptor_limit pipes_made errno].
    f_equal. apply map_eq. intros k.
    destruct (decide (k = wr)) as [->|Hk1].
    + rewrite lookup_delete_eq.
      rewrite !lookup_insert_ne by congruence. now rewrite Hwr.
    + rewrite lookup_delete_ne by congruence.
      destruct (decide (k = file_descriptor)) as [->|Hk2].
      * now rewrite !lookup_insert_eq.
      * rewrite (lookup_insert_ne _ file_descriptor) by congruence.
        rewrite (lookup_insert_ne _ wr) by congruence.
        symmetry. now rewrite (lookup_insert_ne _ file_descriptor) by congruence.
  - unfold unistd.pipe. cbn [open_files unistd.set_errno descriptor_limit pipes_made errno].
    rewrite Hcopy. discriminate.
Qed.

(** What the destructor does to the descriptors, in any world in which the
    copy of the original and the read end of the pipe are still open: the
    target is made to refer to the original again, and the two descriptors
    of the capture are closed. *)
Lemma StdIoCapture_delete_open_files (w : descriptors) (target copy rd wr : Z)
    (d x : description) :
  open_files w !! copy = Some d ->
  open_files w !! rd = Some x ->
  copy <> rd -> copy <> target -> rd <> target ->
  0 <= target < Z.of_nat (descriptor_limit w) ->
  open_files
    (StdIoCapture_delete
       {| pipe := Some rd; target_fd := target; original_fd_copy := copy;
          pipe_fd := (rd, wr) |} w)
  = delete rd (delete copy (<[target := d]> (open_files w))).
Proof.
  intros Hcopy Hrd Hne1 Hne2 Hne3 Hrange.
  unfold StdIoCapture_delete.
  cbn [pipe target_fd original_fd_copy pipe_fd fst snd].
  unfold unistd.dup2. rewrite Hcopy.
  replace ((target <? 0) || (Z.of_nat (descriptor_limit w) <=? target)) with false
    by (symmetry; apply orb_false_iff; split; [apply Z.ltb_ge | apply Z.leb_gt]; lia).
  replace (copy =? target) with false by (symmetry; apply Z.eqb_neq; exact Hne2).
  unfold unistd.close at 1.
  cbn [open_files unistd.set_open_files descriptor_limit pipes_made errno].
  rewrite lookup_insert_ne by congruence. rewrite Hcopy.
  unfold unistd.close at 1.
  cbn [open_files unistd.set_open_files descriptor_limit pipes_made errno].
  rewrite lookup_delete_ne by congruence.
  rewrite lookup_insert_ne by congruence. rewrite Hrd.
  unfold unistd.close.
  cbn [open_files unistd.set_open_files descriptor_limit pipes_made errno].
  rewrite lookup_delete_eq. reflexivity.
Qed.

Lemma restored_open_files (t : gmap Z description) (target copy rd : Z)
    (d r wd : description) :
  t !! target = Some d -> t !! copy = None -> t !! rd = None ->
  delete rd (delete copy (<[target := d]>
    (<[target := wd]> (<[rd := r]> (<[copy := d]> t))))) = t.
Proof.
  intros Ht Hc Hr. apply map_eq. intros k.
  destruct (decide (k = rd)) as [->|Hk1]; [now rewrite lookup_delete_eq, Hr|].
  rewrite lookup_delete_ne by congruence.
  destruct (decide (k = copy)) as [->|Hk2]; [now rewrite lookup_delete_eq, Hc|].
  rewrite lookup_delete_ne by congruence.
  destruct (decide (k = target)) as [->|Hk3]; [now rewrite lookup_insert_eq, Ht|].
  now rewrite !lookup_insert_ne by congruence.
Qed.

(** X1. A capture of an open descriptor and its release. While the capture
    lives, the target refers to the write end of a new pipe, the member
    [pipe] holds the read end of that pipe, a copy refers to what the
    target referred to, the second descriptor of the pipe is closed again,
    and every other descriptor is as it was. The destructor, from any later
    state of the process in which the two descriptors of the capture are
    still open, makes the target refer to the original again and closes
    these two, and so a capture that is released at once leaves the
    descriptors of the process as they were. *)
Theorem capture_is_released (file_descriptor : Z) (w w' : descriptors)
    (c : StdIoCapture) (d : description) :
  open_files w !! file_descriptor = Some d ->
  0 <= file_descriptor < Z.of_nat (descriptor_limit w) ->
  StdIoCapture_new file_descriptor w = (w', Ok c) ->
  (exists rd wr,
      pipe c = Some rd /\ pipe_fd c = (rd, wr)
      /\ target_fd c = file_descriptor
      /\ open_files w !! original_fd_copy c = None
      /\ open_files w !! rd = None
      /\ original_fd_copy c <> rd
      /\ open_files w'
         = <[file_descriptor := pipe_write_end (pipes_made w)]>
             (<[rd := pipe_read_end (pipes_made w)]>
                (<[original_fd_copy c := d]> (open_files w)))
      /\ forall (later : descriptors) x,
           open_files later !! original_fd_copy c = Some d ->
           open_files later !! rd = Some x ->
           descriptor_limit later = descriptor_limit w ->
           open_files (StdIoCapture_delete c later)
           = delete rd (delete (original_fd_copy c)
                          (<[file_descriptor := d]> (open_files later))))
  /\ open_files (StdIoCapture_delete c w') = open_files w.
Proof.
  intros Hopen Hrange Hnew.
  destruct (StdIoCapture_new_Ok _ _ _ _ _ Hopen Hrange Hnew)
    as (copy & rd & wr & -> & Hcopy & Hrd & Hwr & Hne1 & Hne2 & Hne3 & _ & _ & ->).
  cbn [pipe target_fd original_fd_copy pipe_fd open_files].
  assert (Hcf : copy <> file_descriptor) by congruence.
  assert (Hrf : rd <> file_descriptor) by congruence.
  split.
  - exists rd, wr. repeat (split; [first [reflexivity | assumption]|]).
    intros later x Hc Hr Hlimit.
    apply StdIoCapture_delete_open_files with (x := x); try assumption.
    now rewrite Hlimit.
  - rewrite StdIoCapture_delete_open_files
      with (d := d) (x := pipe_read_end (pipes_made w)); try assumption.
    + cbn [open_files]. now apply restored_open_files.
    + cbn [open_files]. rewrite lookup_insert_ne by congruence.
      rewrite lookup_insert_ne by congruence. apply lookup_insert_eq.
    + cbn [open_files]. rewrite lookup_insert_ne by congruence.
      apply lookup_insert_eq.
Qed.

(** X2. A capture that cannot be made. When the target is open and the
    constructor throws, the error is that of [pipe], which found fewer than
    two descriptors free. The target is as it was. When no descriptor was
    free the descriptors of the process are as they were; when one was
    free, it now is a copy of the target, which the constructor made before
    the pipe and which nothing closes. *)
Theorem capture_failure_keeps_the_copy (file_descriptor : Z)
    (w w' : descriptors) (e : std_system_error) (d : description) :
  open_files w !! file_descriptor = Some d ->
  StdIoCapture_new file_descriptor w = (w', Throw e) ->
  code e = unistd.EMFILE
  /\ open_files w' !! file_descriptor = Some d
  /\ (unistd.lowest_free (open_files w) (descriptor_limit w) = None
      /\ open_files w' = open_files w
      \/ exists copy,
           unistd.lowest_free (open_files w) (descriptor_limit w) = Some copy
           /\ open_files w' = <[copy := d]> (open_files w)
           /\ forall fd, 0 <= fd < Z.of_nat (descriptor_limit w) ->
                         fd <> copy ->
                         forall fd', 0 <= fd' < Z.of_nat (descriptor_limit w) ->
                                     fd' <> copy ->
                                     is_Some (open_files w !! fd)
                                     \/ is_Some (open_files w !! fd')
                                     \/ fd = fd').
Proof.
  intros Hopen. unfold StdIoCapture_new, unistd.dup. rewrite Hopen.
  destruct (unistd.lowest_free (open_files w) (descriptor_limit w))
    as [copy|] eqn:Hcopy.
  - unfold unistd.pipe.
    cbn [open_files unistd.set_open_files descriptor_limit pipes_made errno].
    pose proof (lowest_free_Some _ _ _ Hcopy) as [Hfree _].
    assert (Hcf : copy <> file_descriptor) by congruence.
    destruct (unistd.lowest_free (<[copy:=d]> (open_files w)) (descriptor_limit w))
      as [rd|] eqn:Hrd.
    + destruct (unistd.lowest_free
                  (<[rd:=pipe_read_end (pipes_made w)]>
                     (<[copy:=d]> (open_files w))) (descriptor_limit w))
        as [wr|] eqn:Hwr.
      * destruct (unistd.dup2 _ _ _) as [w3 r3].
        destruct (unistd.close _ _) as [w4 r4]. discriminate.
      * intros [= <- <-]. cbn [code errno unistd.set_errno unistd.set_open_files open_files].
        split; [reflexivity|].
        split; [now rewrite lookup_insert_ne by exact Hcf|].
        right. exists copy. split; [reflexivity|]. split; [reflexivity|].
        intros fd Hfd Hne fd' Hfd' Hne'.
        pose proof (lowest_free_Some _ _ _ Hrd) as [Hrdfree _].
        destruct (decide (fd = rd)) as [->|Hfr].
        -- destruct (decide (fd' = rd)) as [->|Hfr']; [auto|].
           right. left.
           pose proof (lowest_free_None _ _ Hwr fd' Hfd') as Hs.
           now rewrite !lookup_insert_ne in Hs by congruence.
        -- left.
           pose proof (lowest_free_None _ _ Hwr fd Hfd) as Hs.
           now rewrite !lookup_insert_ne in Hs by congruence.
    + intros [= <- <-]. cbn [code errno unistd.set_errno unistd.set_open_files open_files].
      split; [reflexivity|].
      split; [now rewrite lookup_insert_ne by exact Hcf|].
      right. exists copy. split; [reflexivity|]. split; [reflexivity|].
      intros fd Hfd Hne fd' Hfd' Hne'. left.
      pose proof (lowest_free_None _ _ Hrd fd Hfd) as Hs.
      now rewrite lookup_insert_ne in Hs by congruence.
  - unfold unistd.pipe.
    cbn [open_files unistd.set_errno descriptor_limit pipes_made errno].
    rewrite Hcopy. intros [= <- <-].
    cbn [code errno unistd.set_errno unistd.set_open_files open_files]. auto.
Qed.

(** X3. A capture of a descriptor that is not open. No copy can be made of
    it, so that the destructor has nothing to restore: it leaves the target
    on the write end of the pipe, of which it closes the read end. This is
    different only when the target is one of the two descriptors that
    [pipe] has taken, in which case it is closed again with the pipe. *)
Theorem capture_of_a_closed_descriptor (file_descriptor : Z)
    (w w' : descriptors) (c : StdIoCapture) :
  open_files w !! file_descriptor = None ->
  open_files w !! (-1) = None ->
  0 <= file_descriptor < Z.of_nat (descriptor_limit w) ->
  StdIoCapture_new file_descriptor w = (w', Ok c) ->
  original_fd_copy c = -1
  /\ open_files (StdIoCapture_delete c w')
     = if decide (file_descriptor = (pipe_fd c).1
                  \/ file_descriptor = (pipe_fd c).2)
       then open_files w
       else <[file_descriptor := pipe_write_end (pipes_made w)]> (open_files w).
Proof.
  intros Hclosed Hminus Hrange. unfold StdIoCapture_new, unistd.dup.
  rewrite Hclosed. unfold unistd.pipe.
  cbn [open_files unistd.set_errno descriptor_limit pipes_made errno].
  destruct (unistd.lowest_free (open_files w) (descriptor_limit w))
    as [rd|] eqn:Hrd; [|discriminate].
  destruct (unistd.lowest_free (<[rd:=pipe_read_end (pipes_made w)]> (open_files w))
              (descriptor_limit w)) as [wr|] eqn:Hwr; [|discriminate].
  apply lowest_free_Some in Hrd as [Hrd Hrd'].
  apply lowest_free_Some in Hwr as [Hwr Hwr'].
  assert (Hne : rd <> wr).
  { intros ->. now rewrite lookup_insert_eq in Hwr. }
  rewrite lookup_insert_ne in Hwr by exact Hne.
  unfold unistd.dup2 at 1.
  cbn [open_files unistd.set_open_files descriptor_limit pipes_made errno fst snd].
  rewrite lookup_insert_eq.
  replace ((file_descriptor <? 0)
           || (Z.of_nat (descriptor_limit w) <=? file_descriptor)) with false
    by (symmetry; apply orb_false_iff; split; [apply Z.ltb_ge | apply Z.leb_gt]; lia).
  assert (Hm1 : rd <> -1) by lia. assert (Hm2 : wr <> -1) by lia.
  assert (Hm3 : file_descriptor <> -1) by lia.
  destruct (Z.eqb_spec wr file_descriptor) as [<-|Hwf].
  - (* the target is the write end *)
    unfold unistd.close at 1.
    cbn [open_files unistd.set_open_files descriptor_limit pipes_made errno].
    rewrite lookup_insert_eq. intros [= <- <-].
    cbn [original_fd_copy pipe_fd fst snd]. split; [reflexivity|].
    rewrite decide_True by auto.
    unfold StdIoCapture_delete.
    cbn [pipe target_fd original_fd_copy pipe_fd fst snd].
    unfold unistd.dup2, unistd.close.
    cbn [open_files unistd.set_open_files unistd.set_errno descriptor_limit
         pipes_made errno fst snd].
    rewrite !lookup_delete_ne by congruence.
    rewrite !lookup_insert_ne by congruence. rewrite Hminus.
    cbn [open_files unistd.set_open_files unistd.set_errno descriptor_limit
         pipes_made errno fst snd].
    rewrite !lookup_delete_ne by congruence.
    rewrite !lookup_insert_ne by congruence. rewrite Hminus.
    cbn [open_files unistd.set_open_files unistd.set_errno descriptor_limit
         pipes_made errno fst snd].
    rewrite !lookup_delete_ne by congruence.
    rewrite lookup_insert_ne by congruence. rewrite lookup_insert_eq.
    cbn [open_files unistd.set_open_files unistd.set_errno descriptor_limit
         pipes_made errno fst snd].
    rewrite lookup_delete_eq.
    cbn [open_files unistd.set_open_files unistd.set_errno descriptor_limit
         pipes_made errno fst snd].
    apply map_eq. intros k.
    destruct (decide (k = rd)) as [->|Hk1]; [now rewrite lookup_delete_eq, Hrd|].
    rewrite lookup_delete_ne by congruence.
    destruct (decide (k = wr)) as [->|Hk2]; [now rewrite lookup_delete_eq, Hwr|].
    rewrite lookup_delete_ne by congruence.
    now rewrite !lookup_insert_ne by congruence.
  - unfold unistd.close at 1.
    cbn [open_files unistd.set_open_files descriptor_limit pipes_made errno].
    rewrite lookup_insert_ne by congruence. rewrite lookup_insert_eq.
    intros [= <- <-].
    cbn [original_fd_copy pipe_fd fst snd]. split; [reflexivity|].
    unfold StdIoCapture_delete.
    cbn [pipe target_fd original_fd_copy pipe_fd fst snd].
    unfold unistd.dup2 at 1.
    cbn [open_files unistd.set_open_files unistd.set_errno descriptor_limit
         pipes_made errno fst snd].
    rewrite lookup_delete_ne by congruence.
    rewrite !lookup_insert_ne by congruence. rewrite Hminus.
    unfold unistd.close at 1.
    cbn [open_files unistd.set_open_files unistd.set_errno descriptor_limit
         pipes_made errno fst snd].
    rewrite lookup_delete_ne by congruence.
    rewrite !lookup_insert_ne by congruence. rewrite Hminus.
    unfold unistd.close at 1.
    cbn [open_files unistd.set_open_files unistd.set_errno descriptor_limit
         pipes_made errno fst snd].
    rewrite lookup_delete_ne by congruence.
    destruct (decide (file_descriptor = rd)) as [->|Hfr].
    + (* the target is the read end *)
      rewrite lookup_insert_eq. rewrite decide_True by auto.
      unfold unistd.close.
      cbn [open_files unistd.set_open_files unistd.set_errno descriptor_limit
           pipes_made errno fst snd].
      rewrite lookup_delete_eq.
      cbn [open_files unistd.set_open_files unistd.set_errno descriptor_limit
           pipes_made errno fst snd].
      apply map_eq. intros k.
      destruct (decide (k = rd)) as [->|Hk1]; [now rewrite lookup_delete_eq, Hrd|].
      rewrite lookup_delete_ne by congruence.
      destruct (decide (k = wr)) as [->|Hk2]; [now rewrite lookup_delete_eq, Hwr|].
      rewrite lookup_delete_ne by congruence.
      now rewrite !lookup_insert_ne by congruence.
    + rewrite lookup_insert_ne by congruence.
      rewrite lookup_insert_ne by congruence. rewrite lookup_insert_eq.
      rewrite decide_False by (intros [?|?]; congruence).
      unfold unistd.close.
      cbn [open_files unistd.set_open_files unistd.set_errno descriptor_limit
           pipes_made errno fst snd].
      rewrite lookup_delete_eq.
      cbn [open_files unistd.set_open_files unistd.set_errno descriptor_limit
           pipes_made errno fst snd].
      apply map_eq. intros k.
      destruct (decide (k = rd)) as [->|Hk1].
      { rewrite lookup_delete_eq. rewrite lookup_insert_ne by congruence.
        now rewrite Hrd. }
      rewrite lookup_delete_ne by congruence.
      destruct (decide (k = wr)) as [->|Hk2].
      { rewrite lookup_delete_eq. rewrite lookup_insert_ne by congruence.
        now rewrite Hwr. }
      rewrite lookup_delete_ne by congruence.
      destruct (decide (k = file_descriptor)) as [->|Hk3];
        [now rewrite !lookup_insert_eq|].
      now rewrite !lookup_insert_ne by congruence.
Qed.

Lemma StdIoCapture_new_Throw (file_descriptor : Z) (w w' : descriptors)
    (e : std_system_error) (d : description) :
  open_files w !! file_descriptor = Some d ->
  StdIoCapture_new file_descriptor w = (w', Throw e) ->
  code e = unistd.EMFILE
  /\ descriptor_limit w' = descriptor_limit w
  /\ (open_files w' = open_files w
      \/ exists copy,
           open_files w !! copy = None
           /\ open_files w' = <[copy := d]> (open_files w)).
Proof.
  intros Hopen. unfold StdIoCapture_new, unistd.dup. rewrite Hopen.
  destruct (unistd.lowest_free (open_files w) (descriptor_limit w))
    as [copy|] eqn:Hcopy.
  - unfold unistd.pipe.
    cbn [open_files unistd.set_open_files descriptor_limit pipes_made errno].
    pose proof (lowest_free_Some _ _ _ Hcopy) as [Hfree _].
    destruct (unistd.lowest_free (<[copy:=d]> (open_files w)) (descriptor_limit w))
      as [rd|] eqn:Hrd.
    + destruct (unistd.lowest_free
                  (<[rd:=pipe_read_end (pipes_made w)]>
                     (<[copy:=d]> (open_files w))) (descriptor_limit w))
        as [wr|] eqn:Hwr.
      * destruct (unistd.dup2 _ _ _) as [w3 r3].
        destruct (unistd.close _ _) as [w4 r4]. discriminate.
      * intros [= <- <-].
        cbn [code errno unistd.set_errno unistd.set_open_files open_files
             descriptor_limit]. eauto 6.
    + intros [= <- <-].
      cbn [code errno unistd.set_errno unistd.set_open_files open_files
           descriptor_limit]. eauto 6.
  - unfold unistd.pipe.
    cbn [open_files unistd.set_errno descriptor_limit pipes_made errno].
    rewrite Hcopy. intros [= <- <-].
    cbn [code errno unistd.set_errno open_files descriptor_limit]. auto.
Qed.

Lemma unistd_close_limit (fd : Z) (w : descriptors) :
  descriptor_limit (unistd.close fd w).1 = descriptor_limit w.
Proof. unfold unistd.close. now destruct (open_files w !! fd). Qed.

Lemma unistd_dup2_limit (oldfd newfd : Z) (w : descriptors) :
  descriptor_limit (unistd.dup2 oldfd newfd w).1 = descriptor_limit w.
Proof.
  unfold unistd.dup2. destruct (open_files w !! oldfd); [|reflexivity].
  destruct (_ || _); [reflexivity|]. now destruct (oldfd =? newfd).
Qed.

Lemma StdIoCapture_delete_limit (c : StdIoCapture) (w : descriptors) :
  descriptor_limit (StdIoCapture_delete c w) = descriptor_limit w.
Proof.
  unfold StdIoCapture_delete.
  destruct (unistd.dup2 _ _ w) as [w1 r1] eqn:H1.
  destruct (unistd.close _ w1) as [w2 r2] eqn:H2.
  destruct (unistd.close _ w2) as [w3 r3] eqn:H3.
  assert (Hl : descriptor_limit w3 = descriptor_limit w).
  { change w3 with (w3, r3).1. rewrite <- H3, unistd_close_limit.
    change w2 with (w2, r2).1. rewrite <- H2, unistd_close_limit.
    change w1 with (w1, r1).1. rewrite <- H1. apply unistd_dup2_limit. }
  destruct (pipe c); [now rewrite unistd_close_limit | exact Hl].
Qed.
End StdIoCaptureFacts.

Module CaptureExamples.
Lemma capture_is_released_witness :
  open_files
    (StdIoCapture_delete
       {| pipe := Some 4; target_fd := STDOUT_FILENO; original_fd_copy := 3;
          pipe_fd := (4, 5) |}
       (StdIoCapture_new STDOUT_FILENO on_a_terminal).1)
  = open_files on_a_terminal.
Proof.
  apply (proj2 (capture_is_released STDOUT_FILENO on_a_terminal
                  (StdIoCapture_new STDOUT_FILENO on_a_terminal).1
                  {| pipe := Some 4; target_fd := STDOUT_FILENO;
                     original_fd_copy := 3; pipe_fd := (4, 5) |}
                  (inherited 0) eq_refl ltac:(vm_compute; split; [discriminate | reflexivity])
                  ltac:(vm_compute; reflexivity))).
Defined.

Lemma capture_failure_keeps_the_copy_witness :
  exists e,
    StdIoCapture_new STDOUT_FILENO short_of_descriptors
    = ((StdIoCapture_new STDOUT_FILENO short_of_descriptors).1, Throw e)
    /\ code e = unistd.EMFILE
    /\ open_files (StdIoCapture_new STDOUT_FILENO short_of_descriptors).1
         !! STDOUT_FILENO = Some (inherited 0).
Proof.
  exists {| code := unistd.EMFILE |}.
  assert (Hnew : StdIoCapture_new STDOUT_FILENO short_of_descriptors
                 = ((StdIoCapture_new STDOUT_FILENO short_of_descriptors).1,
                    Throw {| code := unistd.EMFILE |}))
    by (vm_compute; reflexivity).
  split; [exact Hnew|].
  destruct (capture_failure_keeps_the_copy STDOUT_FILENO short_of_descriptors
              _ _ (inherited 0) eq_refl Hnew) as (Hcode & Htarget & _).
  split; [exact Hcode | exact Htarget].
Defined.

Lemma capture_of_a_closed_descriptor_witness :
  open_files
    (StdIoCapture_delete
       {| pipe := Some 0; target_fd := STDERR_FILENO; original_fd_copy := -1;
          pipe_fd := (0, 1) |}
       (StdIoCapture_new STDERR_FILENO detached).1)
  = <[STDERR_FILENO := pipe_write_end 0]> (open_files detached).
Proof.
  destruct (capture_of_a_closed_descriptor STDERR_FILENO detached
              (StdIoCapture_new STDERR_FILENO detached).1
              {| pipe := Some 0; target_fd := STDERR_FILENO;
                 original_fd_copy := -1; pipe_fd := (0, 1) |}
              eq_refl eq_refl ltac:(vm_compute; split; [discriminate | reflexivity])
              ltac:(vm_compute; reflexivity)) as [_ Hleft].
  exact Hleft.
Defined.
End CaptureExamples.

(** ** The relay of the captured output *)

Section RelayFacts.
Lemma string_app_nil_r (s : string) : s +:+ "" = s.
Proof.
  induction s as [|c s IH]; [reflexivity|].
  rewrite string_app_cons. now rewrite IH.
Qed.

Lemma contains_app (c : ascii) (a b : string) :
  contains c (a +:+ b) = contains c a || contains c b.
Proof.
  induction a as [|d a IH]; [reflexivity|].
  rewrite string_app_cons. simpl. rewrite IH. now rewrite orb_assoc.
Qed.

(** [getline] takes the characters before the first newline. *)
Lemma getline_found (buffer : string) :
  contains newline buffer = true ->
  buffer = (getline buffer).1 +:+ String newline (getline buffer).2
  /\ contains newline (getline buffer).1 = false.
Proof.
  induction buffer as [|c buffer IH]; simpl; [discriminate|].
  destruct (Ascii.eqb_spec c newline) as [->|Hne]; simpl.
  - intros _. auto.
  - intros Hc. destruct (IH Hc) as [Heq Hno].
    destruct (getline buffer) as [line rest]. simpl in *.
    split.
    + rewrite string_app_cons. now rewrite <- Heq.
    + apply orb_false_iff. split; [|exact Hno].
      now apply Ascii.eqb_neq.
Qed.

Lemma split_lines_line (line rest : string) :
  contains newline line = false ->
  split_lines (line +:+ String newline rest)
  = (line :: (split_lines rest).1, (split_lines rest).2).
Proof.
  induction line as [|c line IH]; intros Hno.
  - change ("" +:+ String newline rest) with (String newline rest).
    cbn [split_lines]. rewrite Ascii.eqb_refl. now destruct (split_lines rest).
  - simpl in Hno. apply orb_false_iff in Hno as [Hc Hno].
    rewrite string_app_cons. cbn [split_lines]. rewrite (IH Hno), Hc.
    reflexivity.
Qed.

Lemma split_lines_unfinished (s : string) :
  contains newline s = false -> split_lines s = ([], s).
Proof.
  induction s as [|c s IH]; [reflexivity|]. simpl.
  intros Hno. apply orb_false_iff in Hno as [Hc Hno].
  now rewrite (IH Hno), Hc.
Qed.

(** The lines and the rest are the string, and they hold no newline. *)
Lemma split_lines_joined (s : string) :
  s = joined (map (fun line => line +:+ String newline "") (complete_lines s))
      +:+ unfinished_line s
  /\ Forall (fun line => contains newline line = false) (complete_lines s)
  /\ contains newline (unfinished_line s) = false.
Proof.
  unfold complete_lines, unfinished_line.
  induction s as [|c s (IH1 & IH2 & IH3)]; [simpl; auto|].
  cbn [split_lines]. destruct (split_lines s) as [lines tail].
  cbn [fst snd] in *.
  destruct (Ascii.eqb_spec c newline) as [->|Hne].
  - cbn [fst snd map joined]. split; [|split; [|exact IH3]].
    + change ("" +:+ String newline "") with (String newline "").
      rewrite string_app_assoc. rewrite <- IH1. reflexivity.
    + now constructor.
  - destruct lines as [|line lines]; cbn [fst snd map joined] in *.
    + split; [now rewrite IH1 at 1|]. split; [constructor|].
      simpl. apply orb_false_iff. split; [now apply Ascii.eqb_neq | exact IH3].
    + split; [|split; [|exact IH3]].
      * rewrite IH1 at 1. now rewrite !string_app_cons.
      * inversion IH2 as [|? ? Hl Hls]; subst. constructor; [|exact Hls].
        simpl. apply orb_false_iff. split; [now apply Ascii.eqb_neq | exact Hl].
Qed.

Lemma async_read_until_found (pipe : list read_result) (buffer : string) :
  contains newline buffer = true ->
  async_read_until pipe buffer = (Some success, buffer, pipe).
Proof. intros Hc. destruct pipe as [|[chunk|error] pipe]; simpl; now rewrite Hc. Qed.

Lemma async_log_pipe_lines_line (fuel : nat) (pipe : list read_result)
    (buffer prefix : string) (logged : list string) :
  contains newline buffer = true ->
  async_log_pipe_lines (S fuel) pipe buffer prefix logged
  = async_log_pipe_lines fuel pipe (getline buffer).2 prefix
      (logged ++ [prefix +:+ (getline buffer).1]).
Proof.
  intros Hc. cbn [async_log_pipe_lines]. rewrite (async_read_until_found _ _ Hc).
  cbn. now destruct (getline buffer).
Qed.

Lemma async_log_pipe_lines_read (fuel : nat) (chunk : string)
    (pipe : list read_result) (buffer prefix : string) (logged : list string) :
  contains newline buffer = false ->
  chunk <> "" ->
  async_log_pipe_lines (S fuel) (read_some chunk :: pipe) buffer prefix logged
  = async_log_pipe_lines (S fuel) pipe (buffer +:+ chunk) prefix logged.
Proof.
  intros Hc Hne. cbn [async_log_pipe_lines async_read_until]. rewrite Hc.
  now replace (String.eqb chunk "") with false
    by (symmetry; now apply String.eqb_neq).
Qed.

(** The relay on a pipe that gives [chunks] and then nothing more, or an
    error: from any buffer, with calls enough. *)
Lemma async_log_pipe_lines_run (prefix : string) (fuel : nat)
    (chunks : list string) (ending : list read_result) (buffer : string)
    (logged : list string) :
  Forall (fun chunk => chunk <> "") chunks ->
  match ending with
  | [] => True
  | read_error error :: _ => failed error = true
  | read_some _ :: _ => False
  end ->
  (String.length buffer + String.length (joined chunks) + length chunks < fuel)%nat ->
  async_log_pipe_lines fuel (map read_some chunks ++ ending) buffer prefix logged
  = Some {| logged := logged ++ map (String.append prefix)
                               (complete_lines (buffer +:+ joined chunks));
            buffer := unfinished_line (buffer +:+ joined chunks);
            unread := tl ending;
            reading := match ending with [] => true | _ :: _ => false end |}.
Proof.
  intros Hchunks Hend. revert chunks Hchunks buffer logged.
  induction fuel as [|fuel IHfuel]; intros chunks Hchunks buffer logged Hfuel;
    [lia|].
  revert buffer logged Hfuel.
  induction chunks as [|chunk chunks IHchunks]; intros buffer logged Hfuel.
  - destruct (contains newline buffer) eqn:Hc.
    + rewrite (async_log_pipe_lines_line _ _ _ _ _ Hc).
      destruct (getline_found _ Hc) as [Heq Hno].
      destruct (getline buffer) as [line rest]. cbn [fst snd] in *.
      rewrite (IHfuel [] Hchunks).
      * cbn [joined]. rewrite !string_app_nil_r. rewrite Heq.
        unfold complete_lines, unfinished_line.
        rewrite (split_lines_line _ _ Hno). cbn [fst snd map].
        now rewrite <- app_assoc.
      * cbn [joined length] in *. rewrite Heq in Hfuel.
        rewrite string_length_app in Hfuel. simpl in *. lia.
    + cbn [joined]. rewrite string_app_nil_r.
      unfold complete_lines, unfinished_line.
      rewrite (split_lines_unfinished _ Hc). cbn [fst snd map].
      rewrite app_nil_r. cbn [map app async_log_pipe_lines].
      destruct ending as [|[chunk|error] later]; simpl; rewrite Hc;
        [reflexivity | destruct Hend | now rewrite Hend].
  - destruct (contains newline buffer) eqn:Hc.
    + rewrite (async_log_pipe_lines_line _ _ _ _ _ Hc).
      destruct (getline_found _ Hc) as [Heq Hno].
      destruct (getline buffer) as [line rest]. cbn [fst snd] in *.
      rewrite (IHfuel (chunk :: chunks) Hchunks).
      * rewrite Heq. rewrite string_app_assoc, string_app_cons.
        unfold complete_lines, unfinished_line.
        rewrite (split_lines_line _ _ Hno). cbn [fst snd map].
        now rewrite <- app_assoc.
      * rewrite Heq in Hfuel. rewrite string_length_app in Hfuel.
        simpl in *. lia.
    + apply Forall_cons in Hchunks as [Hchunk Hchunks].
      cbn [map app]. rewrite (async_log_pipe_lines_read _ _ _ _ _ _ Hc Hchunk).
      rewrite (IHchunks Hchunks).
      * cbn [joined]. now rewrite string_app_assoc.
      * cbn [joined length] in Hfuel.
        rewrite !string_length_app in *. lia.
Qed.

Lemma pending_characters_chunks (chunks : list string) (ending : list read_result) :
  (String.length (joined chunks) + length chunks
   <= pending_characters (map read_some chunks ++ ending)
      + length (map read_some chunks ++ ending))%nat.
Proof.
  induction chunks as [|chunk chunks IH]; cbn [joined map app pending_characters length].
  - simpl. lia.
  - rewrite string_length_app. lia.
Qed.

(** X4. The relay of a captured stream logs the stream line by line. When
    the pipe gives the characters of the stream in chunks, however the
    stream is cut into chunks, the lines given to the logger are the lines
    of the stream that a newline ends, in their order, each after the
    prefix and without the newline; what follows the last newline stays in
    the buffer, and a read stays outstanding for more. *)
Theorem relay_logs_the_lines (prefix : string) (chunks : list string)
    (fuel : nat) :
  Forall (fun chunk => chunk <> "") chunks ->
  (enough_calls (map read_some chunks) "" <= fuel)%nat ->
  async_log_pipe_lines fuel (map read_some chunks) "" prefix []
  = Some {| logged := map (String.append prefix) (complete_lines (joined chunks));
            buffer := unfinished_line (joined chunks);
            unread := [];
            reading := true |}
  /\ joined chunks
     = joined (map (fun line => line +:+ String newline "")
                 (complete_lines (joined chunks)))
       +:+ unfinished_line (joined chunks)
  /\ Forall (fun line => contains newline line = false)
       (complete_lines (joined chunks))
  /\ contains newline (unfinished_line (joined chunks)) = false.
Proof.
  intros Hchunks Hfuel. split; [|apply split_lines_joined].
  pose proof (async_log_pipe_lines_run prefix fuel chunks [] "" [] Hchunks I)
    as Hrun.
  rewrite app_nil_r in Hrun. apply Hrun.
  pose proof (pending_characters_chunks chunks []) as Hp.
  rewrite app_nil_r in Hp. unfold enough_calls in Hfuel. simpl in *. lia.
Qed.

(** X5. The relay stops at the first read that fails, as the read does
    that finds the pipe closed. The lines that a newline ended were logged
    before; the characters after the last newline stay in the buffer and
    are not logged, then or later; no read is outstanding any more, and
    what the pipe would give after the failure is never read. *)
Theorem relay_stops_at_an_error (prefix : string) (chunks : list string)
    (error : error_code) (later : list read_result) (fuel : nat) :
  Forall (fun chunk => chunk <> "") chunks ->
  failed error = true ->
  (enough_calls (map read_some chunks ++ read_error error :: later) ""
   <= fuel)%nat ->
  async_log_pipe_lines fuel (map read_some chunks ++ read_error error :: later)
    "" prefix []
  = Some {| logged := map (String.append prefix) (complete_lines (joined chunks));
            buffer := unfinished_line (joined chunks);
            unread := later;
            reading := false |}
  /\ joined chunks
     = joined (map (fun line => line +:+ String newline "")
                 (complete_lines (joined chunks)))
       +:+ unfinished_line (joined chunks).
Proof.
  intros Hchunks Hfailed Hfuel. split; [|apply split_lines_joined].
  apply (async_log_pipe_lines_run prefix fuel chunks
           (read_error error :: later) "" [] Hchunks Hfailed).
  pose proof (pending_characters_chunks chunks (read_error error :: later)) as Hp.
  unfold enough_calls in Hfuel. simpl in *. lia.
Qed.
End RelayFacts.

Module RelayExamples.
Lemma relay_logs_the_lines_witness :
  async_log_pipe_lines 64 (map read_some written) "" "[STDOUT] " []
  = Some {| logged := ["[STDOUT] Loading plugin"; "[STDOUT] ready"];
            buffer := "wai"; unread := []; reading := true |}.
Proof.
  rewrite (proj1 (relay_logs_the_lines "[STDOUT] " written 64
                    ltac:(repeat constructor; discriminate)
                    ltac:(vm_compute; lia))).
  vm_compute. reflexivity.
Defined.

Lemma relay_stops_at_an_error_witness :
  async_log_pipe_lines 64
    (map read_some written
     ++ [read_error eof; read_some ("ting" +:+ String newline "")])
    "" "[STDERR] " []
  = Some {| logged := ["[STDERR] Loading plugin"; "[STDERR] ready"];
            buffer := "wai";
            unread := [read_some ("ting" +:+ String newline "")];
            reading := false |}.
Proof.
  rewrite (proj1 (relay_stops_at_an_error "[STDERR] " written eof
                    [read_some ("ting" +:+ String newline "")] 64
                    ltac:(repeat constructor; discriminate) eq_refl
                    ltac:(vm_compute; lia))).
  vm_compute. reflexivity.
Defined.
End RelayExamples.

(** ** More on the endpoint acceptor *)

Section EndpointAcceptorCalls.
Context {World : Type} `{LocalSockets World}.

(** X6. Whatever the host is like, [create_acceptor_if_inactive] makes one
    of four sequences of calls. It binds, and is done when that succeeds.
    When the bind fails it reads the list of open sockets, and throws the
    failure of the bind when a line ends with the path. Only when none does
    it removes a file, once, and the file it removes is the endpoint; when
    the removal throws, that exception is the result and no second bind is
    made. Otherwise it binds a second and last time. *)
Theorem create_acceptor_if_inactive_calls (endpoint : string) (w : World)
    (log : list syscall) :
  let out := create_acceptor_if_inactive endpoint (w, log) in
  (exists w1 a,
      acceptor_new endpoint w = (w1, Ok a)
      /\ out = ((w1, log ++ [sys_acceptor_new endpoint]), Ok a))
  \/ (exists w1 error,
         acceptor_new endpoint w = (w1, Throw error)
         /\ another_process_listening endpoint (getlines (proc_net_unix w1)) = true
         /\ out = ((w1, log ++ [sys_acceptor_new endpoint; sys_read_open_sockets]),
                   Throw (exn_system error)))
  \/ (exists w1 error w2 e,
         acceptor_new endpoint w = (w1, Throw error)
         /\ another_process_listening endpoint (getlines (proc_net_unix w1)) = false
         /\ fs_remove endpoint w1 = (w2, Throw e)
         /\ out = ((w2, log ++ [sys_acceptor_new endpoint; sys_read_open_sockets;
                                sys_remove endpoint]),
                   Throw (exn_filesystem e)))
  \/ (exists w1 error w2 removed w3 r,
         acceptor_new endpoint w = (w1, Throw error)
         /\ another_process_listening endpoint (getlines (proc_net_unix w1)) = false
         /\ fs_remove endpoint w1 = (w2, Ok removed)
         /\ acceptor_new endpoint w2 = (w3, r)
         /\ out = ((w3, log ++ [sys_acceptor_new endpoint; sys_read_open_sockets;
                                sys_remove endpoint; sys_acceptor_new endpoint]),
                   match r with
                   | Ok a => Ok a
                   | Throw e => Throw (exn_system e)
                   end)).
Proof.
  intros out. subst out.
  destruct (acceptor_new endpoint w) as [w1 [a|error]] eqn:Hb.
  - left. exists w1, a. split; [reflexivity|]. now apply create_acceptor_bound.
  - right.
    destruct (another_process_listening endpoint (getlines (proc_net_unix w1)))
      eqn:Hp.
    + left. exists w1, error. split; [reflexivity|]. split; [exact Hp|].
      now apply create_acceptor_live.
    + right. destruct (fs_remove endpoint w1) as [w2 [removed|e]] eqn:Hr.
      * right. destruct (acceptor_new endpoint w2) as [w3 r] eqn:Hb2.
        exists w1, error, w2, removed, w3, r.
        repeat (split; [first [reflexivity | assumption]|]).
        now apply create_acceptor_stale with (w1 := w1) (w2 := w2)
          (error := error) (removed := removed).
      * left. exists w1, error, w2, e.
        repeat (split; [first [reflexivity | assumption]|]).
        unfold create_acceptor_if_inactive, call_acceptor_new,
          call_read_open_sockets, call_remove. simpl.
        rewrite Hb. simpl. rewrite Hp, Hr. now rewrite <- !app_assoc.
Qed.

(** X7. When the list of open sockets cannot be read, so that it has no
    lines, every endpoint on which the bind fails is taken for a stale one,
    whoever listens on it: the failure of the bind is never thrown again,
    and [fs::remove] is called on the file of the endpoint. When that
    throws, its exception is the result and no second bind is made; when it
    returns, the bind is made again, and what that second bind returns or
    throws is the result. *)
Theorem unreadable_list_is_taken_for_stale (endpoint : string) (w w1 : World)
    (log : list syscall) (error : system_error) :
  acceptor_new endpoint w = (w1, Throw error) ->
  proc_net_unix w1 = "" ->
  let out := create_acceptor_if_inactive endpoint (w, log) in
  (exists w2 e,
      fs_remove endpoint w1 = (w2, Throw e)
      /\ out = ((w2, log ++ [sys_acceptor_new endpoint; sys_read_open_sockets;
                             sys_remove endpoint]),
                Throw (exn_filesystem e)))
  \/ (exists w2 removed w3 r,
         fs_remove endpoint w1 = (w2, Ok removed)
         /\ acceptor_new endpoint w2 = (w3, r)
         /\ out = ((w3, log ++ [sys_acceptor_new endpoint; sys_read_open_sockets;
                                sys_remove endpoint; sys_acceptor_new endpoint]),
                   match r with
                   | Ok a => Ok a
                   | Throw e => Throw (exn_system e)
                   end)).
Proof.
  intros Hb Hl out. subst out.
  assert (Hp : another_process_listening endpoint (getlines (proc_net_unix w1))
               = false) by now rewrite Hl.
  destruct (fs_remove endpoint w1) as [w2 [removed|e]] eqn:Hr.
  - right. destruct (acceptor_new endpoint w2) as [w3 r] eqn:Hb2.
    exists w2, removed, w3, r.
    split; [first [reflexivity | assumption]|].
    split; [first [reflexivity | assumption]|].
    now apply create_acceptor_stale with (w1 := w1) (w2 := w2)
      (error := error) (removed := removed).
  - left. exists w2, e. split; [first [reflexivity | assumption]|].
    now apply create_acceptor_unremovable with (w1 := w1) (error := error).
Qed.
End EndpointAcceptorCalls.

Module ChrootExamples.
Import SimHost.

(** A group host listens on the socket, and a second one is started where
    the list of open sockets cannot be read: it removes the socket of the
    first and listens on a socket of its own. *)
Lemma unreadable_list_is_taken_for_stale_witness :
  create_acceptor_if_inactive (H := Chroot.sockets) group_socket (live, [])
  = (({| files := [group_socket]; listening := [group_socket; group_socket];
         read_only := [] |},
      [sys_acceptor_new group_socket; sys_read_open_sockets;
       sys_remove group_socket; sys_acceptor_new group_socket]),
     Ok {| local_endpoint := group_socket |}).
Proof.
  destruct (unreadable_list_is_taken_for_stale (H := Chroot.sockets)
              group_socket live live [] in_use eq_refl eq_refl)
    as [(w2 & e & Hr & _)|(w2 & removed & w3 & r & _ & _ & _)].
  - discriminate Hr.
  - reflexivity.
Defined.
End ChrootExamples.

(** ** More on the logger prefix *)

Section LoggerPrefixPaths.
Lemma consists_of_app (c : ascii) (a b : string) :
  consists_of c (a +:+ b) = consists_of c a && consists_of c b.
Proof.
  induction a as [|d a IH]; [reflexivity|].
  rewrite string_app_cons. simpl. rewrite IH. now rewrite andb_assoc.
Qed.

Lemma ends_with_char_contains (c : ascii) (s : string) :
  ends_with_char c s = true -> contains c s = true.
Proof.
  induction s as [|d s IH]; [discriminate|].
  simpl. destruct s as [|d' s'].
  - intros ->. reflexivity.
  - intros He. rewrite (IH He). apply orb_true_r.
Qed.

Lemma ends_with_char_app (c : ascii) (a b : string) :
  b <> "" -> ends_with_char c (a +:+ b) = ends_with_char c b.
Proof.
  intros Hb. induction a as [|d a IH]; [reflexivity|].
  rewrite string_app_cons. cbn [ends_with_char]. rewrite IH.
  destruct (a +:+ b) eqn:Hab; [|reflexivity].
  destruct a; [|discriminate]. destruct b; [congruence | discriminate].
Qed.

Lemma after_last_app (sep : ascii) (dir name : string) :
  contains sep name = false ->
  after_last sep (dir +:+ String sep name) = name.
Proof.
  intros Hn. induction dir as [|c dir IH].
  - change ("" +:+ String sep name) with (String sep name).
    cbn [after_last]. now rewrite Hn, Ascii.eqb_refl.
  - rewrite string_app_cons. cbn [after_last].
    rewrite contains_app. cbn [contains]. rewrite Ascii.eqb_refl.
    now rewrite orb_true_r.
Qed.

Lemma before_last_app (sep : ascii) (stem ext : string) :
  contains sep ext = false ->
  before_last sep (stem +:+ String sep ext) = stem.
Proof.
  intros Hn. induction stem as [|c stem IH].
  - change ("" +:+ String sep ext) with (String sep ext).
    cbn [before_last]. now rewrite Hn, Ascii.eqb_refl.
  - rewrite string_app_cons. cbn [before_last].
    rewrite contains_app. cbn [contains]. rewrite Ascii.eqb_refl.
    rewrite orb_true_r. now rewrite IH.
Qed.

(** The file name of a path is what follows its last separator. *)
Lemma filename_app (dir name : string) :
  name <> "" -> contains slash name = false ->
  filename (dir +:+ String slash name) = name.
Proof.
  intros Hne Hn. unfold filename.
  assert (H1 : String.eqb (dir +:+ String slash name) "" = false).
  { destruct dir; reflexivity. }
  assert (H2 : consists_of slash (dir +:+ String slash name) = false).
  { rewrite consists_of_app. cbn [consists_of]. rewrite Ascii.eqb_refl.
    destruct name as [|c name]; [congruence|]. simpl in *.
    apply orb_false_iff in Hn as [Hc _]. rewrite Hc. simpl.
    apply andb_false_r. }
  assert (H3 : ends_with_char slash (dir +:+ String slash name) = false).
  { rewrite ends_with_char_app by discriminate. cbn [ends_with_char].
    destruct name as [|c name]; [congruence|].
    destruct (ends_with_char slash (String c name)) eqn:He; [|reflexivity].
    apply ends_with_char_contains in He. congruence. }
  rewrite H1, H2, H3. now apply after_last_app.
Qed.

(** The extension is what follows the last dot. *)
Lemma replace_extension_app (stem ext : string) (c : ascii) :
  Ascii.eqb c dot = false -> contains dot ext = false ->
  replace_extension (String c stem +:+ String dot ext) = String c stem.
Proof.
  intros Hc Hn. unfold replace_extension.
  rewrite before_last_app by exact Hn.
  rewrite string_app_cons.
  assert (H1 : String.eqb (String c (stem +:+ String dot ext)) "." = false).
  { apply String.eqb_neq. intros [= -> _]. discriminate Hc. }
  assert (H2 : String.eqb (String c (stem +:+ String dot ext)) ".." = false).
  { apply String.eqb_neq. intros [= -> _]. discriminate Hc. }
  now rewrite H1, H2.
Qed.

Lemma string_app_inv_tail (a b c : string) : a +:+ c = b +:+ c -> a = b.
Proof.
  intros He. apply (f_equal list_ascii_of_string) in He.
  rewrite !list_ascii_app in He. apply app_inv_tail in He.
  rewrite <- (string_of_list_ascii_of_string a), He.
  apply string_of_list_ascii_of_string.
Qed.

Lemma string_app_inv_head (a b c : string) : c +:+ a = c +:+ b -> a = b.
Proof.
  induction c as [|x c IH]; [auto|].
  rewrite !string_app_cons. intros [= He]. auto.
Qed.

(** The prefix of a socket whose name is of the pattern. *)
Lemma create_logger_prefix_group (i386 : bool) (socket_path g id arch : string) :
  names_group (replace_extension (filename socket_path)) g id arch ->
  create_logger_prefix i386 socket_path
  = "[" +:+ g +:+ (if i386 then "-x32" else "") +:+ "] ".
Proof.
  intros Hn. unfold create_logger_prefix.
  rewrite (names_group_match _ _ _ _ Hn). cbn [nth].
  rewrite string_of_list_ascii_of_string.
  destruct i386; [now rewrite string_app_assoc | reflexivity].
Qed.

(** X8. The prefix of a group socket, from its path as the plugin makes
    it: a directory, the file name that starts with yabridge-group- and
    goes on with the name of the group, the id of the Wine prefix and the
    architecture, with a dash before each of the last two, and an
    extension. Whatever the directory and the extension are, and whatever
    dashes and dots the name of the group holds, the prefix is the name of
    the group between brackets, with -x32 after it in the 32 bit build. *)
Theorem group_socket_path_prefix (i386 : bool) (dir g id arch ext : string) :
  contains slash g = false ->
  contains newline g = false -> contains carriage_return g = false ->
  id <> "" -> contains dash id = false -> contains slash id = false ->
  arch <> "" -> contains dash arch = false -> contains slash arch = false ->
  contains dot ext = false -> contains slash ext = false ->
  create_logger_prefix i386
    (dir +:+ "/yabridge-group-" +:+ g +:+ "-" +:+ id +:+ "-" +:+ arch
     +:+ "." +:+ ext)
  = "[" +:+ g +:+ (if i386 then "-x32" else "") +:+ "] ".
Proof.
  intros Hg1 Hg2 Hg3 Hi1 Hi2 Hi3 Ha1 Ha2 Ha3 He1 He2.
  set (stem := "abridge-group-" +:+ g +:+ "-" +:+ id +:+ "-" +:+ arch).
  assert (Hpath : dir +:+ "/yabridge-group-" +:+ g +:+ "-" +:+ id +:+ "-"
                  +:+ arch +:+ "." +:+ ext
                  = dir +:+ String slash (String "y" stem +:+ String dot ext)).
  { unfold stem. rewrite (string_app_cons "y"), !string_app_assoc. reflexivity. }
  assert (Hname : replace_extension
                    (filename (dir +:+ String slash
                                 (String "y" stem +:+ String dot ext)))
                  = String "y" stem).
  { rewrite filename_app.
    - now apply replace_extension_app.
    - rewrite string_app_cons. discriminate.
    - unfold stem. rewrite string_app_cons. cbn [contains].
      rewrite !contains_app. cbn [contains].
      rewrite Hg1, Hi3, Ha3, He2. reflexivity. }
  apply create_logger_prefix_group with (id := id) (arch := arch).
  rewrite Hpath, Hname. unfold names_group.
  repeat (split; [first [reflexivity | assumption]|]). assumption.
Qed.

(** X9. Among the sockets whose names are of the pattern, the prefix tells
    the groups apart and nothing else: in one build, two sockets have the
    same prefix exactly when the names of their groups are the same,
    whatever their Wine prefixes and architectures are. Between the builds
    the mark of the 32 bit build does not tell them apart: a group has the
    same prefix in the 32 bit build as the group of that name with -x32
    after it has in the other. *)
Theorem logger_prefix_identifies_the_group
    (path1 path2 g1 id1 arch1 g2 id2 arch2 : string) :
  names_group (replace_extension (filename path1)) g1 id1 arch1 ->
  names_group (replace_extension (filename path2)) g2 id2 arch2 ->
  (forall i386,
      create_logger_prefix i386 path1 = create_logger_prefix i386 path2
      <-> g1 = g2)
  /\ (create_logger_prefix true path1 = create_logger_prefix false path2
      <-> g2 = g1 +:+ "-x32").
Proof.
  intros Hn1 Hn2. split.
  - intros i386.
    rewrite (create_logger_prefix_group i386 _ _ _ _ Hn1).
    rewrite (create_logger_prefix_group i386 _ _ _ _ Hn2).
    split; [|now intros ->].
    intros He. apply string_app_inv_head in He.
    rewrite <- !string_app_assoc in He. apply string_app_inv_tail in He.
    now apply string_app_inv_tail in He.
  - rewrite (create_logger_prefix_group true _ _ _ _ Hn1).
    rewrite (create_logger_prefix_group false _ _ _ _ Hn2).
    split.
    + intros He. apply string_app_inv_head in He.
      change (g2 +:+ "" +:+ "] ") with (g2 +:+ "] ") in He.
      rewrite <- string_app_assoc in He. now apply string_app_inv_tail in He.
    + intros ->. now rewrite string_app_assoc.
Qed.
End LoggerPrefixPaths.

Module LoggerPrefixExamples.
Lemma group_socket_path_prefix_witness :
  create_logger_prefix true
    "/run/user/1000/yabridge-group-my-synths.v2-1337-x64.sock"
  = "[my-synths.v2-x32] ".
Proof.
  apply (group_socket_path_prefix true "/run/user/1000" "my-synths.v2" "1337"
           "x64" "sock"); first [reflexivity | discriminate].
Defined.

Lemma logger_prefix_identifies_the_group_witness :
  create_logger_prefix true "/tmp/yabridge-group-synths-1337-x32.sock"
  = create_logger_prefix false "/tmp/yabridge-group-synths-x32-4242-x64.sock".
Proof.
  apply (proj2 (logger_prefix_identifies_the_group
                  "/tmp/yabridge-group-synths-1337-x32.sock"
                  "/tmp/yabridge-group-synths-x32-4242-x64.sock"
                  "synths" "1337" "x32" "synths-x32" "4242" "x64"
                  ltac:(repeat split; first [reflexivity | discriminate])
                  ltac:(repeat split; first [reflexivity | discriminate]))).
  reflexivity.
Defined.
End LoggerPrefixExamples.

(** ** The rate of the event loop *)

Section EventLoopRate.
Context {Vst2Bridge MSG Queue : Type} `{Platform Vst2Bridge MSG Queue}.

Lemma deadlines_timely (expiry : Z) (clock : list Z) (i : nat) (d : Z) :
  representable expiry clock ->
  timely expiry clock ->
  deadlines expiry clock !! i = Some d ->
  d = expiry + (Z.of_nat i + 1) * event_loop_interval.
Proof.
  revert expiry i. induction clock as [|now clock IH]; intros expiry i Hr Ht Hd.
  - destruct i; discriminate.
  - cbn [representable] in Hr. destruct Hr as (H1 & H2 & H3 & H4 & Hr).
    cbn [timely] in Ht. destruct Ht as [Hnow Ht].
    assert (Hnext : next_events_deadline expiry now = expiry + event_loop_interval).
    { rewrite next_events_deadline_exact by assumption. lia. }
    cbn [deadlines] in Hd. rewrite Hnext in Hd, Hr.
    destruct i as [|i].
    + injection Hd as <-. lia.
    + cbn [lookup list_lookup] in Hd. rewrite (IH _ i Hr Ht Hd). lia.
Qed.

Lemma last_cons (d e : Z) (l : list Z) :
  List.last (d :: l) e = List.last l d.
Proof.
  revert d e. induction l as [|x l IH]; intros d e; [reflexivity|].
  change (List.last (d :: x :: l) e) with (List.last (x :: l) e).
  now rewrite (IH x e), (IH x d).
Qed.

Lemma deadlines_late (expiry : Z) (early : list Z) (now : Z) (late : list Z) :
  representable expiry (early ++ now :: late) ->
  List.last (deadlines expiry early) expiry + event_loop_interval
  < now + event_loop_slack ->
  deadlines expiry (early ++ now :: late)
  = deadlines expiry early
    ++ (now + event_loop_slack) :: deadlines (now + event_loop_slack) late.
Proof.
  revert expiry. induction early as [|t early IH]; intros expiry Hr Hlate.
  - cbn [app deadlines]. cbn [deadlines List.last] in Hlate.
    cbn [app representable] in Hr. destruct Hr as (H1 & H2 & H3 & H4 & Hr).
    assert (Hnext : next_events_deadline expiry now = now + event_loop_slack).
    { rewrite next_events_deadline_exact by assumption. lia. }
    now rewrite Hnext.
  - cbn [app deadlines]. f_equal.
    cbn [app representable] in Hr. destruct Hr as (_ & _ & _ & _ & Hr).
    apply (IH _ Hr). cbn [deadlines] in Hlate. now rewrite last_cons in Hlate.
Qed.

(** X16. The event loop keeps its rate. In every run of the group host,
    as long as each round of the event loop calls [async_handle_events]
    while the deadline that is one interval after the last one is still the
    slack away, the expiry times that the rounds give the events timer are
    exactly one interval apart: the one of the round [i] counted from
    nought is [i + 1] intervals after the expiry time at the start,
    whatever the rounds took, and nothing adds up. A round that makes the
    call later than that sets the deadline the slack after the call, and
    the time lost is not made up for: the deadlines after it are counted
    from that one. *)
Theorem event_loop_keeps_its_rate (s : GroupBridge Vst2Bridge MSG Queue)
    (evs : list (@event Vst2Bridge)) :
  representable (expiry (events_timer s)) (pumped s evs).*1 ->
  (timely (expiry (events_timer s)) (pumped s evs).*1 ->
   forall i d,
     (pumped s evs).*2 !! i = Some d ->
     d = expiry (events_timer s) + (Z.of_nat i + 1) * event_loop_interval)
  /\ (forall early now late,
         (pumped s evs).*1 = early ++ now :: late ->
         let before :=
           List.last (deadlines (expiry (events_timer s)) early)
             (expiry (events_timer s)) in
         before + event_loop_interval < now + event_loop_slack ->
         (pumped s evs).*2
         = deadlines (expiry (events_timer s)) early
           ++ (now + event_loop_slack) :: deadlines (now + event_loop_slack) late).
Proof.
  intros Hr. rewrite pumped_deadlines. split.
  - intros Ht i d. now apply deadlines_timely.
  - intros early now late Heq before Hlate. rewrite Heq in Hr |- *.
    now apply deadlines_late.
Qed.
End EventLoopRate.

Module EventLoopRateExamples.
Import SimPlatform.

(** Three rounds from the start of the group host, whose events timer
    expires five milliseconds after the start: the first is over a
    millisecond after that, the second is late by two milliseconds, and the
    third is in time again. *)
Lemma event_loop_keeps_its_rate_witness :
  (pumped booted [clock_reaches 1006000000; runs_handler;
                  clock_reaches 1068000000; runs_handler;
                  clock_reaches 1080000000; runs_handler]).*2
  = [1038000000; 1073000000; 1106000000].
Proof.
  assert (Hr : representable (expiry (events_timer booted))
                 (pumped booted [clock_reaches 1006000000; runs_handler;
                                 clock_reaches 1068000000; runs_handler;
                                 clock_reaches 1080000000; runs_handler]).*1).
  { vm_compute. repeat split; discriminate. }
  destruct (event_loop_keeps_its_rate booted _ Hr) as [_ Hlate].
  rewrite (Hlate [1006000000] 1068000000 [1080000000]).
  - vm_compute. reflexivity.
  - vm_compute. reflexivity.
  - vm_compute. reflexivity.
Defined.
End EventLoopRateExamples.

(** ** The construction of the group host *)

Section GroupBridgeConstructionFacts.
Context {World : Type} `{LocalSockets World} {Logger : Type}.
Variable Logger_create_from_environment : string -> Logger.
Variable endpoint_new : string -> result system_error string.

(** The two captures of the constructor, made one after the other. *)
Lemma two_captures (fds fds1 fds2 : descriptors) (c1 c2 : StdIoCapture)
    (out err : description) :
  open_files fds !! STDOUT_FILENO = Some out ->
  open_files fds !! STDERR_FILENO = Some err ->
  (2 < descriptor_limit fds)%nat ->
  StdIoCapture_new STDOUT_FILENO fds = (fds1, Ok c1) ->
  StdIoCapture_new STDERR_FILENO fds1 = (fds2, Ok c2) ->
  exists rd1 rd2,
    pipe c1 = Some rd1 /\ pipe c2 = Some rd2
    /\ open_files fds2 !! STDOUT_FILENO = Some (pipe_write_end (pipes_made fds))
    /\ open_files fds2 !! rd1 = Some (pipe_read_end (pipes_made fds))
    /\ open_files fds2 !! STDERR_FILENO = Some (pipe_write_end (S (pipes_made fds)))
    /\ open_files fds2 !! rd2 = Some (pipe_read_end (S (pipes_made fds)))
    /\ open_files (StdIoCapture_delete c2 fds2) = open_files fds1
    /\ open_files (StdIoCapture_delete c1 (StdIoCapture_delete c2 fds2))
       = open_files fds.
Proof.
  intros Hout Herr Hlimit Hnew1 Hnew2.
  unfold STDOUT_FILENO, STDERR_FILENO in *.
  destruct (StdIoCapture_new_Ok _ _ _ _ _ Hout ltac:(lia) Hnew1)
    as (copy1 & rd1 & wr1 & -> & Hc1 & Hr1 & Hw1 & Hn1 & Hn2 & Hn3 & Hp1 & Hp2 & Hfds1).
  assert (Hc1' : copy1 <> 1) by congruence. assert (Hr1' : rd1 <> 1) by congruence.
  assert (Hc1'' : copy1 <> 2) by congruence. assert (Hr1'' : rd1 <> 2) by congruence.
  assert (Herr1 : open_files fds1 !! 2 = Some err).
  { rewrite Hfds1. cbn [open_files]. now rewrite !lookup_insert_ne by lia. }
  assert (Hlimit1 : descriptor_limit fds1 = descriptor_limit fds)
    by now rewrite Hfds1.
  assert (Hpipes1 : pipes_made fds1 = S (pipes_made fds)) by now rewrite Hfds1.
  destruct (StdIoCapture_new_Ok _ _ _ _ _ Herr1 ltac:(lia) Hnew2)
    as (copy2 & rd2 & wr2 & -> & Hc2 & Hr2 & Hw2 & Hm1 & Hm2 & Hm3 & Hq1 & Hq2 & Hfds2).
  rewrite Hpipes1, Hlimit1 in Hfds2.
  assert (Hout1 : open_files fds1 !! 1 = Some (pipe_write_end (pipes_made fds))).
  { rewrite Hfds1. cbn [open_files]. apply lookup_insert_eq. }
  assert (Hrd1 : open_files fds1 !! rd1 = Some (pipe_read_end (pipes_made fds))).
  { rewrite Hfds1. cbn [open_files]. rewrite lookup_insert_ne by congruence.
    apply lookup_insert_eq. }
  assert (Hcopy1 : open_files fds1 !! copy1 = Some out).
  { rewrite Hfds1. cbn [open_files]. rewrite !lookup_insert_ne by congruence.
    apply lookup_insert_eq. }
  assert (Hc2' : copy2 <> 2) by congruence. assert (Hr2' : rd2 <> 2) by congruence.
  assert (Hc21 : copy2 <> 1) by congruence. assert (Hr21 : rd2 <> 1) by congruence.
  assert (Hc2r : copy2 <> rd1) by congruence. assert (Hr2r : rd2 <> rd1) by congruence.
  assert (Hrel2 : open_files
                    (StdIoCapture_delete
                       {| pipe := Some rd2; target_fd := 2;
                          original_fd_copy := copy2; pipe_fd := (rd2, wr2) |} fds2)
                  = open_files fds1).
  { rewrite StdIoCapture_delete_open_files
      with (d := err) (x := pipe_read_end (S (pipes_made fds))).
    - rewrite Hfds2. cbn [open_files]. now apply restored_open_files.
    - rewrite Hfds2. cbn [open_files]. rewrite !lookup_insert_ne by congruence.
      apply lookup_insert_eq.
    - rewrite Hfds2. cbn [open_files]. rewrite lookup_insert_ne by congruence.
      apply lookup_insert_eq.
    - exact Hm1.
    - exact Hc2'.
    - exact Hr2'.
    - rewrite Hfds2. cbn [descriptor_limit]. lia. }
  exists rd1, rd2. cbn [pipe].
  split; [reflexivity|]. split; [reflexivity|].
  split; [|split; [|split; [|split; [|split; [exact Hrel2|]]]]].
  - rewrite Hfds2. cbn [open_files]. now rewrite !lookup_insert_ne by congruence.
  - rewrite Hfds2. cbn [open_files]. now rewrite !lookup_insert_ne by congruence.
  - rewrite Hfds2. cbn [open_files]. apply lookup_insert_eq.
  - rewrite Hfds2. cbn [open_files]. rewrite lookup_insert_ne by congruence.
    apply lookup_insert_eq.
  - rewrite StdIoCapture_delete_open_files
      with (d := out) (x := pipe_read_end (pipes_made fds)).
    + rewrite Hrel2, Hfds1. cbn [open_files]. now apply restored_open_files.
    + now rewrite Hrel2.
    + now rewrite Hrel2.
    + exact Hn1.
    + exact Hc1'.
    + exact Hr1'.
    + rewrite StdIoCapture_delete_limit, Hfds2. cbn [descriptor_limit]. lia.
Qed.

(** X17. A group host that is constructed relays its standard streams.
    When the two streams are open and the constructor returns, standard
    output refers to the write end of one new pipe and standard error to
    that of another; two reads are outstanding on the context of the
    relays, the one whose handler logs with the prefix for standard output
    on the read end of the first pipe and the one with the prefix for
    standard error on that of the second, and the thread of that context
    was started with both buffers empty. The endpoint is the one made from
    the path of the socket, the acceptor the one that
    [create_acceptor_if_inactive] returned for it, and the logger the one
    made for the prefix of that path; nothing is ready on the context of
    the plugins and no wait is on the timers. Destroying the group host
    stops the context of the relays and gives the process the descriptors
    it had before. *)
Theorem constructed_group_host_relays_its_streams (i386 : bool)
    (group_socket_path : string) (fds fds' : descriptors) (h h' : host)
    (members : Members.t Logger) (out err : description) :
  open_files fds !! STDOUT_FILENO = Some out ->
  open_files fds !! STDERR_FILENO = Some err ->
  (2 < descriptor_limit fds)%nat ->
  GroupBridge_constructor Logger_create_from_environment endpoint_new
    i386 group_socket_path fds h = (fds', h', Ok members) ->
  exists rd_out rd_err,
    Members.stdio_context members
    = {| outstanding := [(Some rd_out, "[STDOUT] "); (Some rd_err, "[STDERR] ")];
         stdio_stopped := false |}
    /\ Members.stdio_handler members = true
    /\ Members.stdout_buffer members = ""
    /\ Members.stderr_buffer members = ""
    /\ open_files fds' !! STDOUT_FILENO = Some (pipe_write_end (pipes_made fds))
    /\ open_files fds' !! rd_out = Some (pipe_read_end (pipes_made fds))
    /\ open_files fds' !! STDERR_FILENO
       = Some (pipe_write_end (S (pipes_made fds)))
    /\ open_files fds' !! rd_err = Some (pipe_read_end (S (pipes_made fds)))
    /\ Members.logger members
       = Logger_create_from_environment
           (create_logger_prefix i386 group_socket_path)
    /\ endpoint_new group_socket_path
       = Ok (Members.group_socket_endpoint members)
    /\ create_acceptor_if_inactive (Members.group_socket_endpoint members) h
       = (h', Ok (Members.group_socket_acceptor members))
    /\ Members.plugin_context members = {| ready := []; stopped := false |}
    /\ waiting (Members.events_timer members) = 0%nat
    /\ waiting (Members.shutdown_timer members) = 0%nat
    /\ stdio_stopped (GroupBridge_destructor members fds').1 = true
    /\ open_files (GroupBridge_destructor members fds').2 = open_files fds.
Proof.
  intros Hout Herr Hlimit. unfold GroupBridge_constructor.
  destruct (StdIoCapture_new STDOUT_FILENO fds) as [fds1 [c1|e1]] eqn:Hnew1;
    [|discriminate].
  destruct (StdIoCapture_new STDERR_FILENO fds1) as [fds2 [c2|e2]] eqn:Hnew2;
    [|discriminate].
  destruct (endpoint_new group_socket_path) as [endpoint|e0] eqn:He;
    [|discriminate].
  destruct (create_acceptor_if_inactive endpoint h) as [h1 [a|e]] eqn:Ha;
    [|discriminate].
  intros [= <- <- <-].
  destruct (two_captures _ _ _ _ _ _ _ Hout Herr Hlimit Hnew1 Hnew2)
    as (rd1 & rd2 & Hp1 & Hp2 & H1 & H2 & H3 & H4 & _ & Hback).
  exists rd1, rd2. unfold GroupBridge_destructor, async_log_pipe_lines_started.
  cbn [Members.stdio_context Members.stdio_handler Members.stdout_buffer
       Members.stderr_buffer Members.logger Members.group_socket_endpoint
       Members.group_socket_acceptor Members.plugin_context
       Members.events_timer Members.shutdown_timer Members.stdout_redirect
       Members.stderr_redirect outstanding stdio_stopped waiting fst snd app].
  rewrite Hp1, Hp2. repeat split; first [reflexivity | assumption].
Qed.

(** X18. A group host that cannot be constructed gives the standard
    streams back. When the two streams are open and the constructor
    throws, they refer to what they referred to before. When it throws for
    a capture that cannot be made, or for an endpoint that cannot be made
    from the path, nothing was asked of the host about the socket; in the
    second case, and when it throws what [create_acceptor_if_inactive] has
    thrown, as it does when another group host listens on the socket, the
    captures were made and are released, and the process has the
    descriptors it had before. *)
Theorem failed_construction_gives_the_streams_back (i386 : bool)
    (group_socket_path : string) (fds fds' : descriptors) (h h' : host)
    (failure : construction_failure) (out err : description) :
  open_files fds !! STDOUT_FILENO = Some out ->
  open_files fds !! STDERR_FILENO = Some err ->
  (2 < descriptor_limit fds)%nat ->
  GroupBridge_constructor Logger_create_from_environment endpoint_new
    i386 group_socket_path fds h = (fds', h', Throw failure) ->
  open_files fds' !! STDOUT_FILENO = Some out
  /\ open_files fds' !! STDERR_FILENO = Some err
  /\ match failure with
     | capture_failed e => h' = h
     | endpoint_failed e =>
         h' = h
         /\ endpoint_new group_socket_path = Throw e
         /\ open_files fds' = open_files fds
     | acceptor_failed e =>
         (exists endpoint,
             endpoint_new group_socket_path = Ok endpoint
             /\ create_acceptor_if_inactive endpoint h = (h', Throw e))
         /\ open_files fds' = open_files fds
     end.
Proof.
  intros Hout Herr Hlimit. unfold GroupBridge_constructor.
  destruct (StdIoCapture_new STDOUT_FILENO fds) as [fds1 [c1|e1]] eqn:Hnew1.
  - destruct (StdIoCapture_new STDERR_FILENO fds1) as [fds2 [c2|e2]] eqn:Hnew2.
    + assert (Hback : open_files (StdIoCapture_delete c1
                                    (StdIoCapture_delete c2 fds2))
                      = open_files fds).
      { now destruct (two_captures _ _ _ _ _ _ _ Hout Herr Hlimit Hnew1 Hnew2)
          as (_ & _ & _ & _ & _ & _ & _ & _ & _ & Hback). }
      destruct (endpoint_new group_socket_path) as [endpoint|e0] eqn:He.
      * destruct (create_acceptor_if_inactive endpoint h) as [h1 [a|e]] eqn:Ha;
          [discriminate|].
        intros [= <- <- <-]. rewrite Hback.
        split; [exact Hout|]. split; [exact Herr|]. split; [|reflexivity].
        exists endpoint. split; [reflexivity | exact Ha].
      * intros [= <- <- <-]. rewrite Hback. auto.
    + intros [= <- <- <-]. unfold STDOUT_FILENO, STDERR_FILENO in *.
      destruct (StdIoCapture_new_Ok _ _ _ _ _ Hout ltac:(lia) Hnew1)
        as (copy1 & rd1 & wr1 & -> & Hc1 & Hr1 & Hw1 & Hn1 & _ & _ & _ & _ & Hfds1).
      assert (Hc1' : copy1 <> 1) by congruence.
      assert (Hr1' : rd1 <> 1) by congruence.
      assert (Hc1'' : copy1 <> 2) by congruence.
      assert (Hr1'' : rd1 <> 2) by congruence.
      assert (Herr1 : open_files fds1 !! 2 = Some err).
      { rewrite Hfds1. cbn [open_files]. now rewrite !lookup_insert_ne by lia. }
      destruct (StdIoCapture_new_Throw _ _ _ _ _ Herr1 Hnew2)
        as (Hcode & Hlim & Hleak).
      assert (Hkeep : forall fd x, open_files fds1 !! fd = Some x ->
                                   open_files fds2 !! fd = Some x).
      { intros fd x Hfd. destruct Hleak as [->|(copy2 & Hfree & ->)]; [exact Hfd|].
        rewrite lookup_insert_ne by congruence. exact Hfd. }
      assert (Hdel : open_files
                       (StdIoCapture_delete
                          {| pipe := Some rd1; target_fd := 1;
                             original_fd_copy := copy1; pipe_fd := (rd1, wr1) |}
                          fds2)
                     = delete rd1 (delete copy1 (<[1 := out]> (open_files fds2)))).
      { apply StdIoCapture_delete_open_files
          with (x := pipe_read_end (pipes_made fds)); try assumption.
        - apply Hkeep. rewrite Hfds1. cbn [open_files].
          rewrite !lookup_insert_ne by congruence. apply lookup_insert_eq.
        - apply Hkeep. rewrite Hfds1. cbn [open_files].
          rewrite lookup_insert_ne by congruence. apply lookup_insert_eq.
        - rewrite Hlim, Hfds1. cbn [descriptor_limit]. lia. }
      rewrite Hdel. split; [|split; [|auto]].
      * rewrite !lookup_delete_ne by congruence. apply lookup_insert_eq.
      * rewrite !lookup_delete_ne by congruence.
        rewrite lookup_insert_ne by lia. now apply Hkeep.
  - intros [= <- <- <-].
    destruct (StdIoCapture_new_Throw _ _ _ _ _ Hout Hnew1) as (Hcode & _ & Hleak).
    assert (Hkeep : forall fd x, open_files fds !! fd = Some x ->
                                 open_files fds1 !! fd = Some x).
    { intros fd x Hfd. destruct Hleak as [->|(copy & Hfree & ->)]; [exact Hfd|].
      rewrite lookup_insert_ne by congruence. exact Hfd. }
    auto.
Qed.
End GroupBridgeConstructionFacts.

Module ConstructionExamples.
Import SimHost.

(** The first group host of a group is started on a terminal, and is
    destroyed. *)
Lemma constructed_group_host_relays_its_streams_witness :
  GroupBridge_constructor (fun prefix => prefix) sun_path_endpoint
    false group_socket on_a_terminal (fresh, [])
  = ((GroupBridge_constructor (fun prefix => prefix) sun_path_endpoint
        false group_socket on_a_terminal (fresh, [])).1.1,
     (live, [sys_acceptor_new group_socket]), Ok first_group_host)
  /\ open_files
       (GroupBridge_destructor first_group_host
          (GroupBridge_constructor (fun prefix => prefix) sun_path_endpoint
             false group_socket on_a_terminal (fresh, [])).1.1).2
     = open_files on_a_terminal.
Proof.
  assert (Hnew : GroupBridge_constructor (fun prefix => prefix)
                   sun_path_endpoint false group_socket on_a_terminal
                   (fresh, [])
                 = ((GroupBridge_constructor (fun prefix => prefix)
                       sun_path_endpoint false group_socket on_a_terminal
                       (fresh, [])).1.1,
                    (live, [sys_acceptor_new group_socket]),
                    Ok first_group_host))
    by (vm_compute; reflexivity).
  split; [exact Hnew|].
  destruct (constructed_group_host_relays_its_streams
              (fun prefix => prefix) sun_path_endpoint false group_socket
              on_a_terminal _ (fresh, []) _ first_group_host
              (inherited 0) (inherited 0) eq_refl eq_refl
              ltac:(vm_compute; lia) Hnew)
    as (rd_out & rd_err & _ & _ & _ & _ & _ & _ & _ & _ & _ & _ & _ & _ & _
        & _ & _ & Hback).
  exact Hback.
Defined.

(** A second group host is started for a group that has one. *)
Lemma failed_construction_gives_the_streams_back_witness :
  open_files
    (GroupBridge_constructor (fun prefix => prefix) sun_path_endpoint
       false group_socket on_a_terminal (live, [])).1.1
  = open_files on_a_terminal.
Proof.
  destruct (failed_construction_gives_the_streams_back
              (fun prefix => prefix) sun_path_endpoint false group_socket
              on_a_terminal
              (GroupBridge_constructor (fun prefix => prefix)
                 sun_path_endpoint false group_socket on_a_terminal
                 (live, [])).1.1
              (live, [])
              (live, [sys_acceptor_new group_socket; sys_read_open_sockets])
              (acceptor_failed (exn_system in_use))
              (inherited 0) (inherited 0) eq_refl eq_refl
              ltac:(vm_compute; lia) ltac:(vm_compute; reflexivity))
    as (_ & _ & _ & Hback).
  exact Hback.
Defined.
End ConstructionExamples.
